(** * SSCore: rise/transit/set solver, satellite pass finder, planet photometry

    A shallow embedding of [SSEvent.cpp] and of the photometric helpers of
    [SSPlanet.cpp].

    Numbers.  The C++ code computes with [double].  Here a finite [double] is a
    real number (no rounding), and a value that may also be one of the two
    IEEE infinities the code uses as sentinels ([INFINITY], [-INFINITY],
    [HUGE_VAL]) has type [double] below.  Where libm returns no number (the
    power of a negative base, the arc cosine outside its interval) the result
    is an [option], and the one conversion to [float] that decides a branch,
    [float mag] of [computeAsteroidMagnitude], is rounded to single
    precision.  Angles are radians.

    Collaborators.  [SSTime], [SSAngle], [SSCoordinates] and [SSObject] are
    declared in headers that are not part of the sources at hand; what the
    solver needs from them is gathered in the class [Collaborators]. *)

From Stdlib Require Import Reals Lra Lia ZArith List Bool Sorted.
From Equations Require Import Equations.
Import ListNotations.

Open Scope R_scope.

(** ** Comparisons of [double]s as booleans *)

Definition Rgtb (x y : R) : bool := if Rgt_dec x y then true else false.
Definition Rltb (x y : R) : bool := if Rlt_dec x y then true else false.
Definition Rgeb (x y : R) : bool := if Rge_dec x y then true else false.
Definition Rleb (x y : R) : bool := if Rle_dec x y then true else false.
Definition Reqb (x y : R) : bool := if Req_dec_T x y then true else false.

(** ** [double] values that may be infinite *)

Inductive double : Type :=
| Finite (r : R)
| PosInfinity
| NegInfinity.

Definition INFINITY : double := PosInfinity.
Definition HUGE_VAL : double := PosInfinity.

Definition isinf (x : double) : bool :=
  match x with
  | Finite _ => false
  | _ => true
  end.

(** [x > y] and [x < y] for a possibly infinite [x] and a finite [y]. *)
Definition dgtb (x : double) (y : R) : bool :=
  match x with
  | Finite r => Rgtb r y
  | PosInfinity => true
  | NegInfinity => false
  end.

Definition dltb (x : double) (y : R) : bool :=
  match x with
  | Finite r => Rltb r y
  | PosInfinity => false
  | NegInfinity => true
  end.

(** [fabs (x - y) > eps] for a possibly infinite [x] and a finite [y]:
    the difference of an infinity and a finite number is infinite. *)
Definition fabs_diff_gtb (x : double) (y eps : R) : bool :=
  match x with
  | Finite r => Rgtb (Rabs (r - y)) eps
  | _ => true
  end.

(** ** Constants of [SSAngle] and [SSTime]

    Both classes are declared in headers absent from the sources; the
    constants carry the values their names state.  SSPlanet.cpp multiplies
    angles in radians by [kDegPerRad] to print degrees and parsed degrees by
    [kRadPerDeg] to store radians. *)

Definition kPi : R := PI.
Definition kTwoPi : R := 2 * PI.
Definition kDegPerRad : R := 180 / PI.
Definition kRadPerDeg : R := PI / 180.

Definition kSecondsPerDay : R := 86400.
Definition kMinutesPerDay : R := 1440.
Definition kSiderealPerSolarDays : R := 1.00273790934.

(** ** libm functions on the reals *)

Definition log10 (x : R) : R := ln x / ln 10.

(** [pow x y] for an exponent [y] that is positive and not an integer, the
    only use the code makes of it (the exponents 0.63 and 1.22): the power of
    a negative base is then not a number, [None]; that of 0 is 0. *)
Definition pow (x y : R) : option R :=
  if Rltb x 0 then None
  else if Reqb x 0 then Some 0
  else Some (Rpower x y).

(** ** Conversion of a [double] to [float]

    [float mag = ...] of [computeAsteroidMagnitude] rounds its initialiser to
    single precision: 24 significant bits, the least positive number
    2^-149, to the nearest number, a tie to the one whose last bit is 0, and
    to an infinity from 2^128 on.  The unit in the last place of [x] is
    2^[ulpExponent x]. *)

Definition floorLog2 (x : R) : Z := Int_part (ln (Rabs x) / ln 2).

Definition ulpExponent (x : R) : Z := Z.max (floorLog2 x - 23) (-149).

(** The integer nearest to [y], the even one of the two when [y] is half
    way. *)
Definition nearestEven (y : R) : Z :=
  let n := Int_part y in
  if Rltb (y - IZR n) (1 / 2) then n
  else if Rgtb (y - IZR n) (1 / 2) then (n + 1)%Z
  else if Z.even n then n else (n + 1)%Z.

Definition roundFloat (x : R) : R :=
  let ulp := powerRZ 2 (ulpExponent x) in
  IZR (nearestEven (x / ulp)) * ulp.

Definition toFloat (x : R) : double :=
  if Reqb x 0 then Finite 0
  else if Rgeb (Rabs (roundFloat x)) (powerRZ 2 128)
       then (if Rltb x 0 then NegInfinity else PosInfinity)
       else Finite (roundFloat x).

(** ** SSPlanet.cpp: photometry *)

(** [double SSPlanet::illumination ( double phase )] *)
Definition illumination (phase : R) : R :=
  1.0 + cos phase / 2.0.

(** The phase factor of the H-G model, as [computeAsteroidMagnitude]
    computes it in double precision before it stores it in [float mag]; not
    a number, [None], when a power is not. *)
Definition phaseFactor (phase g : R) : option R :=
  match pow (tan (phase / 2.0)) 0.63, pow (tan (phase / 2.0)) 1.22 with
  | Some t1, Some t2 =>
      let phi1 := exp (- 3.33 * t1) in
      let phi2 := exp (- 1.87 * t2) in
      Some ((1.0 - g) * phi1 + g * phi2)
  | _, _ => None
  end.

(** [float SSPlanet::computeAsteroidMagnitude ( double rad, double dist,
    double phase, double h, double g )]

    [mag] is a [float].  A [mag] that is not a number fails the test
    [mag > 0.0], as every comparison with it does; the logarithm of an
    infinite [mag] is infinite.  The logarithm of [rad * dist] is that of a
    positive number. *)
Definition computeAsteroidMagnitude (rad dist phase h g : R) : double :=
  match pow (tan (phase / 2.0)) 0.63, pow (tan (phase / 2.0)) 1.22 with
  | Some t1, Some t2 =>
      let phi1 := exp (- 3.33 * t1) in
      let phi2 := exp (- 1.87 * t2) in
      match toFloat ((1.0 - g) * phi1 + g * phi2) with
      | Finite mag =>
          if Rgtb mag 0.0
          then Finite (h + 5.0 * log10 (rad * dist) - 2.5 * log10 mag)
          else HUGE_VAL
      | PosInfinity => NegInfinity
      | NegInfinity => HUGE_VAL
      end
  | _, _ => HUGE_VAL
  end.

(** ** Data model *)

(** [struct SSSpherical] of SSVector.hpp *)
Record SSSpherical : Type := mkSpherical {
  lon : R;
  lat : R;
  rad : R
}.

(** [struct SSVector] of SSVector.hpp *)
Record SSVector : Type := mkVector {
  vx : R;
  vy : R;
  vz : R
}.

(** Modelled from the spec: the observer context ([SSCoordinates], whose
    header is absent).  It "supplies: current time, geographic
    longitude/latitude, and frame-transform services"; everything else it
    holds is derived from these two fields when the time is set. *)
Record SSCoordinates : Type := mkCoordinates {
  ctime : R;
  cloc : SSSpherical
}.

Definition getTime (coords : SSCoordinates) : R := ctime coords.
Definition getLocation (coords : SSCoordinates) : SSSpherical := cloc coords.
Definition setTime (coords : SSCoordinates) (time : R) : SSCoordinates :=
  {| ctime := time; cloc := cloc coords |}.

(** The ephemeris state of an object: the fields that
    [SSPlanet::computeEphemeris] overwrites. *)
Record Ephemeris : Type := mkEphemeris {
  e_position : SSVector;
  e_velocity : SSVector;
  e_direction : SSVector;
  e_distance : R;
  e_magnitude : double
}.

(** Modelled from the spec: a celestial object ([SSObject], whose header is
    absent) is its catalogue data, which the solver never changes, and its
    "mutable ephemeris state ... recomputed in place every time
    computeEphemeris runs". *)
Record SSObject (Data : Type) : Type := mkObject {
  o_data : Data;
  o_ephemeris : Ephemeris
}.
Arguments mkObject {Data} _ _.
Arguments o_data {Data} _.
Arguments o_ephemeris {Data} _.

Definition getDirection {Data : Type} (pObj : SSObject Data) : SSVector :=
  e_direction (o_ephemeris pObj).

(** One event of a pass (time, azimuth, altitude) and a pass, as SSEvent.hpp
    (absent) declares them for [SSPass]. *)
Record SSPassEvent : Type := mkPassEvent {
  ev_time : double;
  ev_azm : R;
  ev_alt : R
}.

Record SSPass : Type := mkPass {
  rising : SSPassEvent;
  transit : SSPassEvent;
  setting : SSPassEvent
}.

(** [SSPass pass = { 0.0 }] *)
Definition zeroEvent : SSPassEvent :=
  {| ev_time := Finite 0; ev_azm := 0; ev_alt := 0 |}.
Definition zeroPass : SSPass :=
  {| rising := zeroEvent; transit := zeroEvent; setting := zeroEvent |}.

Definition kRise : Z := (-1)%Z.
Definition kTransit : Z := 0%Z.
Definition kSet : Z := 1%Z.

(** ** The collaborators of the event solver

    - [getSiderealTime time lon] is [time.getSiderealTime ( lon )];
    - [getLocalMidnight today] is [today.getLocalMidnight()];
    - [modPi x] is [SSAngle::modPi], reduction to the range -kPi to +kPi;
    - [toEquatorial coords v] is
      [SSSpherical ( coords.transform ( kFundamental, kEquatorial, v ) )];
    - [toHorizon coords v] is
      [SSSpherical ( coords.transform ( kFundamental, kHorizon, v ) )];
    - [ephemerisAt data coords] is the state [pObj->computeEphemeris ( coords )]
      stores in the object. *)
Class Collaborators : Type := {
  ObjectData : Type;
  getSiderealTime : R -> R -> R;
  getLocalMidnight : R -> R;
  modPi : R -> R;
  toEquatorial : SSCoordinates -> SSVector -> SSSpherical;
  toHorizon : SSCoordinates -> SSVector -> SSSpherical;
  ephemerisAt : ObjectData -> SSCoordinates -> Ephemeris
}.

Section Event.

Context {E : Collaborators}.

Definition SSObjectPtr : Type := SSObject ObjectData.

(** [void SSPlanet::computeEphemeris ( SSCoordinates &coords )]: every field
    of the ephemeris state is overwritten from the catalogue data and the
    context. *)
Definition computeEphemeris (coords : SSCoordinates) (pObj : SSObjectPtr)
  : SSObjectPtr :=
  {| o_data := o_data pObj;
     o_ephemeris := ephemerisAt (o_data pObj) coords |}.

(** The cosine of the hour angle at which an object of declination [dec]
    is at altitude [alt] for an observer at latitude [lat]: the quantity
    [cosha] of [semiDiurnalArc]. *)
Definition cosHourAngle (lat dec alt : R) : R :=
  (sin alt - sin dec * sin lat) / (cos dec * cos lat).

(** [SSAngle SSEvent::semiDiurnalArc ( SSAngle lat, SSAngle dec, SSAngle alt )] *)
Definition semiDiurnalArc (lat dec alt : R) : R :=
  let cosha := (sin alt - sin dec * sin lat) / (cos dec * cos lat) in
  if Rgeb cosha 1.0 then 0.0
  else if Rleb cosha (- 1.0) then kPi
  else acos cosha.

(** [SSTime SSEvent::riseTransitSet ( SSTime time, SSAngle ra, SSAngle dec,
    int sign, SSAngle lon, SSAngle lat, SSAngle alt )] *)
Definition riseTransitSet (time ra dec : R) (sign : Z) (lon lat alt : R)
  : double :=
  let ha := semiDiurnalArc lat dec alt in
  if Reqb ha kPi && negb (sign =? 0)%Z then INFINITY
  else if Reqb ha 0.0 then NegInfinity
  else
    let lst := getSiderealTime time lon in
    let theta := modPi (ra - lst + IZR sign * ha) in
    Finite (time + theta / kTwoPi / kSiderealPerSolarDays).

(** [SSTime SSEvent::riseTransitSet ( SSTime time, SSCoordinates &coords,
    SSObjectPtr pObj, int sign, SSAngle alt )] *)
Definition riseTransitSetObj (time : R) (coords : SSCoordinates)
    (pObj : SSObjectPtr) (sign : Z) (alt : R) : double :=
  let loc := getLocation coords in
  let equ := toEquatorial coords (getDirection pObj) in
  riseTransitSet time (lon equ) (lat equ) sign (lon loc) (lat loc) alt.

(** The observer context and the object, which the solver receives by
    reference and updates in place. *)
Record World : Type := mkWorld {
  w_coords : SSCoordinates;
  w_obj : SSObjectPtr
}.

(** *** [riseTransitSetSearch] *)

Definition imax : nat := 10.
Definition precision : R := 1.0 / kSecondsPerDay.

(** What the [do ... while] loop returns, with the final value of its
    counter [i]. *)
Record SearchResult : Type := mkSearchResult {
  sr_time : double;
  sr_world : World;
  sr_iterations : nat
}.

(** The loop condition
    [fabs ( time - lasttime ) > precision && ! isinf ( time ) && i < imax]. *)
Definition searchContinues (time : double) (lasttime : R) (i : nat) : bool :=
  fabs_diff_gtb time lasttime precision && negb (isinf time) && (i <? imax)%nat.

(** The value of a [double] known to be finite. *)
Definition dval (x : double) : R :=
  match x with
  | Finite r => r
  | _ => 0
  end.

(** A value together with the equation that names it, so that the branch
    taken by the loop test is known where the loop recurses. *)
Definition inspect {A : Type} (a : A) : {b : A | a = b} :=
  exist _ a eq_refl.

(** The body of the loop up to [i++], then the test; [i] and [time] are the
    values of the C variables on entry of the body. *)
Equations? searchLoop (sign : Z) (alt : R) (i : nat) (time : R) (w : World)
  : SearchResult by wf (imax - i)%nat lt :=
searchLoop sign alt i time w
  with inspect (searchContinues
                  (riseTransitSetObj time
                     (setTime (w_coords w) time)
                     (computeEphemeris (setTime (w_coords w) time) (w_obj w))
                     sign alt)
                  time (S i)) := {
  | exist _ true _ =>
      searchLoop sign alt (S i)
        (dval (riseTransitSetObj time
                 (setTime (w_coords w) time)
                 (computeEphemeris (setTime (w_coords w) time) (w_obj w))
                 sign alt))
        {| w_coords := setTime (w_coords w) time;
           w_obj := computeEphemeris (setTime (w_coords w) time) (w_obj w) |}
  | exist _ false _ =>
      {| sr_time := riseTransitSetObj time
                      (setTime (w_coords w) time)
                      (computeEphemeris (setTime (w_coords w) time) (w_obj w))
                      sign alt;
         sr_world :=
           {| w_coords := setTime (w_coords w) time;
              w_obj := computeEphemeris (setTime (w_coords w) time) (w_obj w) |};
         sr_iterations := S i |} }.
Proof.
  unfold searchContinues in e.
  apply andb_prop in e as [_ e%Nat.ltb_lt].
  clear searchLoop.
  change (imax - S i < imax - i)%nat.
  lia.
Qed.

(** [SSTime SSEvent::riseTransitSetSearch ( SSTime time, SSCoordinates &coords,
    SSObjectPtr pObj, int sign, SSAngle alt )] *)
Definition riseTransitSetSearch (time : R) (w : World) (sign : Z) (alt : R)
  : double * World :=
  let r := searchLoop sign alt 0 time w in
  (sr_time r, sr_world r).

(** *** [riseTransitSetSearchDay] *)

(** [SSTime SSEvent::riseTransitSetSearchDay ( SSTime today,
    SSCoordinates &coords, SSObjectPtr pObj, int sign, SSAngle alt )] *)
Definition riseTransitSetSearchDay (today : R) (w : World) (sign : Z) (alt : R)
  : double * World :=
  let start := getLocalMidnight today in
  let end_ := start + 1.0 in
  let '(time, w1) := riseTransitSetSearch (start + 0.5) w sign alt in
  let '(time, w2) :=
    if dgtb time end_ then riseTransitSetSearch (start - 0.5) w1 sign alt
    else if dltb time start then riseTransitSetSearch (end_ + 0.5) w1 sign alt
    else (time, w1) in
  let time :=
    if dgtb time end_ || dltb time start
    then (if (sign =? -1)%Z then NegInfinity else INFINITY)
    else time in
  (time, w2).

(** *** The pass-circumstances overload of [riseTransitSet] *)

(** [if ( ! isinf ( t ) ) { hor = coords.transform ( ... ); ev.azm = hor.lon;
    ev.alt = hor.lat; }] after [ev.time = t], on an event that is still zero. *)
Definition recordEvent (time : double) (w : World) : SSPassEvent :=
  if negb (isinf time)
  then
    let hor := toHorizon (w_coords w) (getDirection (w_obj w)) in
    {| ev_time := time; ev_azm := lon hor; ev_alt := lat hor |}
  else
    {| ev_time := time; ev_azm := ev_azm zeroEvent; ev_alt := ev_alt zeroEvent |}.

(** [SSPass SSEvent::riseTransitSet ( SSTime today, SSCoordinates &coords,
    SSObjectPtr pObj, SSAngle alt )] *)
Definition riseTransitSetPass (today : R) (w : World) (alt : R)
  : SSPass * World :=
  let savetime := getTime (w_coords w) in
  let '(t1, w1) := riseTransitSetSearchDay today w kRise alt in
  let rising_ := recordEvent t1 w1 in
  let '(t2, w2) := riseTransitSetSearchDay today w1 kTransit 0.0 in
  let transit_ := recordEvent t2 w2 in
  let '(t3, w3) := riseTransitSetSearchDay today w2 kSet alt in
  let setting_ := recordEvent t3 w3 in
  let coords := setTime (w_coords w3) savetime in
  let pObj := computeEphemeris coords (w_obj w3) in
  ({| rising := rising_; transit := transit_; setting := setting_ |},
   {| w_coords := coords; w_obj := pObj |}).

(** *** [findSatellitePasses] *)

(** The variables of the sweep that live across iterations. *)
Record Scan : Type := mkScan {
  sc_time : R;
  sc_step : R;
  sc_pass : SSPass;
  sc_maxAlt : R;
  sc_oldAlt : R;
  sc_passes : list SSPass;
  sc_world : World
}.

(** The step chosen from the altitude just computed:
    [if ( hor.lat > -1.0 * SSAngle::kDegPerRad ) step = 1.0 / kSecondsPerDay;
     else step = 1.0 / kMinutesPerDay;] *)
Definition sweepStep (hor_lat : R) : R :=
  if Rgtb hor_lat (- 1.0 * kDegPerRad)
  then 1.0 / kSecondsPerDay
  else 1.0 / kMinutesPerDay.

Definition setRising (pass : SSPass) (ev : SSPassEvent) : SSPass :=
  {| rising := ev; transit := transit pass; setting := setting pass |}.
Definition setTransit (pass : SSPass) (ev : SSPassEvent) : SSPass :=
  {| rising := rising pass; transit := ev; setting := setting pass |}.
Definition setSetting (pass : SSPass) (ev : SSPassEvent) : SSPass :=
  {| rising := rising pass; transit := transit pass; setting := ev |}.

(** The [if ( time > start ) { ... }] block: event detection on a sample
    [(time, azm, alt)]; returns the pass under construction, the running
    peak and the vector of passes. *)
Definition detect (minAlt time azm alt oldAlt : R)
    (pass : SSPass) (maxAlt : R) (passes : list SSPass)
  : SSPass * R * list SSPass :=
  let ev := {| ev_time := Finite time; ev_azm := azm; ev_alt := alt |} in
  let pass :=
    if Rgtb alt minAlt && Rltb oldAlt minAlt then setRising pass ev else pass in
  let '(pass, maxAlt) :=
    if Rgtb alt maxAlt then (setTransit pass ev, alt) else (pass, maxAlt) in
  if Rgtb oldAlt minAlt && Rltb alt minAlt
  then (setSetting pass ev, 0.0, passes ++ [setSetting pass ev])
  else (pass, maxAlt, passes).

(** One iteration of the [for] loop, body then [time += step]. *)
Definition scanBody (start minAlt : R) (s : Scan) : Scan :=
  let time := sc_time s in
  let coords := setTime (w_coords (sc_world s)) time in
  let pSat := computeEphemeris coords (w_obj (sc_world s)) in
  let hor := toHorizon coords (getDirection pSat) in
  let azm := lon hor in
  let alt := lat hor in
  let step := sweepStep (lat hor) in
  let '(pass, maxAlt, passes) :=
    if Rgtb time start
    then detect minAlt time azm alt (sc_oldAlt s)
           (sc_pass s) (sc_maxAlt s) (sc_passes s)
    else (sc_pass s, sc_maxAlt s, sc_passes s) in
  {| sc_time := time + step;
     sc_step := step;
     sc_pass := pass;
     sc_maxAlt := maxAlt;
     sc_oldAlt := alt;
     sc_passes := passes;
     sc_world := {| w_coords := coords; w_obj := pSat |} |}.

(** The number of one-second steps that fit before [stop], which bounds the
    number of iterations left. *)
Definition sweepMeasure (stop : R) (s : Scan) : nat :=
  Z.to_nat (up ((stop - sc_time s) * kSecondsPerDay)).

(** [for ( time = start; time <= stop; time += step ) { ... }] *)
Equations? sweep (start stop minAlt : R) (s : Scan) : Scan
  by wf (sweepMeasure stop s) lt :=
sweep start stop minAlt s with Rle_dec (sc_time s) stop := {
  | left _ => sweep start stop minAlt (scanBody start minAlt s)
  | right _ => s }.
Proof.
  unfold sweepMeasure, scanBody.
  destruct (if Rgtb (sc_time s) start then _ else _) as [[pass maxAlt] passes].
  cbn [sc_time].
  set (step := sweepStep _).
  assert (Hstep : 1 / kSecondsPerDay <= step).
  { unfold step, sweepStep, kSecondsPerDay, kMinutesPerDay.
    destruct (Rgtb _ _); lra. }
  unfold kSecondsPerDay in *.
  set (x := (stop - sc_time s) * 86400).
  set (y := (stop - (sc_time s + step)) * 86400).
  assert (Hy : y <= x - 1) by (unfold x, y; lra).
  assert (Hx : 0 <= x) by (unfold x; lra).
  destruct (archimed x) as [Hx1 Hx2], (archimed y) as [Hy1 Hy2].
  assert (Hlt : (up y < up x)%Z) by (apply lt_IZR; lra).
  assert (Hpos : (0 < up x)%Z) by (apply lt_IZR; lra).
  lia.
Qed.

(** [int SSEvent::findSatellitePasses ( SSCoordinates &coords,
    SSObjectPtr pSat, SSTime start, SSTime stop, double minAlt,
    vector<SSPass> &passes )] *)
Definition findSatellitePasses (w : World) (start stop minAlt : R)
    (passes : list SSPass) : Z * list SSPass * World :=
  let savetime := getTime (w_coords w) in
  let s := sweep start stop minAlt
             {| sc_time := start; sc_step := 0; sc_pass := zeroPass;
                sc_maxAlt := 0; sc_oldAlt := 0; sc_passes := passes;
                sc_world := w |} in
  let coords := setTime (w_coords (sc_world s)) savetime in
  let pSat := computeEphemeris coords (w_obj (sc_world s)) in
  (Z.of_nat (length (sc_passes s)), sc_passes s,
   {| w_coords := coords; w_obj := pSat |}).

End Event.

(** ** SSPlanet.cpp: the other magnitude models *)

(** [float SSPlanet::computeCometMagnitude ( double rad, double dist,
    double h, double k )] *)
Definition computeCometMagnitude (rad dist h k : R) : R :=
  h + 5.0 * log10 dist + 2.5 * k * log10 rad.

(** [float SSPlanet::computeSatelliteMagnitude ( double dist, double phase,
    double stdmag )] *)
Definition computeSatelliteMagnitude (dist phase stdmag : R) : double :=
  if Rltb phase PI
  then Finite (stdmag - 15.75
               + 2.5 * log10 (dist * dist / ((1.0 + cos phase) / 2.0)))
  else HUGE_VAL.

(** ** SSVector.hpp: vector arithmetic

    The header declares these members and maps the operators [+], [-], [*],
    [+=] to them; their bodies are in a file absent from the sources.  They
    are the component-wise operations their names state. *)

Definition add (a b : SSVector) : SSVector :=
  {| vx := vx a + vx b; vy := vy a + vy b; vz := vz a + vz b |}.
Definition subtract (a b : SSVector) : SSVector :=
  {| vx := vx a - vx b; vy := vy a - vy b; vz := vz a - vz b |}.
Definition multiplyBy (a : SSVector) (s : R) : SSVector :=
  {| vx := vx a * s; vy := vy a * s; vz := vz a * s |}.
Definition dotProduct (a b : SSVector) : R :=
  vx a * vx b + vy a * vy b + vz a * vz b.
Definition magnitude (a : SSVector) : R :=
  sqrt (vx a * vx a + vy a * vy a + vz a * vz a).

(** [acos] of libm: not a number, [None], outside the interval from -1
    to 1. *)
Definition libm_acos (x : R) : option R :=
  if Rleb (-1) x && Rleb x 1 then Some (acos x) else None.

(** [double SSPlanet::phaseAngle ( SSVector position, SSVector direction )]

    A position of length 0 is the null vector: the quotient is 0.0 / 0.0,
    not a number. *)
Definition phaseAngle (position direction : SSVector) : option R :=
  if Reqb (magnitude position) 0 then None
  else libm_acos (dotProduct position direction / magnitude position).

(** ** SSPlanet.cpp: positions of planets and moons

    The collaborators of the position computations:
    - [jplCompute id jed] is [SSJPLDEphemeris::compute ( id, jed, false, pos,
      vel )], [None] when it returns false;
    - [getMercuryOrbit] ... [getPlutoOrbit] are the static members of
      [SSOrbit] of these names, [defaultOrbit] is [SSOrbit()];
    - [toPositionVelocity orb jed] is [orb.toPositionVelocity ( jed, pos, vel )];
    - [eclipticToFundamental v] is the product of [v] by the static matrix
      [SSCoordinates::getEclipticMatrix ( getObliquity ( kJ2000 ) )];
    - [defaultVector] is [SSVector()]. *)
Class Ephemerides : Type := {
  SSOrbit : Type;
  defaultOrbit : SSOrbit;
  jplCompute : Z -> R -> option (SSVector * SSVector);
  getMercuryOrbit : R -> SSOrbit;
  getVenusOrbit : R -> SSOrbit;
  getEarthOrbit : R -> SSOrbit;
  getMarsOrbit : R -> SSOrbit;
  getJupiterOrbit : R -> SSOrbit;
  getSaturnOrbit : R -> SSOrbit;
  getUranusOrbit : R -> SSOrbit;
  getNeptuneOrbit : R -> SSOrbit;
  getPlutoOrbit : R -> SSOrbit;
  toPositionVelocity : SSOrbit -> R -> SSVector * SSVector;
  eclipticToFundamental : SSVector -> SSVector;
  defaultVector : SSVector
}.

(** [enum SSPlanetID] of SSPlanet.hpp, the identifiers the code tests. *)
Definition kMercury : Z := 1.
Definition kVenus : Z := 2.
Definition kEarth : Z := 3.
Definition kMars : Z := 4.
Definition kJupiter : Z := 5.
Definition kSaturn : Z := 6.
Definition kUranus : Z := 7.
Definition kNeptune : Z := 8.
Definition kPluto : Z := 9.
Definition kLuna : Z := 301.

(** The conversion [(int)] of a 64-bit identifier: its low 32 bits, read as
    a signed number. *)
Definition toInt (z : Z) : Z :=
  ((z + 2147483648) mod 4294967296 - 2147483648)%Z.

(** [int p = (int) _id.identifier() / 100; if ( p < 0 || p > 9 ) p = 0;]
    The conversion applies to the identifier, before the division. *)
Definition primaryIndex (id : Z) : Z :=
  let p := (toInt id ÷ 100)%Z in
  if (p <? 0)%Z || (p >? 9)%Z then 0%Z else p.

(** The static arrays [primaryPos], [primaryVel] and [primaryJED] of
    [computeMoonPositionVelocity], entry by entry. *)
Record PrimaryEntry : Type := mkPrimaryEntry {
  pe_jed : R;
  pe_pos : SSVector;
  pe_vel : SSVector
}.

(** [l[n] = x] in an array. *)
Fixpoint setNth {A : Type} (n : nat) (x : A) (l : list A) : list A :=
  match l, n with
  | [], _ => []
  | _ :: t, O => x :: t
  | h :: t, S m => h :: setNth m x t
  end.

Section Positions.

Context {P : Ephemerides}.

(** The arrays before the first call: [primaryJED] is initialised to 0.0,
    the vectors are default-constructed. *)
Definition initialEntry : PrimaryEntry :=
  {| pe_jed := 0.0; pe_pos := defaultVector; pe_vel := defaultVector |}.
Definition initialCache : list PrimaryEntry := repeat initialEntry 10.

(** [void SSPlanet::computeMajorPlanetPositionVelocity ( int id, double jed,
    double lt, SSVector &pos, SSVector &vel )] *)
Definition computeMajorPlanetPositionVelocity (id : Z) (jed lt : R)
  : SSVector * SSVector :=
  match jplCompute id (jed - lt) with
  | Some pv => pv
  | None =>
      let orb :=
        if (id =? kMercury)%Z then getMercuryOrbit (jed - lt)
        else if (id =? kVenus)%Z then getVenusOrbit (jed - lt)
        else if (id =? kEarth)%Z then getEarthOrbit (jed - lt)
        else if (id =? kMars)%Z then getMarsOrbit (jed - lt)
        else if (id =? kJupiter)%Z then getJupiterOrbit (jed - lt)
        else if (id =? kSaturn)%Z then getSaturnOrbit (jed - lt)
        else if (id =? kUranus)%Z then getUranusOrbit (jed - lt)
        else if (id =? kNeptune)%Z then getNeptuneOrbit (jed - lt)
        else if (id =? kPluto)%Z then getPlutoOrbit (jed - lt)
        else defaultOrbit in
      let '(pos, vel) := toPositionVelocity orb (jed - lt) in
      (eclipticToFundamental pos, eclipticToFundamental vel)
  end.

(** [void SSPlanet::computeMinorPlanetPositionVelocity ( double jed,
    double lt, SSVector &pos, SSVector &vel )], for the object's [_orbit]. *)
Definition computeMinorPlanetPositionVelocity (orbit : SSOrbit) (jed lt : R)
  : SSVector * SSVector :=
  let '(pos, vel) := toPositionVelocity orbit (jed - lt) in
  (eclipticToFundamental pos, eclipticToFundamental vel).

(** [void SSPlanet::computeMoonPositionVelocity ( double jed, double lt,
    SSVector &pos, SSVector &vel )], for the object's identifier and orbit;
    the static arrays are passed in and returned. *)
Definition computeMoonPositionVelocity (id : Z) (orbit : SSOrbit) (jed lt : R)
    (cache : list PrimaryEntry)
  : SSVector * SSVector * list PrimaryEntry :=
  match (if (id =? kLuna)%Z then jplCompute 10 (jed - lt) else None) with
  | Some pv => (pv, cache)
  | None =>
      let '(pos, vel) := computeMinorPlanetPositionVelocity orbit jed lt in
      let p := Z.to_nat (primaryIndex id) in
      let cache :=
        if negb (Reqb jed (pe_jed (nth p cache initialEntry)))
        then
          let '(ppos, pvel) :=
            computeMajorPlanetPositionVelocity (primaryIndex id) jed 0.0 in
          setNth p {| pe_jed := jed; pe_pos := ppos; pe_vel := pvel |} cache
        else cache in
      let primary := nth p cache initialEntry in
      (add pos (subtract (pe_pos primary) (multiplyBy (pe_vel primary) lt)),
       add vel (pe_vel primary),
       cache)
  end.

(** An entry of the arrays holds what [computeMajorPlanetPositionVelocity]
    gives for its planet at its date. *)
Definition entryValid (p : nat) (e : PrimaryEntry) : Prop :=
  (pe_pos e, pe_vel e)
  = computeMajorPlanetPositionVelocity (Z.of_nat p) (pe_jed e) 0.0.

End Positions.

(** ** Notions used in the statements and in the proofs *)

Section Readings.

Context {E : Collaborators}.

(** The world after [coords.setTime ( time ); pObj->computeEphemeris ( coords )]. *)
Definition atTime (w : World) (time : R) : World :=
  {| w_coords := setTime (w_coords w) time;
     w_obj := computeEphemeris (setTime (w_coords w) time) (w_obj w) |}.

(** The refined guess one iteration of [riseTransitSetSearch] computes from
    the guess [time], for the observer and the object of [w]. *)
Definition refinedGuess (w : World) (sign : Z) (alt : R) (time : R) : double :=
  riseTransitSetObj time
    (setTime (w_coords w) time)
    (computeEphemeris (setTime (w_coords w) time) (w_obj w))
    sign alt.

(** The successive guesses of the search: the start time, then each guess
    refined from the one before; an infinite guess is final. *)
Fixpoint guess (w : World) (sign : Z) (alt : R) (time : R) (n : nat) : double :=
  match n with
  | O => Finite time
  | S m =>
      match guess w sign alt time m with
      | Finite t => refinedGuess w sign alt t
      | inf => inf
      end
  end.

(** Guesses [j-1] and [j] are finite and further apart than the precision:
    the search goes on after iteration [j]. *)
Definition notConverged (w : World) (sign : Z) (alt : R) (time : R) (j : nat)
  : Prop :=
  exists a b : R,
    guess w sign alt time (j - 1) = Finite a /\
    guess w sign alt time j = Finite b /\
    Rabs (b - a) > precision.

(** Guess [j] is infinite or within the precision of guess [j-1]. *)
Definition converged (w : World) (sign : Z) (alt : R) (time : R) (j : nat)
  : Prop :=
  isinf (guess w sign alt time j) = true \/
  exists a b : R,
    guess w sign alt time (j - 1) = Finite a /\
    guess w sign alt time j = Finite b /\
    Rabs (b - a) <= precision.

(** The altitude of the object of [w] above the observer's horizon when the
    context time is [time]: what a sample of the sweep reads. *)
Definition altitudeAt (w : World) (time : R) : R :=
  lat (toHorizon (setTime (w_coords w) time)
         (getDirection (computeEphemeris (setTime (w_coords w) time) (w_obj w)))).

Definition azimuthAt (w : World) (time : R) : R :=
  lon (toHorizon (setTime (w_coords w) time)
         (getDirection (computeEphemeris (setTime (w_coords w) time) (w_obj w)))).

(** The times at which a sweep that starts at [start] samples the object of
    [w]: the start time, then each sample time advanced by the step chosen
    from the altitude read there. *)
Inductive sampleTime (w : World) (start : R) : R -> Prop :=
| sample_first : sampleTime w start start
| sample_next (t : R) :
    sampleTime w start t ->
    sampleTime w start (t + sweepStep (altitudeAt w t)).

(** Two worlds with the same observer location and the same object data:
    they differ by the context time and the ephemeris state only. *)
Definition sameSetting (w w' : World) : Prop :=
  cloc (w_coords w) = cloc (w_coords w') /\
  o_data (w_obj w) = o_data (w_obj w').

(** Two states of the sweep that differ by the context time and the
    ephemeris state of their worlds only. *)
Definition sameScan (s s' : Scan) : Prop :=
  sc_time s = sc_time s' /\ sc_step s = sc_step s' /\
  sc_pass s = sc_pass s' /\ sc_maxAlt s = sc_maxAlt s' /\
  sc_oldAlt s = sc_oldAlt s' /\ sc_passes s = sc_passes s' /\
  sameSetting (sc_world s) (sc_world s').

(** A pass as the sweep records it when the satellite starts below the
    threshold and no sample lies on it: the events are at sample times of the
    sweep in the order rising, transit (possibly the rising sample), setting;
    each recorded altitude is the altitude at the recorded time; the rising is
    above the threshold, the transit at least as high, the setting below. *)
Definition orderedPass (w : World) (start stop minAlt : R) (pass : SSPass) : Prop :=
  exists tr tt ts : R,
    ev_time (rising pass) = Finite tr /\
    ev_time (transit pass) = Finite tt /\
    ev_time (setting pass) = Finite ts /\
    (sampleTime w start tr /\ sampleTime w start tt /\
     sampleTime w start ts) /\
    (start < tr /\ tr <= tt /\ tt < ts /\ ts <= stop) /\
    (ev_alt (rising pass) = altitudeAt w tr /\
     ev_alt (transit pass) = altitudeAt w tt /\
     ev_alt (setting pass) = altitudeAt w ts) /\
    (ev_alt (setting pass) < minAlt /\
     minAlt < ev_alt (rising pass) /\
     ev_alt (rising pass) <= ev_alt (transit pass)).

(** The pass under construction while the satellite is above the
    threshold. *)
Definition passOpen (w0 : World) (start minAlt : R) (s : Scan) : Prop :=
  exists tr tt : R,
    ev_time (rising (sc_pass s)) = Finite tr /\
    ev_time (transit (sc_pass s)) = Finite tt /\
    (sampleTime w0 start tr /\ sampleTime w0 start tt) /\
    (start < tr /\ tr <= tt /\ tt < sc_time s) /\
    (ev_alt (rising (sc_pass s)) = altitudeAt w0 tr /\
     ev_alt (transit (sc_pass s)) = altitudeAt w0 tt) /\
    (minAlt < ev_alt (rising (sc_pass s)) /\
     ev_alt (rising (sc_pass s)) <= ev_alt (transit (sc_pass s))) /\
    ev_alt (transit (sc_pass s)) = sc_maxAlt s /\
    sc_oldAlt s <= sc_maxAlt s.

(** The state at the head of the loop once the first sample is taken. *)
Definition sweepInv (w0 : World) (start stop minAlt : R)
    (passes0 : list SSPass) (s : Scan) : Prop :=
  start < sc_time s /\
  sampleTime w0 start (sc_time s) /\
  sameSetting (sc_world s) w0 /\
  (exists emitted : list SSPass,
      sc_passes s = passes0 ++ emitted /\
      Forall (orderedPass w0 start stop minAlt) emitted) /\
  ((sc_oldAlt s < minAlt /\ sc_maxAlt s <= minAlt) \/
   (minAlt < sc_oldAlt s /\ passOpen w0 start minAlt s)).

(** [modPi] reduces an angle by whole turns into the interval from -PI
    (excluded) to PI. *)
Definition modPiReduces : Prop :=
  forall x : R,
    - PI < modPi x <= PI /\ exists n : Z, modPi x = x + kTwoPi * IZR n.

(** Sidereal time advances by [kTwoPi * kSiderealPerSolarDays] per day, up
    to whole turns. *)
Definition siderealRate : Prop :=
  forall t d l : R, exists n : Z,
    getSiderealTime (t + d) l =
    getSiderealTime t l + kTwoPi * kSiderealPerSolarDays * d + kTwoPi * IZR n.

(** The object of [w] has the equatorial coordinates [equ] whatever the
    context time: a fixed star. *)
Definition fixedObject (w : World) (equ : SSSpherical) : Prop :=
  forall t : R,
    toEquatorial (setTime (w_coords w) t)
      (getDirection (computeEphemeris (setTime (w_coords w) t) (w_obj w)))
    = equ.

(** A pass emitted by the sweep, whatever the rest of it holds: its setting
    is a sample of the window after the start, below the threshold. *)
Definition closedPass (w : World) (start stop minAlt : R) (pass : SSPass)
  : Prop :=
  exists ts : R,
    ev_time (setting pass) = Finite ts /\
    sampleTime w start ts /\ start < ts <= stop /\
    ev_azm (setting pass) = azimuthAt w ts /\
    ev_alt (setting pass) = altitudeAt w ts /\
    ev_alt (setting pass) < minAlt.

(** The setting of [p] is earlier than the setting of [q]. *)
Definition setsBefore (p q : SSPass) : Prop :=
  exists tp tq : R,
    ev_time (setting p) = Finite tp /\
    ev_time (setting q) = Finite tq /\ tp < tq.

(** The state of the sweep, whatever the satellite does. *)
Definition sweepAppends (w0 : World) (start stop minAlt : R)
    (passes0 : list SSPass) (s : Scan) : Prop :=
  sampleTime w0 start (sc_time s) /\
  sameSetting (sc_world s) w0 /\
  exists emitted : list SSPass,
    sc_passes s = passes0 ++ emitted /\
    Forall (closedPass w0 start stop minAlt) emitted /\
    StronglySorted setsBefore emitted /\
    Forall (fun p => exists ts : R,
                ev_time (setting p) = Finite ts /\ ts < sc_time s) emitted.

(** The state of the sweep while nothing can be emitted. *)
Definition sweepSilent (w0 : World) (start stop minAlt : R)
    (passes0 : list SSPass) (s : Scan) : Prop :=
  sampleTime w0 start (sc_time s) /\
  sameSetting (sc_world s) w0 /\
  sc_passes s = passes0 /\
  ((forall t : R,
       sampleTime w0 start t -> t <= stop -> minAlt <= altitudeAt w0 t) \/
   (start < sc_time s -> sc_oldAlt s <= minAlt)).

End Readings.

(** The result of a day search lies in the local day that starts at
    [midnight], end excluded, or is the infinity of its sign. *)
Definition inLocalDayOpen (midnight : R) (sign : Z) (result : double) : Prop :=
  (exists t : R, result = Finite t /\ midnight <= t < midnight + 1) \/
  (sign = (-1)%Z /\ result = NegInfinity) \/
  (sign <> (-1)%Z /\ result = PosInfinity).

(** The same with the end of the day included. *)
Definition inLocalDayClosed (midnight : R) (sign : Z) (result : double) : Prop :=
  (exists t : R, result = Finite t /\ midnight <= t <= midnight + 1) \/
  (sign = (-1)%Z /\ result = NegInfinity) \/
  (sign <> (-1)%Z /\ result = PosInfinity).

(** An event of the pass function for the local day that starts at
    [midnight]: either it did not occur, and then its time is the infinity
    [sentinel] and its azimuth and altitude are left at 0, or its time lies in
    the day, both ends included. *)
Definition passEventOutcome (midnight : R) (sentinel : double)
    (ev : SSPassEvent) : Prop :=
  ev = {| ev_time := sentinel; ev_azm := 0; ev_alt := 0 |} \/
  exists t : R, ev_time ev = Finite t /\ midnight <= t <= midnight + 1.

(** A pass whose three events are in strict order, whose transit is not
    below [minAlt] and whose rising and setting are not above it by more than
    the tolerance [tol]. *)
Definition strictlyOrderedPass (minAlt tol : R) (pass : SSPass) : Prop :=
  exists tr tt ts : R,
    ev_time (rising pass) = Finite tr /\
    ev_time (transit pass) = Finite tt /\
    ev_time (setting pass) = Finite ts /\
    tr < tt < ts /\
    ev_alt (transit pass) >= minAlt /\
    minAlt + tol >= ev_alt (rising pass) /\
    minAlt + tol >= ev_alt (setting pass).

(** ** Concrete collaborators

    A sky in which the right ascension and the altitude of the one object
    are given functions of the context time.  The apparent direction stored
    by [computeEphemeris] carries (right ascension, declination 0, altitude),
    which the two frame transforms read back.  Sidereal time advances by
    [kTwoPi * kSiderealPerSolarDays] per day, days start at the integers, and
    [modPi] reduces to the interval from -kPi (excluded) to +kPi. *)

Definition modPiModel (x : R) : R :=
  let y := x - kTwoPi * IZR (Int_part (x / kTwoPi)) in
  if Rgtb y kPi then y - kTwoPi else y.

Definition siderealModel (time lon : R) : R :=
  kTwoPi * kSiderealPerSolarDays * time + lon.

Definition zeroVector : SSVector := {| vx := 0; vy := 0; vz := 0 |}.

Definition scriptedSky (raAt altAt : R -> R) : Collaborators :=
  {| ObjectData := unit;
     getSiderealTime := siderealModel;
     getLocalMidnight := fun today => IZR (Int_part today);
     modPi := modPiModel;
     toEquatorial := fun _ v => {| lon := vx v; lat := vy v; rad := 1 |};
     toHorizon := fun _ v => {| lon := 0; lat := vz v; rad := 1 |};
     ephemerisAt := fun _ coords =>
       {| e_position := zeroVector;
          e_velocity := zeroVector;
          e_direction :=
            {| vx := raAt (ctime coords); vy := 0; vz := altAt (ctime coords) |};
          e_distance := 1;
          e_magnitude := Finite 0 |} |}.

(** An observer at longitude 0 on the equator, with the object not yet
    computed, in a scripted sky. *)
Definition equatorWorld (raAt altAt : R -> R)
  : @World (scriptedSky raAt altAt) :=
  @mkWorld (scriptedSky raAt altAt)
    {| ctime := 0; cloc := {| lon := 0; lat := 0; rad := 1 |} |}
    (@mkObject (@ObjectData (scriptedSky raAt altAt)) tt
       {| e_position := zeroVector;
          e_velocity := zeroVector;
          e_direction := zeroVector;
          e_distance := 0;
          e_magnitude := HUGE_VAL |}).

(** A fixed star on the celestial equator at right ascension 0. *)
Definition starRa (_ : R) : R := 0.

(** The sky of a fixed star on the celestial equator. *)
Definition starSky : Collaborators := scriptedSky starRa (fun _ => 0).

(** The observer on the equator under that sky. *)
Definition starWorld : @World starSky := equatorWorld starRa (fun _ => 0).

(** An object that stays ahead of the meridian by the angle the sky turns
    in a quarter of a day until time 1 and is on the meridian from then on. *)
Definition driftingRa (time : R) : R :=
  siderealModel time 0 +
  (if Rltb time 1 then kSiderealPerSolarDays * PI / 2 else 0).

(** A satellite whose pass grazes the altitude 0.2 rad: it is just below it,
    except at the sample one second after time 0, where it is just above. *)
Definition blipAlt (time : R) : R :=
  if Rltb time (1 / 2 / 86400) then 0.1999
  else if Rltb time (3 / 2 / 86400) then 0.2001
  else 0.1999.

Definition driftingSky : Collaborators := scriptedSky driftingRa (fun _ => 0).

Definition driftingWorld : @World driftingSky :=
  equatorWorld driftingRa (fun _ => 0).

Definition blipSky : Collaborators := scriptedSky starRa blipAlt.

Definition blipWorld : @World blipSky := equatorWorld starRa blipAlt.

(** The pass the sweep of [blipWorld] records: it rises and culminates at
    the one sample above the threshold and sets at the next. *)
Definition blipPass : SSPass :=
  {| rising :=
       {| ev_time := Finite (1 / 86400); ev_azm := 0; ev_alt := 0.2001 |};
     transit :=
       {| ev_time := Finite (1 / 86400); ev_azm := 0; ev_alt := 0.2001 |};
     setting :=
       {| ev_time := Finite (2 / 86400); ev_azm := 0; ev_alt := 0.1999 |} |}.

(** Ephemerides without a JPL file, in which every orbit is the same
    straight line along the x axis at unit speed. *)
Definition lineEphemerides : Ephemerides :=
  {| SSOrbit := unit;
     defaultOrbit := tt;
     jplCompute := fun _ _ => None;
     getMercuryOrbit := fun _ => tt;
     getVenusOrbit := fun _ => tt;
     getEarthOrbit := fun _ => tt;
     getMarsOrbit := fun _ => tt;
     getJupiterOrbit := fun _ => tt;
     getSaturnOrbit := fun _ => tt;
     getUranusOrbit := fun _ => tt;
     getNeptuneOrbit := fun _ => tt;
     getPlutoOrbit := fun _ => tt;
     toPositionVelocity := fun _ jed => (mkVector jed 0 0, mkVector 1 0 0);
     eclipticToFundamental := fun v => v;
     defaultVector := zeroVector |}.

(** * Properties *)

(** ** The boolean comparisons decide the order of the reals *)

Lemma Rgtb_true_iff (x y : R) : Rgtb x y = true <-> x > y.
Proof. unfold Rgtb. destruct (Rgt_dec x y); split; intros; auto; discriminate. Qed.

Lemma Rgtb_false_iff (x y : R) : Rgtb x y = false <-> x <= y.
Proof.
  unfold Rgtb. destruct (Rgt_dec x y); split; intros; auto; try discriminate; lra.
Qed.

Lemma Rltb_true_iff (x y : R) : Rltb x y = true <-> x < y.
Proof. unfold Rltb. destruct (Rlt_dec x y); split; intros; auto; discriminate. Qed.

Lemma Rltb_false_iff (x y : R) : Rltb x y = false <-> y <= x.
Proof.
  unfold Rltb. destruct (Rlt_dec x y); split; intros; auto; try discriminate; lra.
Qed.

Lemma Rgeb_true_iff (x y : R) : Rgeb x y = true <-> x >= y.
Proof. unfold Rgeb. destruct (Rge_dec x y); split; intros; auto; discriminate. Qed.

Lemma Rgeb_false_iff (x y : R) : Rgeb x y = false <-> x < y.
Proof.
  unfold Rgeb. destruct (Rge_dec x y); split; intros; auto; try discriminate; lra.
Qed.

Lemma Rleb_true_iff (x y : R) : Rleb x y = true <-> x <= y.
Proof. unfold Rleb. destruct (Rle_dec x y); split; intros; auto; discriminate. Qed.

Lemma Rleb_false_iff (x y : R) : Rleb x y = false <-> y < x.
Proof.
  unfold Rleb. destruct (Rle_dec x y); split; intros; auto; try discriminate; lra.
Qed.

Lemma Reqb_true_iff (x y : R) : Reqb x y = true <-> x = y.
Proof. unfold Reqb. destruct (Req_dec_T x y); split; intros; auto; discriminate. Qed.

Lemma Reqb_false_iff (x y : R) : Reqb x y = false <-> x <> y.
Proof.
  unfold Reqb. destruct (Req_dec_T x y); split; intros; auto; try discriminate.
  contradiction.
Qed.

(** Settles every comparison of the goal whose outcome [lra] can decide. *)
Ltac decide_cmp :=
  repeat first
    [ rewrite (proj2 (Rgtb_true_iff _ _)) by lra
    | rewrite (proj2 (Rgtb_false_iff _ _)) by lra
    | rewrite (proj2 (Rltb_true_iff _ _)) by lra
    | rewrite (proj2 (Rltb_false_iff _ _)) by lra
    | rewrite (proj2 (Rgeb_true_iff _ _)) by lra
    | rewrite (proj2 (Rgeb_false_iff _ _)) by lra
    | rewrite (proj2 (Rleb_true_iff _ _)) by lra
    | rewrite (proj2 (Rleb_false_iff _ _)) by lra
    | rewrite (proj2 (Reqb_true_iff _ _)) by lra
    | rewrite (proj2 (Reqb_false_iff _ _)) by lra ].

(** ** SSPlanet.cpp *)

(** The value [illumination] computes is half a unit above the illuminated
    fraction, whatever the phase angle. *)
Lemma illumination_offset (phase : R) :
  illumination phase = (1 + cos phase) / 2 + 1 / 2.
Proof. unfold illumination. lra. Qed.

Lemma illumination_range (phase : R) :
  1 / 2 <= illumination phase <= 3 / 2.
Proof.
  unfold illumination. pose proof (COS_bound phase). lra.
Qed.

(** C1.  At phase angle 0 (full phase) [illumination] returns 1.5, which is
    neither the illuminated fraction (1 + cos 0)/2 = 1 nor a number of the
    interval [0, 1]. *)
Theorem C1_illumination_at_full_phase :
  illumination 0 = 3 / 2 /\
  (1 + cos 0) / 2 = 1 /\
  illumination 0 <> (1 + cos 0) / 2 /\
  ~ (0 <= illumination 0 <= 1).
Proof.
  unfold illumination. rewrite cos_0. repeat split; lra.
Qed.

(** ** The magnitude of an asteroid *)

(** *** Powers of two and the conversion to [float] *)

Lemma bpow_pos (e : Z) : 0 < powerRZ 2 e.
Proof. apply powerRZ_lt. lra. Qed.

Lemma bpow_add (a b : Z) : powerRZ 2 (a + b) = powerRZ 2 a * powerRZ 2 b.
Proof. apply powerRZ_add. lra. Qed.

Lemma bpow_one : powerRZ 2 1 = 2.
Proof. unfold powerRZ. simpl. lra. Qed.

Lemma bpow_minus_one : powerRZ 2 (-1) = 1 / 2.
Proof. unfold powerRZ. simpl. lra. Qed.

Lemma ln2_pos : 0 < ln 2.
Proof. pose proof ln_lt_2. lra. Qed.

Lemma bpow_exp (e : Z) : powerRZ 2 e = exp (IZR e * ln 2).
Proof. rewrite powerRZ_Rpower by lra. reflexivity. Qed.

Lemma bpow_le (a b : Z) : (a <= b)%Z -> powerRZ 2 a <= powerRZ 2 b.
Proof.
  intros Hab. rewrite !bpow_exp. apply IZR_le in Hab.
  pose proof ln2_pos.
  destruct (Req_dec (IZR a) (IZR b)) as [-> | Hne]; [lra |].
  left. apply exp_increasing. nra.
Qed.

Lemma bpow_lt (a b : Z) : (a < b)%Z -> powerRZ 2 a < powerRZ 2 b.
Proof.
  intros Hab. rewrite !bpow_exp. apply IZR_lt in Hab.
  pose proof ln2_pos. apply exp_increasing. nra.
Qed.

Lemma bpow_nonneg_exponent (n : Z) :
  (0 <= n)%Z -> powerRZ 2 n = IZR (2 ^ n).
Proof.
  intros Hn. rewrite <- (Z2Nat.id n Hn).
  now rewrite <- pow_powerRZ, <- pow_IZR.
Qed.

Lemma floorLog2_bounds (x : R) :
  0 < x -> powerRZ 2 (floorLog2 x) <= x < powerRZ 2 (floorLog2 x + 1).
Proof.
  intros Hx. unfold floorLog2. rewrite Rabs_pos_eq by lra.
  pose proof ln2_pos as H2.
  destruct (base_Int_part (ln x / ln 2)) as [Hlow Hup].
  set (e := Int_part (ln x / ln 2)) in *.
  assert (Hx' : exp (ln x / ln 2 * ln 2) = x).
  { replace (ln x / ln 2 * ln 2) with (ln x) by (field; lra).
    now rewrite exp_ln. }
  rewrite !bpow_exp, plus_IZR. split.
  - apply Rle_trans with (exp (ln x / ln 2 * ln 2)); [| right; exact Hx'].
    destruct (Req_dec (IZR e) (ln x / ln 2)) as [-> | Hne]; [lra |].
    left. apply exp_increasing. nra.
  - apply Rle_lt_trans with (exp (ln x / ln 2 * ln 2));
      [right; symmetry; exact Hx' |].
    apply exp_increasing. nra.
Qed.

Lemma floorLog2_ge (x : R) (k : Z) :
  0 < x -> powerRZ 2 k <= x -> (k <= floorLog2 x)%Z.
Proof.
  intros Hx Hk. destruct (floorLog2_bounds x Hx) as [_ Hup].
  destruct (Z_le_gt_dec k (floorLog2 x)) as [|Hgt]; [assumption |].
  assert (Hle : powerRZ 2 (floorLog2 x + 1) <= powerRZ 2 k)
    by (apply bpow_le; lia).
  lra.
Qed.

Lemma floorLog2_lt (x : R) (k : Z) :
  0 < x -> x < powerRZ 2 k -> (floorLog2 x < k)%Z.
Proof.
  intros Hx Hk. destruct (floorLog2_bounds x Hx) as [Hlow _].
  destruct (Z_lt_ge_dec (floorLog2 x) k) as [|Hge]; [assumption |].
  assert (Hle : powerRZ 2 k <= powerRZ 2 (floorLog2 x))
    by (apply bpow_le; lia).
  lra.
Qed.

Lemma nearestEven_cases (y : R) :
  nearestEven y = Int_part y /\ y - IZR (Int_part y) <= 1 / 2 \/
  nearestEven y = (Int_part y + 1)%Z /\ 1 / 2 <= y - IZR (Int_part y).
Proof.
  unfold nearestEven. cbv zeta. unfold Rltb, Rgtb.
  destruct (Rlt_dec _ _); [left; split; [reflexivity | lra] |].
  destruct (Rgt_dec _ _); [right; split; [reflexivity | lra] |].
  destruct (Z.even _); [left | right]; split; try reflexivity; lra.
Qed.

Lemma nearestEven_ge (y : R) (n : Z) :
  IZR n <= y -> (n <= nearestEven y)%Z.
Proof.
  intros Hn. destruct (base_Int_part y) as [_ Hup].
  assert (Hfloor : (n <= Int_part y)%Z).
  { assert (H : IZR n < IZR (Int_part y + 1)) by (rewrite plus_IZR; lra).
    apply lt_IZR in H. lia. }
  destruct (nearestEven_cases y) as [[-> _] | [-> _]]; lia.
Qed.

Lemma nearestEven_le (y : R) (n : Z) :
  y <= IZR n -> (nearestEven y <= n)%Z.
Proof.
  intros Hn. destruct (base_Int_part y) as [Hlow _].
  destruct (nearestEven_cases y) as [[-> _] | [-> Hhalf]].
  - apply le_IZR. lra.
  - assert (H : IZR (Int_part y) < IZR n) by lra.
    apply lt_IZR in H. lia.
Qed.

Lemma nearestEven_above_half (y : R) : 1 / 2 < y -> (1 <= nearestEven y)%Z.
Proof.
  intros Hy. destruct (base_Int_part y) as [Hlow Hup].
  assert (Hfloor : (0 <= Int_part y)%Z).
  { assert (H : IZR (-1) < IZR (Int_part y)) by lra.
    apply lt_IZR in H. lia. }
  destruct (nearestEven_cases y) as [[-> Hhalf] | [-> _]]; [| lia].
  assert (H : IZR 0 < IZR (Int_part y)) by lra.
  apply lt_IZR in H. lia.
Qed.

Lemma nearestEven_upto_half (y : R) : 0 <= y <= 1 / 2 -> nearestEven y = 0%Z.
Proof.
  intros Hy.
  assert (Hfloor : Int_part y = 0%Z)
    by (symmetry; apply Int_part_spec; lra).
  unfold nearestEven. cbv zeta. rewrite Hfloor. unfold Rltb, Rgtb.
  destruct (Rlt_dec _ _); [reflexivity |].
  destruct (Rgt_dec _ _); [lra | reflexivity].
Qed.

Lemma nearestEven_error (y : R) : Rabs (IZR (nearestEven y) - y) <= 1 / 2.
Proof.
  destruct (base_Int_part y) as [Hlow Hup].
  destruct (nearestEven_cases y) as [[-> H] | [-> H]];
    [| rewrite plus_IZR]; apply Rabs_le; lra.
Qed.

Lemma nearestEven_IZR (n : Z) : nearestEven (IZR n) = n.
Proof.
  apply Z.le_antisymm; [apply nearestEven_le | apply nearestEven_ge]; lra.
Qed.

Lemma floorLog2_one : floorLog2 1 = 0%Z.
Proof.
  assert (H0 : (0 <= floorLog2 1)%Z)
    by (apply floorLog2_ge; [lra | rewrite powerRZ_O; lra]).
  assert (H1 : (floorLog2 1 < 1)%Z).
  { apply floorLog2_lt; [lra |]. rewrite bpow_one. lra. }
  lia.
Qed.

Lemma bpow_inverse (e : Z) : powerRZ 2 e * powerRZ 2 (- e) = 1.
Proof. rewrite <- bpow_add, Z.add_opp_diag_r. apply powerRZ_O. Qed.

Lemma div_bpow (x : R) (e : Z) : x / powerRZ 2 e = x * powerRZ 2 (- e).
Proof.
now rewrite powerRZ_neg'. Qed.

(** The conversion is exact on 1. *)
Lemma toFloat_one : toFloat 1 = Finite 1.
Proof.
  assert (Hr : roundFloat 1 = 1).
  { unfold roundFloat, ulpExponent. cbv zeta. rewrite floorLog2_one.
    change (Z.max (0 - 23) (-149)) with (-23)%Z.
    rewrite div_bpow, Rmult_1_l. change (- -23)%Z with 23%Z.
    rewrite (bpow_nonneg_exponent 23) by lia.
    rewrite nearestEven_IZR, <- (bpow_nonneg_exponent 23) by lia.
    apply (bpow_inverse 23). }
  unfold toFloat. unfold Reqb. destruct (Req_dec_T 1 0); [lra |].
  rewrite Hr. unfold Rgeb. destruct (Rge_dec _ _) as [Hge |]; [| reflexivity].
  rewrite Rabs_pos_eq in Hge by lra.
  assert (H : powerRZ 2 0 < powerRZ 2 128) by (apply bpow_lt; lia).
  rewrite powerRZ_O in H. lra.
Qed.

Lemma ulpExponent_small (x : R) :
  0 < x -> x < powerRZ 2 (-125) -> ulpExponent x = (-149)%Z.
Proof.
  intros Hx Hsmall. unfold ulpExponent.
  pose proof (floorLog2_lt x _ Hx Hsmall). lia.
Qed.

(** A positive number up to 2^-150, half the least positive [float], is
    converted to 0. *)
Lemma roundFloat_underflow (x : R) :
  0 < x <= powerRZ 2 (-150) -> roundFloat x = 0.
Proof.
  intros [Hx Hsmall]. unfold roundFloat. cbv zeta.
  rewrite ulpExponent_small; [| assumption |].
  - rewrite div_bpow. change (- -149)%Z with 149%Z.
    rewrite nearestEven_upto_half; [lra |].
    pose proof (bpow_pos 149) as Hp.
    assert (Hhalf : powerRZ 2 (-150) * powerRZ 2 149 = 1 / 2).
    { rewrite <- bpow_add. change (-150 + 149)%Z with (-1)%Z.
      apply bpow_minus_one. }
    split; [nra |]. rewrite <- Hhalf.
    apply Rmult_le_compat_r; lra.
  - assert (H : powerRZ 2 (-150) < powerRZ 2 (-125)) by (apply bpow_lt; lia).
    lra.
Qed.

Lemma roundFloat_negative (x : R) : x < 0 -> roundFloat x <= 0.
Proof.
  intros Hx. unfold roundFloat. cbv zeta.
  pose proof (bpow_pos (ulpExponent x)) as Hu.
  assert (Hn : (nearestEven (x / powerRZ 2 (ulpExponent x)) <= 0)%Z).
  { apply nearestEven_le. unfold Rdiv.
    pose proof (Rinv_0_lt_compat _ Hu). nra. }
  apply IZR_le in Hn. nra.
Qed.

(** A number above 2^-150 is converted to a positive number. *)
Lemma roundFloat_positive (x : R) :
  powerRZ 2 (-150) < x -> powerRZ 2 (ulpExponent x) <= roundFloat x.
Proof.
  intros Hlow. pose proof (bpow_pos (-150)) as H150.
  assert (Hx : 0 < x) by lra.
  unfold roundFloat. cbv zeta.
  pose proof (bpow_pos (ulpExponent x)) as Hu.
  assert (Hn : (1 <= nearestEven (x / powerRZ 2 (ulpExponent x)))%Z).
  { apply nearestEven_above_half. rewrite div_bpow.
    destruct (floorLog2_bounds x Hx) as [Hfl _].
    pose proof (bpow_pos (- ulpExponent x)) as Hi.
    unfold ulpExponent in *.
    destruct (Z.max_spec (floorLog2 x - 23) (-149)) as [[_ ->] | [_ ->]].
    - change (- -149)%Z with 149%Z.
      assert (Hhalf : powerRZ 2 (-150) * powerRZ 2 149 = 1 / 2).
      { rewrite <- bpow_add. change (-150 + 149)%Z with (-1)%Z.
        apply bpow_minus_one. }
      rewrite <- Hhalf. apply Rmult_lt_compat_r; [apply bpow_pos | lra].
    - assert (H23 : powerRZ 2 (floorLog2 x) * powerRZ 2 (- (floorLog2 x - 23))
                    = powerRZ 2 23).
      { rewrite <- bpow_add. f_equal. lia. }
      assert (H1 : 1 <= powerRZ 2 23).
      { rewrite <- (powerRZ_O 2). apply bpow_le. lia. }
      assert (powerRZ 2 (floorLog2 x) * powerRZ 2 (- (floorLog2 x - 23))
              <= x * powerRZ 2 (- (floorLog2 x - 23)))
        by (apply Rmult_le_compat_r; [left; apply bpow_pos | exact Hfl]).
      lra. }
  apply IZR_le in Hn. nra.
Qed.

(** Conversion does not go beyond a power of two that is itself a float
    multiple of the unit in the last place. *)
Lemma roundFloat_le_bpow (x : R) (k : Z) :
  x <= powerRZ 2 k -> (ulpExponent x <= k)%Z -> roundFloat x <= powerRZ 2 k.
Proof.
  intros Hx Hk. unfold roundFloat. cbv zeta.
  set (c := ulpExponent x) in *.
  pose proof (bpow_pos c) as Hu. pose proof (bpow_pos (- c)) as Hi.
  assert (Hn : (nearestEven (x / powerRZ 2 c) <= 2 ^ (k - c))%Z).
  { apply nearestEven_le. rewrite div_bpow.
    rewrite <- bpow_nonneg_exponent by lia.
    replace (k - c)%Z with (k + - c)%Z by lia. rewrite bpow_add.
    apply Rmult_le_compat_r; lra. }
  apply IZR_le in Hn. rewrite <- bpow_nonneg_exponent in Hn by lia.
  replace (powerRZ 2 k) with (powerRZ 2 (k - c) * powerRZ 2 c).
  - apply Rmult_le_compat_r; lra.
  - rewrite <- bpow_add. f_equal. lia.
Qed.

Lemma roundFloat_error (x : R) :
  Rabs (roundFloat x - x) <= powerRZ 2 (ulpExponent x) / 2.
Proof.
  unfold roundFloat. cbv zeta.
  set (u := powerRZ 2 (ulpExponent x)).
  assert (Hu : 0 < u) by apply bpow_pos.
  pose proof (nearestEven_error (x / u)) as Herr.
  replace (IZR (nearestEven (x / u)) * u - x)
    with ((IZR (nearestEven (x / u)) - x / u) * u) by (field; lra).
  rewrite Rabs_mult, (Rabs_pos_eq u) by lra. nra.
Qed.

(** The conversion of a number of the range of [float]. *)
Lemma toFloat_in_range (x : R) :
  powerRZ 2 (-150) < x < powerRZ 2 127 ->
  toFloat x = Finite (roundFloat x) /\
  0 < roundFloat x /\
  Rabs (roundFloat x - x)
  <= Rmax (x * powerRZ 2 (-24)) (powerRZ 2 (-150)).
Proof.
  intros [Hlow Hup]. pose proof (bpow_pos (-150)) as H150.
  assert (Hx : 0 < x) by lra.
  pose proof (roundFloat_positive x Hlow) as Hpos.
  pose proof (bpow_pos (ulpExponent x)) as Hu.
  destruct (floorLog2_bounds x Hx) as [Hfl Hfu].
  assert (Hfl150 : (-150 <= floorLog2 x)%Z)
    by (apply floorLog2_ge; lra).
  assert (Hfl127 : (floorLog2 x < 127)%Z)
    by (apply floorLog2_lt; lra).
  assert (Hle : roundFloat x <= powerRZ 2 127).
  { apply roundFloat_le_bpow; [lra |]. unfold ulpExponent. lia. }
  assert (H128 : powerRZ 2 127 < powerRZ 2 128) by (apply bpow_lt; lia).
  split; [| split; [lra |]].
  - unfold toFloat, Reqb. destruct (Req_dec_T x 0); [lra |].
    unfold Rgeb. destruct (Rge_dec _ _) as [Hge |]; [| reflexivity].
    rewrite Rabs_pos_eq in Hge by lra. lra.
  - eapply Rle_trans; [apply roundFloat_error |].
    unfold ulpExponent.
    destruct (Z.max_spec (floorLog2 x - 23) (-149)) as [[_ ->] | [_ ->]].
    + eapply Rle_trans; [| apply Rmax_r].
      change (-149)%Z with (-150 + 1)%Z. rewrite bpow_add.
      rewrite bpow_one. lra.
    + eapply Rle_trans; [| apply Rmax_l].
      replace (floorLog2 x - 23)%Z with (floorLog2 x + -24 + 1)%Z by lia.
      rewrite !bpow_add. rewrite bpow_one.
      pose proof (bpow_pos (-24)). nra.
Qed.

(** The conversion of a number that is not above 2^-150: it is not
    positive. *)
Lemma toFloat_not_positive (x : R) :
  x <= powerRZ 2 (-150) ->
  toFloat x = NegInfinity \/ exists m : R, toFloat x = Finite m /\ m <= 0.
Proof.
  intros Hx. unfold toFloat, Reqb.
  destruct (Req_dec_T x 0) as [-> | Hne]; [right; exists 0; split; [reflexivity | lra] |].
  destruct (Rlt_dec x 0) as [Hneg | Hpos].
  - unfold Rgeb, Rltb. destruct (Rge_dec _ _); destruct (Rlt_dec x 0); try lra.
    + now left.
    + right. eexists. split; [reflexivity |]. now apply roundFloat_negative.
  - rewrite roundFloat_underflow by lra.
    rewrite Rabs_R0. unfold Rgeb.
    destruct (Rge_dec _ _) as [Hge |].
    + pose proof (bpow_pos 128). lra.
    + right. exists 0. split; [reflexivity | lra].
Qed.

Lemma toFloat_unit (x : R) :
  powerRZ 2 (-150) < x <= 1 ->
  exists m : R, toFloat x = Finite m /\ 0 < m <= 1.
Proof.
  intros [Hlow Hup]. pose proof (bpow_pos (-150)) as H150.
  assert (H127 : 1 < powerRZ 2 127).
  { rewrite <- (powerRZ_O 2). apply bpow_lt. lia. }
  destruct (toFloat_in_range x) as (Hto & Hpos & _); [lra |].
  exists (roundFloat x). split; [assumption |]. split; [assumption |].
  rewrite <- (powerRZ_O 2). apply roundFloat_le_bpow.
  - rewrite powerRZ_O. lra.
  - assert (Hfl : (floorLog2 x < 1)%Z).
    { apply floorLog2_lt; [lra |]. rewrite bpow_one. lra. }
    unfold ulpExponent. lia.
Qed.

(** *** The phase factor *)

Lemma pow_negative (x y : R) : x < 0 -> pow x y = None.
Proof.
  intros Hx. unfold pow, Rltb. destruct (Rlt_dec x 0); [reflexivity | lra].
Qed.

Lemma pow_zero (y : R) : pow 0 y = Some 0.
Proof.
  unfold pow, Rltb, Reqb. destruct (Rlt_dec 0 0); [lra |].
  destruct (Req_dec_T 0 0); [reflexivity | lra].
Qed.

Lemma pow_positive (x y : R) : 0 < x -> pow x y = Some (Rpower x y).
Proof.
  intros Hx. unfold pow, Rltb, Reqb. destruct (Rlt_dec x 0); [lra |].
  destruct (Req_dec_T x 0); [lra | reflexivity].
Qed.

Lemma pow_one (y : R) : pow 1 y = Some 1.
Proof.
  rewrite pow_positive by lra.
  unfold Rpower. now rewrite ln_1, Rmult_0_r, exp_0.
Qed.

Lemma phaseFactor_negative (phase g : R) :
  tan (phase / 2) < 0 -> phaseFactor phase g = None.
Proof.
  intros Ht. unfold phaseFactor.
  replace (phase / 2.0) with (phase / 2) by lra.
  now rewrite pow_negative.
Qed.

Lemma phaseFactor_defined (phase g : R) :
  0 <= tan (phase / 2) -> exists f : R, phaseFactor phase g = Some f.
Proof.
  intros Ht. unfold phaseFactor.
  replace (phase / 2.0) with (phase / 2) by lra.
  destruct Ht as [Hpos | <-].
  - rewrite !pow_positive by assumption. eexists. reflexivity.
  - rewrite !pow_zero. eexists. reflexivity.
Qed.

Lemma phaseFactor_full_phase (g : R) : phaseFactor 0 g = Some 1.
Proof.
  unfold phaseFactor. replace (0 / 2.0) with 0 by lra.
  rewrite tan_0, !pow_zero. cbv zeta. rewrite !Rmult_0_r, exp_0.
  f_equal. lra.
Qed.

(** The magnitude in terms of the phase factor. *)
Lemma computeAsteroidMagnitude_factor (rad dist phase h g : R) :
  computeAsteroidMagnitude rad dist phase h g =
  match phaseFactor phase g with
  | Some f =>
      match toFloat f with
      | Finite mag =>
          if Rgtb mag 0
          then Finite (h + 5 * log10 (rad * dist) - 2.5 * log10 mag)
          else HUGE_VAL
      | PosInfinity => NegInfinity
      | NegInfinity => HUGE_VAL
      end
  | None => HUGE_VAL
  end.
Proof.
  unfold computeAsteroidMagnitude, phaseFactor.
  destruct (pow _ 0.63); [| reflexivity].
  destruct (pow _ 1.22); [| reflexivity].
  cbv zeta. destruct (toFloat _); try reflexivity.
  replace 0.0 with 0 by lra. destruct (Rgtb r1 0); [| reflexivity].
  f_equal. lra.
Qed.

Lemma computeAsteroidMagnitude_underflow (rad dist phase h g f : R) :
  phaseFactor phase g = Some f -> f <= powerRZ 2 (-150) ->
  computeAsteroidMagnitude rad dist phase h g = HUGE_VAL.
Proof.
  intros Hf Hsmall. rewrite computeAsteroidMagnitude_factor, Hf.
  destruct (toFloat_not_positive f Hsmall) as [-> | [m [-> Hm]]];
    [reflexivity |].
  now rewrite (proj2 (Rgtb_false_iff m 0)).
Qed.

Lemma computeAsteroidMagnitude_in_range (rad dist phase h g f : R) :
  phaseFactor phase g = Some f ->
  powerRZ 2 (-150) < f < powerRZ 2 127 ->
  exists mag : R,
    toFloat f = Finite mag /\ 0 < mag /\
    Rabs (mag - f) <= Rmax (f * powerRZ 2 (-24)) (powerRZ 2 (-150)) /\
    computeAsteroidMagnitude rad dist phase h g
    = Finite (h + 5 * log10 (rad * dist) - 2.5 * log10 mag).
Proof.
  intros Hf Hrange.
  destruct (toFloat_in_range f Hrange) as (Hto & Hpos & Herr).
  exists (roundFloat f). repeat (split; [assumption |]).
  rewrite computeAsteroidMagnitude_factor, Hf, Hto.
  now rewrite (proj2 (Rgtb_true_iff _ 0)).
Qed.

(** C10.  [computeAsteroidMagnitude] returns the sentinel [HUGE_VAL] when
    tan (phase / 2) is negative (the powers, and so the phase factor, are not
    numbers).  Otherwise the phase factor of the H-G model is a number f, and
    the function tests it in single precision: it returns [HUGE_VAL] when f is
    at most 2^-150, which holds when f <= 0 and also when f is positive and
    rounds to 0; and when f is above 2^-150 and below 2^127, and the distances
    are positive, it returns h + 5 log10 (rad dist) - 2.5 log10 mag, where
    mag is f in single precision, a positive number within f 2^-24 of f, or
    within 2^-150 of it where that is larger. *)
Theorem C10_computeAsteroidMagnitude_cases (rad dist phase h g : R) :
  (tan (phase / 2) < 0 ->
   computeAsteroidMagnitude rad dist phase h g = HUGE_VAL) /\
  (0 <= tan (phase / 2) ->
   exists f : R,
     phaseFactor phase g = Some f /\
     (f <= powerRZ 2 (-150) ->
      computeAsteroidMagnitude rad dist phase h g = HUGE_VAL) /\
     (powerRZ 2 (-150) < f < powerRZ 2 127 -> 0 < rad * dist ->
      exists mag : R,
        toFloat f = Finite mag /\ 0 < mag /\
        Rabs (mag - f) <= Rmax (f * powerRZ 2 (-24)) (powerRZ 2 (-150)) /\
        computeAsteroidMagnitude rad dist phase h g
        = Finite (h + 5 * log10 (rad * dist) - 2.5 * log10 mag))).
Proof.
  split.
  - intros Hneg.
    now rewrite computeAsteroidMagnitude_factor, phaseFactor_negative.
  - intros Hpos. destruct (phaseFactor_defined phase g Hpos) as [f Hf].
    exists f. split; [exact Hf |]. split.
    + now apply computeAsteroidMagnitude_underflow.
    + intros Hrange _. now apply computeAsteroidMagnitude_in_range.
Qed.

(** *** Bounds of the phase factor *)

Lemma exp_le_mono (x y : R) : x <= y -> exp x <= exp y.
Proof.
  intros [Hlt | ->]; [left; now apply exp_increasing | lra].
Qed.

Lemma ln2_upper : ln 2 < 0.71.
Proof.
  assert (Hdouble : forall x : R, exp (2 * x) = exp x * exp x).
  { intros x. replace (2 * x) with (x + x) by lra. apply exp_plus. }
  assert (H1 : 1 + 0.044375 < exp 0.044375) by (apply exp_ineq1; lra).
  assert (H2 : 1.0907 < exp (2 * 0.044375)) by (rewrite Hdouble; nra).
  assert (H4 : 1.1896 < exp (2 * (2 * 0.044375))) by (rewrite Hdouble; nra).
  assert (H8 : 1.4151 < exp (2 * (2 * (2 * 0.044375))))
    by (rewrite Hdouble; nra).
  assert (H16 : 2 < exp (2 * (2 * (2 * (2 * 0.044375)))))
    by (rewrite Hdouble; nra).
  replace (2 * (2 * (2 * (2 * 0.044375)))) with 0.71 in H16 by lra.
  apply exp_lt_inv. rewrite exp_ln by lra. exact H16.
Qed.

(** The least power of two above which a factor is kept is below
    exp (-54) and above exp (-106.5). *)
Lemma bpow_150_bounds :
  exp (- 106.5) < powerRZ 2 (-150) < exp (- 54).
Proof.
  rewrite bpow_exp. pose proof ln_lt_2. pose proof ln2_upper.
  split; apply exp_increasing; lra.
Qed.

Lemma Rpower_upto_4 (x y : R) :
  0 < x <= 4 -> 0 <= y <= 2 -> Rpower x y <= 16.
Proof.
  intros Hx Hy.
  apply Rle_trans with (Rpower 4 y); [now apply Rle_Rpower_l |].
  apply Rle_trans with (Rpower 4 2); [apply Rle_Rpower; lra |].
  replace (Rpower 4 2) with (Rpower 4 (INR 2)) by (f_equal; simpl; lra).
  rewrite Rpower_pow by lra. simpl. lra.
Qed.

Lemma Rpower_from_256 (x y : R) :
  256 <= x -> 0.625 <= y -> 32 <= Rpower x y.
Proof.
  intros Hx Hy.
  assert (H256 : ln 256 = 8 * ln 2).
  { replace 256 with (2 ^ 8) by lra. rewrite ln_pow by lra. simpl. lra. }
  assert (H32 : exp (5 * ln 2) = 32).
  { rewrite <- (bpow_exp 5). unfold powerRZ. simpl. lra. }
  rewrite <- H32. unfold Rpower. apply exp_le_mono.
  assert (Hln : ln 256 <= ln x).
  { destruct Hx as [Hlt | <-]; [left; apply ln_increasing; lra | lra]. }
  pose proof ln2_pos. nra.
Qed.

(** For a slope parameter between 0 and 1 the factor is a mean of the two
    phase functions. *)
Lemma phaseFactor_mean (phase g : R) :
  0 <= g <= 1 -> 0 <= tan (phase / 2) ->
  exists t1 t2 : R,
    pow (tan (phase / 2)) 0.63 = Some t1 /\
    pow (tan (phase / 2)) 1.22 = Some t2 /\
    phaseFactor phase g
    = Some ((1 - g) * exp (- 3.33 * t1) + g * exp (- 1.87 * t2)).
Proof.
  intros Hg Ht. unfold phaseFactor.
  replace (phase / 2.0) with (phase / 2) by lra.
  destruct Ht as [Hpos | <-].
  - rewrite !pow_positive by assumption. do 2 eexists.
    repeat split. cbv zeta. f_equal. lra.
  - rewrite !pow_zero. do 2 eexists. repeat split. cbv zeta. f_equal. lra.
Qed.

Lemma phaseFactor_moderate (phase g : R) :
  0 <= g <= 1 -> 0 <= tan (phase / 2) <= 4 ->
  exists f : R, phaseFactor phase g = Some f /\ exp (- 54) <= f <= 1.
Proof.
  intros Hg [Ht0 Ht4].
  assert (Hpow : forall y : R, 0 <= y <= 2 ->
             exists t : R, pow (tan (phase / 2)) y = Some t /\ 0 <= t <= 16).
  { intros y Hy. destruct Ht0 as [Hpos | <-].
    - rewrite pow_positive by assumption. eexists. split; [reflexivity |].
      split; [left; apply exp_pos | apply Rpower_upto_4; lra].
    - rewrite pow_zero. exists 0. split; [reflexivity | lra]. }
  destruct (Hpow 0.63) as [t1 [H1 Hb1]]; [lra |].
  destruct (Hpow 1.22) as [t2 [H2 Hb2]]; [lra |].
  destruct (phaseFactor_mean phase g Hg Ht0) as (u1 & u2 & Hu1 & Hu2 & ->).
  rewrite H1 in Hu1. rewrite H2 in Hu2.
  injection Hu1 as <-. injection Hu2 as <-.
  eexists. split; [reflexivity |].
  assert (Hl1 : exp (- 54) <= exp (- 3.33 * t1)) by (apply exp_le_mono; lra).
  assert (Hl2 : exp (- 54) <= exp (- 1.87 * t2)) by (apply exp_le_mono; lra).
  assert (Hu1 : exp (- 3.33 * t1) <= 1)
    by (rewrite <- exp_0; apply exp_le_mono; lra).
  assert (Hu2 : exp (- 1.87 * t2) <= 1)
    by (rewrite <- exp_0; apply exp_le_mono; lra).
  split; nra.
Qed.

Lemma phaseFactor_near_pi (phase g : R) :
  0 <= g <= 1 -> 256 <= tan (phase / 2) ->
  exists f : R, phaseFactor phase g = Some f /\ 0 < f <= exp (- 106.5).
Proof.
  intros Hg Ht.
  destruct (phaseFactor_mean phase g Hg) as (t1 & t2 & H1 & H2 & ->); [lra |].
  rewrite pow_positive in H1, H2 by lra.
  injection H1 as <-. injection H2 as <-.
  eexists. split; [reflexivity |].
  pose proof (Rpower_from_256 (tan (phase / 2)) 0.63 Ht ltac:(lra)) as Hp1.
  assert (Hp2 : 256 <= Rpower (tan (phase / 2)) 1.22).
  { apply Rle_trans with (Rpower (tan (phase / 2)) 1).
    - rewrite Rpower_1; lra.
    - apply Rle_Rpower; lra. }
  set (t1 := Rpower _ 0.63) in *. set (t2 := Rpower _ 1.22) in *.
  assert (Hl1 : exp (- 3.33 * t1) <= exp (- 106.5))
    by (apply exp_le_mono; lra).
  assert (Hl2 : exp (- 1.87 * t2) <= exp (- 106.5))
    by (apply exp_le_mono; lra).
  pose proof (exp_pos (- 3.33 * t1)). pose proof (exp_pos (- 1.87 * t2)).
  split; [| nra].
  destruct (Rle_dec g (1 / 2)); nra.
Qed.

Lemma tan_half_of_twice_atan (x : R) : tan (2 * atan x / 2) = x.
Proof. replace (2 * atan x / 2) with (atan x) by lra. apply tan_atan. Qed.

Lemma tan_minus_quarter : tan (- (PI / 2) / 2) = -1.
Proof.
  replace (- (PI / 2) / 2) with (- (PI / 4)) by lra.
  rewrite tan_neg, tan_PI4. reflexivity.
Qed.

Lemma one_in_float_range : powerRZ 2 (-150) < 1 < powerRZ 2 127.
Proof.
  pose proof (bpow_lt (-150) 0 ltac:(lia)) as Hlow.
  pose proof (bpow_lt 0 127 ltac:(lia)) as Hup.
  rewrite powerRZ_O in Hlow, Hup. split; assumption.
Qed.

(** At quadrature with the slope parameter -1 the factor is negative. *)
Lemma phaseFactor_quadrature_negative :
  exists f : R, phaseFactor (PI / 2) (-1) = Some f /\ f <= 0.
Proof.
  unfold phaseFactor. replace (PI / 2 / 2.0) with (PI / 4) by lra.
  rewrite tan_PI4, !pow_one. cbv zeta.
  eexists. split; [reflexivity |].
  replace (- 1.87 * 1) with (- 3.33 * 1 + 1.46) by lra.
  rewrite exp_plus.
  pose proof (exp_pos (- 3.33 * 1)) as Hpos.
  assert (Hexp : 1 + 1.46 < exp 1.46) by (apply exp_ineq1; lra).
  nra.
Qed.

Lemma C10_witness :
  computeAsteroidMagnitude 1 1 (- (PI / 2)) 0 0.15 = HUGE_VAL /\
  computeAsteroidMagnitude 1 1 (PI / 2) 0 (-1) = HUGE_VAL /\
  computeAsteroidMagnitude 1 1 (2 * atan 256) 0 0.15 = HUGE_VAL /\
  exists mag : R,
    toFloat 1 = Finite mag /\ 0 < mag /\
    computeAsteroidMagnitude 1 1 0 0 0.15
    = Finite (0 + 5 * log10 (1 * 1) - 2.5 * log10 mag).
Proof.
  split; [| split; [| split]].
  - apply (proj1 (C10_computeAsteroidMagnitude_cases 1 1 (- (PI / 2)) 0 0.15)).
    rewrite tan_minus_quarter. lra.
  - destruct (proj2 (C10_computeAsteroidMagnitude_cases 1 1 (PI / 2) 0 (-1)))
      as [f [Hf [Hunder _]]].
    + replace (PI / 2 / 2) with (PI / 4) by lra. rewrite tan_PI4. lra.
    + apply Hunder.
      destruct phaseFactor_quadrature_negative as [f' [Hf' Hneg]].
      rewrite Hf in Hf'. injection Hf' as <-.
      pose proof (bpow_pos (-150)). lra.
  - destruct (proj2 (C10_computeAsteroidMagnitude_cases
                       1 1 (2 * atan 256) 0 0.15))
      as [f [Hf [Hunder _]]].
    + rewrite tan_half_of_twice_atan. lra.
    + apply Hunder.
      destruct (phaseFactor_near_pi (2 * atan 256) 0.15) as [f' [Hf' Hb]];
        [lra | rewrite tan_half_of_twice_atan; lra |].
      rewrite Hf in Hf'. injection Hf' as <-.
      pose proof bpow_150_bounds. lra.
  - destruct (proj2 (C10_computeAsteroidMagnitude_cases 1 1 0 0 0.15))
      as [f [Hf [_ Hin]]].
    + replace (0 / 2) with 0 by lra. rewrite tan_0. lra.
    + rewrite phaseFactor_full_phase in Hf. injection Hf as <-.
      destruct Hin as (mag & Hto & Hpos & _ & Hval);
        [exact one_in_float_range | lra |].
      exists mag. repeat split; assumption.
Defined.

(** C10, the claim as it reads.  At the phase angle 2 atan 256, about 0.45
    degree short of PI, with the slope parameter 0.15, the phase factor is
    positive, yet the function returns [HUGE_VAL] and not
    h + 5 log10 (rad dist) - 2.5 log10 of the factor: the factor is below
    2^-150 and [float mag] is 0. *)
Lemma C10_counterexample :
  exists f : R,
    phaseFactor (2 * atan 256) 0.15 = Some f /\
    0 < f /\
    computeAsteroidMagnitude 1 1 (2 * atan 256) 7 0.15 = HUGE_VAL /\
    computeAsteroidMagnitude 1 1 (2 * atan 256) 7 0.15
    <> Finite (7 + 5 * log10 (1 * 1) - 2.5 * log10 f).
Proof.
  destruct (phaseFactor_near_pi (2 * atan 256) 0.15) as [f [Hf Hb]];
    [lra | rewrite tan_half_of_twice_atan; lra |].
  assert (Hval : computeAsteroidMagnitude 1 1 (2 * atan 256) 7 0.15
                 = HUGE_VAL).
  { apply (computeAsteroidMagnitude_underflow _ _ _ _ _ f Hf).
    pose proof bpow_150_bounds. lra. }
  exists f. split; [exact Hf |]. split; [lra |]. split; [exact Hval |].
  rewrite Hval. discriminate.
Qed.

(** ** The step of the sweep *)

Lemma kDegPerRad_lower : 45 <= kDegPerRad.
Proof.
  unfold kDegPerRad.
  pose proof PI_RGT_0 as Hpos. pose proof PI_4 as H4.
  apply Rmult_le_reg_r with PI; [lra |].
  replace (180 / PI * PI) with 180 by (field; lra).
  lra.
Qed.

(** For every altitude a horizon frame can give, the sweep steps by one
    second: the quantity compared with the altitude is -kDegPerRad radians. *)
Lemma sweepStep_one_second (hor_lat : R) :
  - (PI / 2) <= hor_lat -> sweepStep hor_lat = 1 / kSecondsPerDay.
Proof.
  intros H. unfold sweepStep.
  pose proof kDegPerRad_lower. pose proof PI_4.
  decide_cmp. lra.
Qed.

(** C2.  With the satellite 10 degrees below the horizon, which is not above
    1 degree below the horizon, the sweep still takes the 1-second step and
    not the 1-minute step. *)
Theorem C2_sweepStep_ten_degrees_below :
  ~ (- (10 * kRadPerDeg) > - (1 * kRadPerDeg)) /\
  sweepStep (- (10 * kRadPerDeg)) = 1 / kSecondsPerDay /\
  sweepStep (- (10 * kRadPerDeg)) <> 1 / kMinutesPerDay.
Proof.
  assert (Hstep : sweepStep (- (10 * kRadPerDeg)) = 1 / kSecondsPerDay).
  { apply sweepStep_one_second. unfold kRadPerDeg.
    pose proof PI_RGT_0. lra. }
  repeat split.
  - unfold kRadPerDeg. pose proof PI_RGT_0. lra.
  - exact Hstep.
  - rewrite Hstep. unfold kSecondsPerDay, kMinutesPerDay. lra.
Qed.

Section EventProperties.

Context {E : Collaborators}.

(** ** [semiDiurnalArc] *)

Lemma semiDiurnalArc_never_rises (lat dec alt : R) :
  cosHourAngle lat dec alt >= 1 -> semiDiurnalArc lat dec alt = 0.
Proof.
  unfold semiDiurnalArc, cosHourAngle. cbv zeta. intros H.
  decide_cmp. lra.
Qed.

Lemma semiDiurnalArc_never_sets (lat dec alt : R) :
  cosHourAngle lat dec alt <= -1 -> semiDiurnalArc lat dec alt = PI.
Proof.
  unfold semiDiurnalArc, cosHourAngle. cbv zeta. intros H.
  now decide_cmp.
Qed.

Lemma semiDiurnalArc_crosses (lat dec alt : R) :
  -1 < cosHourAngle lat dec alt < 1 ->
  semiDiurnalArc lat dec alt = acos (cosHourAngle lat dec alt).
Proof.
  unfold semiDiurnalArc, cosHourAngle. cbv zeta. intros H.
  now decide_cmp.
Qed.

(** The arc is 0 only for an object that never rises and PI only for one
    that never sets. *)
Lemma semiDiurnalArc_zero_iff (lat dec alt : R) :
  semiDiurnalArc lat dec alt = 0 <-> cosHourAngle lat dec alt >= 1.
Proof.
  split; [| apply semiDiurnalArc_never_rises].
  intros H.
  destruct (Rge_dec (cosHourAngle lat dec alt) 1) as [|Hlt]; [assumption |].
  exfalso. pose proof PI_RGT_0.
  destruct (Rle_dec (cosHourAngle lat dec alt) (-1)) as [Hle|Hgt].
  - rewrite semiDiurnalArc_never_sets in H by assumption. lra.
  - rewrite semiDiurnalArc_crosses in H by lra.
    pose proof (acos_bound_lt (cosHourAngle lat dec alt)). lra.
Qed.

Lemma semiDiurnalArc_pi_iff (lat dec alt : R) :
  semiDiurnalArc lat dec alt = PI <-> cosHourAngle lat dec alt <= -1.
Proof.
  split; [| apply semiDiurnalArc_never_sets].
  intros H.
  destruct (Rle_dec (cosHourAngle lat dec alt) (-1)) as [|Hgt]; [assumption |].
  exfalso. pose proof PI_RGT_0.
  destruct (Rge_dec (cosHourAngle lat dec alt) 1) as [Hge|Hlt].
  - rewrite semiDiurnalArc_never_rises in H by assumption. lra.
  - rewrite semiDiurnalArc_crosses in H by lra.
    pose proof (acos_bound_lt (cosHourAngle lat dec alt)). lra.
Qed.

(** C6.  With c the cosine of the hour angle at the horizon altitude,
    [semiDiurnalArc] is 0 when c >= 1, PI when c <= -1, and otherwise
    arccos c, which lies between 0 and PI. *)
Theorem C6_semiDiurnalArc_cases (lat dec alt : R) :
  (cosHourAngle lat dec alt >= 1 -> semiDiurnalArc lat dec alt = 0) /\
  (cosHourAngle lat dec alt <= -1 -> semiDiurnalArc lat dec alt = PI) /\
  (~ cosHourAngle lat dec alt >= 1 -> ~ cosHourAngle lat dec alt <= -1 ->
   semiDiurnalArc lat dec alt = acos (cosHourAngle lat dec alt) /\
   0 <= semiDiurnalArc lat dec alt <= PI).
Proof.
  split; [apply semiDiurnalArc_never_rises |].
  split; [apply semiDiurnalArc_never_sets |].
  intros H1 H2.
  rewrite semiDiurnalArc_crosses by lra.
  split; [reflexivity | apply acos_bound].
Qed.

(** Three directions seen from the equator, for an object on the celestial
    equator: the zenith, the nadir and the horizon. *)
Lemma cosHourAngle_zenith : cosHourAngle 0 0 (PI / 2) = 1.
Proof.
  unfold cosHourAngle. rewrite sin_PI2, sin_0, cos_0. field.
Qed.

Lemma cosHourAngle_nadir : cosHourAngle 0 0 (- (PI / 2)) = -1.
Proof.
  unfold cosHourAngle. rewrite sin_neg, sin_PI2, sin_0, cos_0. field.
Qed.

Lemma cosHourAngle_horizon : cosHourAngle 0 0 0 = 0.
Proof.
  unfold cosHourAngle. rewrite sin_0, cos_0. field.
Qed.

Lemma semiDiurnalArc_horizon : semiDiurnalArc 0 0 0 = PI / 2.
Proof.
  rewrite semiDiurnalArc_crosses; rewrite cosHourAngle_horizon.
  - apply acos_0.
  - lra.
Qed.

(** ** [riseTransitSet] *)

Lemma riseTransitSet_arc_pi (time ra dec : R) (sign : Z) (lon lat alt : R) :
  semiDiurnalArc lat dec alt = kPi -> sign <> 0%Z ->
  riseTransitSet time ra dec sign lon lat alt = PosInfinity.
Proof.
  intros Harc Hsign. unfold riseTransitSet. cbv zeta.
  rewrite Harc, (proj2 (Reqb_true_iff _ _)) by reflexivity.
  apply Z.eqb_neq in Hsign. now rewrite Hsign.
Qed.

Lemma riseTransitSet_arc_zero (time ra dec : R) (sign : Z) (lon lat alt : R) :
  semiDiurnalArc lat dec alt = 0 ->
  riseTransitSet time ra dec sign lon lat alt = NegInfinity.
Proof.
  intros Harc. unfold riseTransitSet. cbv zeta.
  rewrite Harc. unfold kPi. pose proof PI_RGT_0.
  now decide_cmp.
Qed.

(** The value in the remaining case. *)
Lemma riseTransitSet_finite (time ra dec : R) (sign : Z) (lon lat alt : R) :
  semiDiurnalArc lat dec alt <> 0 ->
  (semiDiurnalArc lat dec alt <> kPi \/ sign = 0%Z) ->
  riseTransitSet time ra dec sign lon lat alt =
  Finite (time +
          modPi (ra - getSiderealTime time lon
                 + IZR sign * semiDiurnalArc lat dec alt)
          / kTwoPi / kSiderealPerSolarDays).
Proof.
  intros H0 Hpi. unfold riseTransitSet. cbv zeta.
  rewrite (proj2 (Reqb_false_iff _ 0.0)) by lra.
  destruct Hpi as [Hpi | ->].
  - now rewrite (proj2 (Reqb_false_iff _ kPi)) by assumption.
  - now rewrite andb_false_r.
Qed.

(** C7.  When the semi-diurnal arc is PI and the sign is not 0 the result is
    +infinity; when the arc is 0 the result is -infinity.  So an object that
    never sets, asked for its setting, gives +infinity, and an object that
    never rises, asked for its rising, gives -infinity. *)
Theorem C7_riseTransitSet_sentinels
    (time ra dec : R) (sign : Z) (lon lat alt : R) :
  (semiDiurnalArc lat dec alt = kPi -> sign <> 0%Z ->
   riseTransitSet time ra dec sign lon lat alt = PosInfinity) /\
  (semiDiurnalArc lat dec alt = 0 ->
   riseTransitSet time ra dec sign lon lat alt = NegInfinity) /\
  (cosHourAngle lat dec alt <= -1 -> sign = 1%Z ->
   riseTransitSet time ra dec sign lon lat alt = PosInfinity) /\
  (cosHourAngle lat dec alt >= 1 -> sign = (-1)%Z ->
   riseTransitSet time ra dec sign lon lat alt = NegInfinity).
Proof.
  split; [apply riseTransitSet_arc_pi |].
  split; [apply riseTransitSet_arc_zero |].
  split.
  - intros Hc ->. apply riseTransitSet_arc_pi; [| discriminate].
    now apply semiDiurnalArc_never_sets.
  - intros Hc _. apply riseTransitSet_arc_zero.
    now apply semiDiurnalArc_never_rises.
Qed.

End EventProperties.

Lemma C6_witness :
  semiDiurnalArc 0 0 (PI / 2) = 0 /\
  semiDiurnalArc 0 0 (- (PI / 2)) = PI /\
  semiDiurnalArc 0 0 0 = acos (cosHourAngle 0 0 0) /\
  0 <= semiDiurnalArc 0 0 0 <= PI.
Proof.
  split; [| split].
  - apply (proj1 (C6_semiDiurnalArc_cases 0 0 (PI / 2))).
    rewrite cosHourAngle_zenith. lra.
  - apply (proj1 (proj2 (C6_semiDiurnalArc_cases 0 0 (- (PI / 2))))).
    rewrite cosHourAngle_nadir. lra.
  - apply (proj2 (proj2 (C6_semiDiurnalArc_cases 0 0 0)));
      rewrite cosHourAngle_horizon; lra.
Defined.

Lemma C7_witness :
  @riseTransitSet starSky 0 0 0 (-1) 0 0 (- (PI / 2)) = PosInfinity /\
  @riseTransitSet starSky 0 0 0 0 0 0 (PI / 2) = NegInfinity /\
  @riseTransitSet starSky 0 0 0 1 0 0 (- (PI / 2)) = PosInfinity /\
  @riseTransitSet starSky 0 0 0 (-1) 0 0 (PI / 2) = NegInfinity.
Proof.
  split; [| split; [| split]].
  - apply (proj1 (@C7_riseTransitSet_sentinels starSky
                    0 0 0 (-1) 0 0 (- (PI / 2)))).
    + apply semiDiurnalArc_never_sets. rewrite cosHourAngle_nadir. lra.
    + discriminate.
  - apply (proj1 (proj2 (@C7_riseTransitSet_sentinels starSky
                           0 0 0 0 0 0 (PI / 2)))).
    apply semiDiurnalArc_never_rises. rewrite cosHourAngle_zenith. lra.
  - apply (proj1 (proj2 (proj2 (@C7_riseTransitSet_sentinels starSky
                                  0 0 0 1 0 0 (- (PI / 2)))))).
    + rewrite cosHourAngle_nadir. lra.
    + reflexivity.
  - apply (proj2 (proj2 (proj2 (@C7_riseTransitSet_sentinels starSky
                                  0 0 0 (-1) 0 0 (PI / 2))))).
    + rewrite cosHourAngle_zenith. lra.
    + reflexivity.
Defined.

(** ** The transit time *)

(** C3, as the code has it.  For sign = 0 [riseTransitSet] returns -infinity
    when the semi-diurnal arc at the horizon altitude is 0 (the object never
    comes up to that altitude).  Otherwise it returns a finite time; at that
    time the hour angle of the object (local sidereal time minus right
    ascension) is a whole number of turns, as soon as sidereal time advances
    by kTwoPi * kSiderealPerSolarDays per day and [modPi] changes its argument
    by whole turns; and the time is the same for every other horizon altitude
    whose arc is not 0. *)
Theorem C3_transit_of_rising_object
    {E : Collaborators} (time ra dec lon lat alt : R) :
  (forall x : R, exists n : Z, modPi x = x + kTwoPi * IZR n) ->
  (forall t d l : R, exists n : Z,
      getSiderealTime (t + d) l =
      getSiderealTime t l + kTwoPi * kSiderealPerSolarDays * d
      + kTwoPi * IZR n) ->
  (semiDiurnalArc lat dec alt = 0 ->
   riseTransitSet time ra dec 0 lon lat alt = NegInfinity) /\
  (semiDiurnalArc lat dec alt <> 0 ->
   exists t : R,
     riseTransitSet time ra dec 0 lon lat alt = Finite t /\
     (exists n : Z, getSiderealTime t lon - ra = kTwoPi * IZR n) /\
     (forall alt' : R,
         semiDiurnalArc lat dec alt' <> 0 ->
         riseTransitSet time ra dec 0 lon lat alt' = Finite t)).
Proof.
  intros HmodPi Hrate.
  split; [apply riseTransitSet_arc_zero |].
  intros Harc.
  set (theta := modPi (ra - getSiderealTime time lon)).
  exists (time + theta / kTwoPi / kSiderealPerSolarDays).
  assert (Hvalue : forall a : R,
             semiDiurnalArc lat dec a <> 0 ->
             riseTransitSet time ra dec 0 lon lat a =
             Finite (time + theta / kTwoPi / kSiderealPerSolarDays)).
  { intros a Ha. rewrite riseTransitSet_finite by auto.
    unfold theta. do 4 f_equal. f_equal. lra. }
  split; [now apply Hvalue |].
  split; [| exact Hvalue].
  destruct (HmodPi (ra - getSiderealTime time lon)) as [n1 Hn1].
  destruct (Hrate time (theta / kTwoPi / kSiderealPerSolarDays) lon)
    as [n2 Hn2].
  exists (n1 + n2)%Z.
  rewrite Hn2, plus_IZR.
  fold theta in Hn1.
  replace (kTwoPi * kSiderealPerSolarDays
           * (theta / kTwoPi / kSiderealPerSolarDays)) with theta.
  - rewrite Hn1. lra.
  - unfold kTwoPi, kSiderealPerSolarDays. pose proof PI_RGT_0.
    field. lra.
Qed.

(** An object at declination -60 degrees seen from latitude +60 degrees
    never comes up to the horizon; it stays above the nadir. *)
Lemma cosHourAngle_far_south : cosHourAngle (PI / 3) (- (PI / 3)) 0 = 3.
Proof.
  unfold cosHourAngle.
  rewrite sin_0, sin_neg, cos_neg, sin_PI3, cos_PI3.
  assert (H : sqrt 3 * sqrt 3 = 3) by (apply sqrt_sqrt; lra).
  field_simplify. rewrite <- Rsqr_pow2. unfold Rsqr. rewrite H. lra.
Qed.

Lemma cosHourAngle_far_south_nadir :
  cosHourAngle (PI / 3) (- (PI / 3)) (- (PI / 2)) = -1.
Proof.
  unfold cosHourAngle.
  rewrite !sin_neg, cos_neg, sin_PI2, sin_PI3, cos_PI3.
  assert (H : sqrt 3 * sqrt 3 = 3) by (apply sqrt_sqrt; lra).
  field_simplify. rewrite <- Rsqr_pow2. unfold Rsqr. rewrite H. lra.
Qed.

(** [modPiModel] changes its argument by whole turns and leaves the angles
    from -PI (excluded) to PI alone. *)
Lemma modPiModel_turns (x : R) :
  exists n : Z, modPiModel x = x + kTwoPi * IZR n.
Proof.
  unfold modPiModel. cbv zeta.
  destruct (Rgtb _ _).
  - exists (- Int_part (x / kTwoPi) - 1)%Z.
    rewrite minus_IZR, opp_IZR. lra.
  - exists (- Int_part (x / kTwoPi))%Z.
    rewrite opp_IZR. lra.
Qed.

Lemma Int_part_unit (r : R) : 0 <= r < 1 -> Int_part r = 0%Z.
Proof.
  intros H. unfold Int_part.
  rewrite <- (tech_up r 1); [reflexivity | lra | lra].
Qed.

Lemma Int_part_neg_unit (r : R) : -1 <= r < 0 -> Int_part r = (-1)%Z.
Proof.
  intros H. unfold Int_part.
  rewrite <- (tech_up r 0); [reflexivity | lra | lra].
Qed.

Lemma modPiModel_id (x : R) : - PI < x <= PI -> modPiModel x = x.
Proof.
  intros H. unfold modPiModel, kTwoPi, kPi. cbv zeta.
  pose proof PI_RGT_0 as Hpi.
  assert (Hq : x / (2 * PI) * (2 * PI) = x) by (field; lra).
  destruct (Rle_dec 0 x) as [Hx | Hx].
  - rewrite Int_part_unit.
    + decide_cmp. lra.
    + split.
      * apply Rmult_le_reg_r with (2 * PI); [lra |]. rewrite Hq. lra.
      * apply Rmult_lt_reg_r with (2 * PI); [lra |]. rewrite Hq. lra.
  - rewrite Int_part_neg_unit.
    + decide_cmp. lra.
    + split.
      * apply Rmult_le_reg_r with (2 * PI); [lra |]. rewrite Hq. lra.
      * apply Rmult_lt_reg_r with (2 * PI); [lra |]. rewrite Hq. lra.
Qed.

Lemma siderealModel_rate (t d l : R) :
  exists n : Z,
    siderealModel (t + d) l =
    siderealModel t l + kTwoPi * kSiderealPerSolarDays * d + kTwoPi * IZR n.
Proof. exists 0%Z. unfold siderealModel. lra. Qed.

Lemma C3_witness :
  @riseTransitSet starSky 0 0 (- (PI / 3)) 0 0 (PI / 3) 0 = NegInfinity /\
  exists t : R,
    @riseTransitSet starSky 0 0 0 0 0 0 0 = Finite t /\
    (exists n : Z, @getSiderealTime starSky t 0 - 0 = kTwoPi * IZR n) /\
    (forall alt' : R,
        semiDiurnalArc 0 0 alt' <> 0 ->
        @riseTransitSet starSky 0 0 0 0 0 0 alt' = Finite t).
Proof.
  split.
  - apply (proj1 (@C3_transit_of_rising_object starSky
                    0 0 (- (PI / 3)) 0 (PI / 3) 0
                    modPiModel_turns siderealModel_rate)).
    apply semiDiurnalArc_never_rises. rewrite cosHourAngle_far_south. lra.
  - apply (proj2 (@C3_transit_of_rising_object starSky 0 0 0 0 0 0
                    modPiModel_turns siderealModel_rate)).
    rewrite semiDiurnalArc_horizon. pose proof PI_RGT_0. lra.
Defined.

(** C3, as the claim has it, fails for an object at declination -60 degrees
    seen from latitude +60 degrees: with the horizon altitude 0 the transit
    query returns -infinity, which is not a finite time, and not what it
    returns with the horizon altitude -90 degrees. *)
Lemma C3_counterexample :
  @riseTransitSet starSky 0 0 (- (PI / 3)) 0 0 (PI / 3) 0 = NegInfinity /\
  (exists t : R,
      @riseTransitSet starSky 0 0 (- (PI / 3)) 0 0 (PI / 3) (- (PI / 2))
      = Finite t) /\
  @riseTransitSet starSky 0 0 (- (PI / 3)) 0 0 (PI / 3) (- (PI / 2))
  <> @riseTransitSet starSky 0 0 (- (PI / 3)) 0 0 (PI / 3) 0.
Proof.
  assert (Hhorizon :
            @riseTransitSet starSky 0 0 (- (PI / 3)) 0 0 (PI / 3) 0
            = NegInfinity).
  { apply riseTransitSet_arc_zero, semiDiurnalArc_never_rises.
    rewrite cosHourAngle_far_south. lra. }
  assert (Hnadir : exists t : R,
             @riseTransitSet starSky 0 0 (- (PI / 3)) 0 0 (PI / 3) (- (PI / 2))
             = Finite t).
  { eexists. apply riseTransitSet_finite.
    - rewrite semiDiurnalArc_never_sets.
      + pose proof PI_RGT_0. lra.
      + rewrite cosHourAngle_far_south_nadir. lra.
    - now right. }
  split; [exact Hhorizon |]. split; [exact Hnadir |].
  destruct Hnadir as [t Ht]. rewrite Ht, Hhorizon. discriminate.
Qed.

(** ** The iterative search *)

Lemma inspect_if {A : Type} (x : bool) (f : x = true -> A) (g : x = false -> A)
    (a b : A) :
  (forall e, f e = a) -> (forall e, g e = b) ->
  (if x as c return (x = c -> A) then f else g) eq_refl = if x then a else b.
Proof.
  intros Hf Hg. revert f g Hf Hg. destruct x; intros; auto.
Qed.

Section SearchProperties.

Context {E : Collaborators}.

(** One turn of the [do ... while] loop. *)
Lemma searchLoop_step (sign : Z) (alt : R) (i : nat) (time : R) (w : World) :
  searchLoop sign alt i time w =
  if searchContinues (refinedGuess w sign alt time) time (S i)
  then searchLoop sign alt (S i) (dval (refinedGuess w sign alt time))
         (atTime w time)
  else {| sr_time := refinedGuess w sign alt time;
          sr_world := atTime w time;
          sr_iterations := S i |}.
Proof.
  rewrite searchLoop_equation_1.
  unfold searchLoop_unfold_clause_1, inspect, refinedGuess, atTime.
  apply inspect_if; reflexivity.
Qed.

(** What the solver computes depends on the world through the observer's
    location and the object's data only. *)
Lemma sameSetting_refl (w : World) : sameSetting w w.
Proof. split; reflexivity. Qed.

Lemma sameSetting_sym (w w' : World) : sameSetting w w' -> sameSetting w' w.
Proof. intros [H1 H2]. split; auto. Qed.

Lemma sameSetting_trans (w1 w2 w3 : World) :
  sameSetting w1 w2 -> sameSetting w2 w3 -> sameSetting w1 w3.
Proof. intros [H1 H2] [H3 H4]. split; congruence. Qed.

Lemma atTime_ext (w w' : World) (time : R) :
  sameSetting w w' -> atTime w time = atTime w' time.
Proof.
  intros [Hloc Hdata]. unfold atTime, setTime, computeEphemeris.
  now rewrite Hloc, Hdata.
Qed.

Lemma atTime_setting (w : World) (time : R) : sameSetting (atTime w time) w.
Proof. split; reflexivity. Qed.

Lemma refinedGuess_ext (w w' : World) (sign : Z) (alt time : R) :
  sameSetting w w' -> refinedGuess w sign alt time = refinedGuess w' sign alt time.
Proof.
  intros [Hloc Hdata]. unfold refinedGuess, setTime, computeEphemeris.
  now rewrite Hloc, Hdata.
Qed.

Lemma guess_ext (w w' : World) (sign : Z) (alt time : R) (n : nat) :
  sameSetting w w' -> guess w sign alt time n = guess w' sign alt time n.
Proof.
  intros H. induction n as [|n IH]; cbn; [reflexivity |].
  rewrite IH. destruct (guess w' sign alt time n); auto.
  now apply refinedGuess_ext.
Qed.

Lemma searchLoop_ext (sign : Z) (alt : R) (i : nat) (time : R) (w w' : World) :
  sameSetting w w' ->
  searchLoop sign alt i time w = searchLoop sign alt i time w'.
Proof.
  intros H. rewrite (searchLoop_step sign alt i time w).
  rewrite (searchLoop_step sign alt i time w').
  now rewrite (refinedGuess_ext w w'), (atTime_ext w w').
Qed.

(** The guesses from the first refined guess on. *)
Lemma guess_shift (w : World) (sign : Z) (alt time b : R) (n : nat) :
  refinedGuess w sign alt time = Finite b ->
  guess w sign alt time (S n) = guess w sign alt b n.
Proof.
  intros H. induction n as [|n IH].
  - cbn. exact H.
  - change (guess w sign alt time (S (S n)))
      with (match guess w sign alt time (S n) with
            | Finite t => refinedGuess w sign alt t
            | inf => inf
            end).
    now rewrite IH.
Qed.

(** The loop test fails exactly on an infinite guess, on a guess within the
    precision of the one before, and at the cap. *)
Lemma searchContinues_true (g : double) (lasttime : R) (i : nat) :
  searchContinues g lasttime i = true ->
  (i < imax)%nat /\
  exists b : R, g = Finite b /\ Rabs (b - lasttime) > precision.
Proof.
  unfold searchContinues. intros H.
  apply andb_prop in H as [H Hi]. apply andb_prop in H as [Hd Hinf].
  apply Nat.ltb_lt in Hi. split; [exact Hi |].
  destruct g as [b| |]; try discriminate.
  exists b. split; [reflexivity |]. now apply Rgtb_true_iff.
Qed.

Lemma searchContinues_false (g : double) (lasttime : R) (i : nat) :
  searchContinues g lasttime i = false ->
  (i < imax)%nat ->
  isinf g = true \/
  exists b : R, g = Finite b /\ Rabs (b - lasttime) <= precision.
Proof.
  unfold searchContinues. intros H Hi.
  apply Nat.ltb_lt in Hi. rewrite Hi, andb_true_r in H.
  destruct g as [b| |]; [| now left | now left].
  right. exists b. split; [reflexivity |].
  cbn in H. rewrite andb_true_r in H. now apply Rgtb_false_iff.
Qed.

(** The loop entered with counter [i] and [k] iterations to the cap. *)
Lemma searchLoop_spec (sign : Z) (alt : R) (k : nat) :
  forall (i : nat) (time : R) (w : World),
    (i + S k = imax)%nat ->
    exists m : nat,
      (1 <= m <= S k)%nat /\
      sr_iterations (searchLoop sign alt i time w) = (i + m)%nat /\
      sr_time (searchLoop sign alt i time w) = guess w sign alt time m /\
      (forall j : nat, (1 <= j < m)%nat -> notConverged w sign alt time j) /\
      ((m < S k)%nat -> converged w sign alt time m) /\
      sameSetting (sr_world (searchLoop sign alt i time w)) w.
Proof.
  induction k as [|k IH]; intros i time w Hi; rewrite searchLoop_step.
  - (* last iteration before the cap *)
    destruct (searchContinues _ _ _) eqn:Hc.
    + apply searchContinues_true in Hc as [Hlt _]. lia.
    + exists 1%nat. cbn [sr_iterations sr_time sr_world].
      repeat split; lia.
  - destruct (searchContinues _ _ _) eqn:Hc.
    + apply searchContinues_true in Hc as [Hlt [b [Hb Hfar]]].
      rewrite Hb. cbn [dval].
      destruct (IH (S i) b (atTime w time) ltac:(lia))
        as [m [Hm [Hit [Htime [Hnot [Hconv Hset]]]]]].
      exists (S m).
      assert (Hshift : forall n : nat,
                 guess (atTime w time) sign alt b n
                 = guess w sign alt time (S n)).
      { intros n. rewrite (guess_shift w sign alt time b n Hb).
        apply guess_ext, atTime_setting. }
      split; [lia |]. split; [rewrite Hit; lia |].
      split; [rewrite Htime; apply Hshift |].
      split; [| split].
      * intros j Hj. destruct (Nat.eq_dec j 1) as [-> | Hj1].
        -- exists time, b. repeat split; [exact Hb | exact Hfar].
        -- destruct (Hnot (j - 1)%nat ltac:(lia)) as [x [y [Hx [Hy Hxy]]]].
           exists x, y. rewrite !Hshift in Hx, Hy.
           replace (S (j - 1 - 1)) with (j - 1)%nat in Hx by lia.
           replace (S (j - 1)) with j in Hy by lia.
           repeat split; assumption.
      * intros Hlt'. destruct (Hconv ltac:(lia)) as [Hinf | [x [y [Hx [Hy Hxy]]]]].
        -- left. now rewrite <- Hshift.
        -- right. exists x, y. rewrite !Hshift in Hx, Hy.
           replace (S (m - 1)) with (S m - 1)%nat in Hx by lia.
           repeat split; assumption.
      * apply (sameSetting_trans _ _ _ Hset), atTime_setting.
    + exists 1%nat. cbn [sr_iterations sr_time sr_world].
      split; [lia |]. split; [lia |]. split; [reflexivity |].
      split; [intros j Hj; lia |]. split; [| apply atTime_setting].
      intros _.
      apply searchContinues_false in Hc; [| lia].
      destruct Hc as [Hinf | [b [Hb Hnear]]].
      * now left.
      * right. exists time, b. repeat split; assumption.
Qed.

(** C9.  [riseTransitSetSearch] always returns, after at least one and at
    most 10 iterations of its loop, the guess of its last iteration.  While it
    goes on, successive guesses are finite and further apart than one second;
    so it stops at the first guess that is infinite or less than one second
    from the guess before, and when it stops before the cap the last guess is
    infinite or within one second of the one before. *)
Theorem C9_riseTransitSetSearch_bounded
    (time : R) (w : World) (sign : Z) (alt : R) :
  exists n : nat,
    (1 <= n <= 10)%nat /\
    sr_iterations (searchLoop sign alt 0 time w) = n /\
    fst (riseTransitSetSearch time w sign alt) = guess w sign alt time n /\
    (forall j : nat, (1 <= j < n)%nat -> notConverged w sign alt time j) /\
    (forall (j : nat) (a b : R),
        (1 <= j <= n)%nat ->
        guess w sign alt time (j - 1) = Finite a ->
        guess w sign alt time j = Finite b ->
        Rabs (b - a) < precision -> j = n) /\
    (forall j : nat,
        (1 <= j <= n)%nat -> isinf (guess w sign alt time j) = true -> j = n) /\
    ((n < 10)%nat -> converged w sign alt time n).
Proof.
  destruct (searchLoop_spec sign alt 9 0 time w eq_refl)
    as [m [Hm [Hit [Htime [Hnot [Hconv _]]]]]].
  exists m. repeat split; try lia; try assumption.
  - intros j a b Hj Ha Hb Hnear.
    destruct (Nat.eq_dec j m) as [|Hne]; [assumption | exfalso].
    destruct (Hnot j ltac:(lia)) as [x [y [Hx [Hy Hxy]]]].
    rewrite Ha in Hx. rewrite Hb in Hy. inversion Hx. inversion Hy. subst. lra.
  - intros j Hj Hinf.
    destruct (Nat.eq_dec j m) as [|Hne]; [assumption | exfalso].
    destruct (Hnot j ltac:(lia)) as [x [y [Hx [Hy Hxy]]]].
    rewrite Hy in Hinf. discriminate.
Qed.

End SearchProperties.

(** ** The search within a local day *)

Lemma riseTransitSetSearch_time
    {E : Collaborators} (time : R) (w : World) (sign : Z) (alt : R) :
  riseTransitSetSearch time w sign alt =
  (sr_time (searchLoop sign alt 0 time w),
   sr_world (searchLoop sign alt 0 time w)).
Proof. reflexivity. Qed.

(** C4, as the code has it.  [riseTransitSetSearchDay] returns a time of the
    local day, both its start (local midnight) and its end (the next local
    midnight) included, or -infinity for a rise query (sign = -1), or
    +infinity for the other queries. *)
Theorem C4_riseTransitSetSearchDay_closed_day
    {E : Collaborators} (today : R) (w : World) (sign : Z) (alt : R) :
  inLocalDayClosed (getLocalMidnight today) sign
    (fst (riseTransitSetSearchDay today w sign alt)).
Proof.
  unfold riseTransitSetSearchDay. cbv zeta.
  destruct (riseTransitSetSearch _ w sign alt) as [time1 w1].
  destruct (if dgtb time1 _ then _ else _) as [time2 w2].
  cbn [fst]. unfold inLocalDayClosed.
  destruct (dgtb time2 _ || dltb time2 _) eqn:Hout.
  - destruct (Z.eqb_spec sign (-1)) as [Hs | Hs]; auto.
  - apply orb_false_elim in Hout as [Hgt Hlt].
    destruct time2 as [t| |]; cbn in Hgt, Hlt; try discriminate.
    left. exists t. split; [reflexivity |].
    apply Rgtb_false_iff in Hgt. apply Rltb_false_iff in Hlt. lra.
Qed.

(** *** A transit found at the end of the day

    The object of [driftingRa], seen from the equator at longitude 0 on the
    day that starts at time 0. *)

Lemma kSidereal_bounds : 1 < kSiderealPerSolarDays < 2.
Proof. unfold kSiderealPerSolarDays. lra. Qed.

Lemma drifting_refined_before (w : @World driftingSky) (time : R) :
  sameSetting w driftingWorld -> time < 1 ->
  refinedGuess w kTransit 0 time = Finite (time + 1 / 4).
Proof.
  intros Hw Ht. rewrite (refinedGuess_ext w driftingWorld) by assumption.
  unfold refinedGuess, riseTransitSetObj. cbn.
  rewrite riseTransitSet_finite.
  - f_equal. f_equal.
    rewrite semiDiurnalArc_horizon.
    change (@modPi driftingSky) with modPiModel.
    change (@getSiderealTime driftingSky) with siderealModel.
    change (IZR kTransit) with 0.
    unfold driftingRa. decide_cmp.
    pose proof kSidereal_bounds as Hk. pose proof PI_RGT_0 as Hpi.
    replace (siderealModel time 0 + kSiderealPerSolarDays * PI / 2
             - siderealModel time 0 + 0 * (PI / 2))
      with (kSiderealPerSolarDays * PI / 2) by lra.
    rewrite modPiModel_id by nra.
    unfold kTwoPi. field. lra.
  - rewrite semiDiurnalArc_horizon. pose proof PI_RGT_0. lra.
  - now right.
Qed.

Lemma drifting_refined_after (w : @World driftingSky) (time : R) :
  sameSetting w driftingWorld -> 1 <= time ->
  refinedGuess w kTransit 0 time = Finite time.
Proof.
  intros Hw Ht. rewrite (refinedGuess_ext w driftingWorld) by assumption.
  unfold refinedGuess, riseTransitSetObj. cbn.
  rewrite riseTransitSet_finite.
  - f_equal.
    rewrite semiDiurnalArc_horizon.
    change (@modPi driftingSky) with modPiModel.
    change (@getSiderealTime driftingSky) with siderealModel.
    change (IZR kTransit) with 0.
    unfold driftingRa. decide_cmp.
    pose proof kSidereal_bounds as Hk. pose proof PI_RGT_0 as Hpi.
    replace (siderealModel time 0 + 0 - siderealModel time 0 + 0 * (PI / 2))
      with 0 by lra.
    rewrite modPiModel_id by lra.
    unfold kTwoPi. field. lra.
  - rewrite semiDiurnalArc_horizon. pose proof PI_RGT_0. lra.
  - now right.
Qed.

Lemma precision_small : 0 < precision < 1 / 4.
Proof. unfold precision, kSecondsPerDay. lra. Qed.

(** From local noon the search moves to 0.75, then to 1, where it stays:
    three iterations. *)
Lemma drifting_searchLoop_from_noon :
  sr_time (@searchLoop driftingSky kTransit 0 0 (0 + 0.5) driftingWorld)
  = Finite 1 /\
  sr_iterations (@searchLoop driftingSky kTransit 0 0 (0 + 0.5) driftingWorld)
  = 3%nat.
Proof.
  pose proof precision_small as Hp.
  assert (Hrun :
            @searchLoop driftingSky kTransit 0 0 (0 + 0.5) driftingWorld =
            {| sr_time := Finite (0 + 0.5 + 1 / 4 + 1 / 4);
               sr_world :=
                 atTime (atTime (atTime driftingWorld (0 + 0.5))
                           (0 + 0.5 + 1 / 4))
                   (0 + 0.5 + 1 / 4 + 1 / 4);
               sr_iterations := 3 |}).
  { rewrite searchLoop_step.
    rewrite drifting_refined_before by (try apply sameSetting_refl; lra).
    unfold searchContinues at 1. cbn [fabs_diff_gtb isinf dval negb].
    rewrite (proj2 (Rgtb_true_iff _ _))
      by (rewrite Rabs_right; lra).
    cbn [andb Nat.ltb Nat.leb imax].
    rewrite searchLoop_step.
    rewrite drifting_refined_before by (try apply atTime_setting; lra).
    unfold searchContinues at 1. cbn [fabs_diff_gtb isinf dval negb].
    rewrite (proj2 (Rgtb_true_iff _ _))
      by (rewrite Rabs_right; lra).
    cbn [andb Nat.ltb Nat.leb imax].
    rewrite searchLoop_step.
    rewrite drifting_refined_after.
    - unfold searchContinues at 1. cbn [fabs_diff_gtb isinf dval negb].
      rewrite (proj2 (Rgtb_false_iff _ _))
        by (rewrite Rabs_right; lra).
      reflexivity.
    - eapply sameSetting_trans; [apply atTime_setting |].
      apply atTime_setting.
    - lra. }
  rewrite Hrun. cbn [sr_time sr_iterations].
  split; [f_equal; lra | reflexivity].
Qed.

Lemma drifting_search_from_noon :
  fst (@riseTransitSetSearch driftingSky (0 + 0.5) driftingWorld kTransit 0)
  = Finite 1.
Proof.
  rewrite riseTransitSetSearch_time. cbn [fst].
  exact (proj1 drifting_searchLoop_from_noon).
Qed.

(** C4, as the claim has it, fails: the transit query for the day that
    starts at time 0 returns time 1, the start of the next day. *)
Lemma C4_counterexample :
  @getLocalMidnight driftingSky 0 = 0 /\
  fst (@riseTransitSetSearchDay driftingSky 0 driftingWorld kTransit 0)
  = Finite 1 /\
  ~ inLocalDayOpen (@getLocalMidnight driftingSky 0) kTransit
      (fst (@riseTransitSetSearchDay driftingSky 0 driftingWorld kTransit 0)).
Proof.
  assert (Hmid : @getLocalMidnight driftingSky 0 = 0).
  { cbn. rewrite Int_part_unit by lra. reflexivity. }
  assert (Hday :
            fst (@riseTransitSetSearchDay driftingSky 0 driftingWorld kTransit 0)
            = Finite 1).
  { unfold riseTransitSetSearchDay. cbv zeta. rewrite Hmid.
    pose proof drifting_search_from_noon as Hnoon.
    destruct (@riseTransitSetSearch driftingSky (0 + 0.5) driftingWorld
                kTransit 0) as [time1 w1].
    cbn [fst] in Hnoon. subst time1.
    cbn [dgtb dltb]. decide_cmp.
    cbn [dgtb dltb]. decide_cmp. reflexivity. }
  split; [exact Hmid |]. split; [exact Hday |].
  rewrite Hday, Hmid. unfold inLocalDayOpen.
  intros [[t [Ht Hrange]] | [[_ H] | [_ H]]]; try discriminate.
  inversion Ht. lra.
Qed.

(** ** The sweep *)

Section SweepProperties.

Context {E : Collaborators}.

Variables start stop minAlt : R.

(** One turn of the [for] loop. *)
Lemma sweep_step (s : Scan) :
  sweep start stop minAlt s =
  if Rleb (sc_time s) stop
  then sweep start stop minAlt (scanBody start minAlt s)
  else s.
Proof.
  rewrite sweep_equation_1. unfold Rleb. destruct (Rle_dec _ _); reflexivity.
Qed.

(** Induction along the iterations of the sweep. *)
Lemma sweep_rule (P : Scan -> Scan -> Prop) :
  (forall s : Scan, ~ sc_time s <= stop -> P s s) ->
  (forall s : Scan,
      sc_time s <= stop ->
      P (scanBody start minAlt s)
        (sweep start stop minAlt (scanBody start minAlt s)) ->
      P s (sweep start stop minAlt (scanBody start minAlt s))) ->
  forall s : Scan, P s (sweep start stop minAlt s).
Proof.
  intros Hexit Hstep s.
  funelim (sweep start stop minAlt s).
  - apply Hstep; [assumption |]. now apply H.
  - now apply Hexit.
Qed.

(** An invariant of the loop head holds when the loop is left. *)
Lemma sweep_invariant (Inv : Scan -> Prop) :
  (forall s : Scan,
      Inv s -> sc_time s <= stop -> Inv (scanBody start minAlt s)) ->
  forall s : Scan, Inv s -> Inv (sweep start stop minAlt s).
Proof.
  intros Hbody s.
  apply (sweep_rule (fun s r => Inv s -> Inv r)).
  - auto.
  - intros s' Hle IH Hs. apply IH, Hbody; assumption.
Qed.

(** The components of a turn of the loop. *)
Lemma scanBody_time (s : Scan) :
  sc_time (scanBody start minAlt s)
  = sc_time s + sweepStep (altitudeAt (sc_world s) (sc_time s)).
Proof.
  unfold scanBody. cbv zeta.
  destruct (if Rgtb (sc_time s) start then _ else _) as [[pass maxAlt] passes].
  reflexivity.
Qed.

Lemma scanBody_oldAlt (s : Scan) :
  sc_oldAlt (scanBody start minAlt s) = altitudeAt (sc_world s) (sc_time s).
Proof.
  unfold scanBody. cbv zeta.
  destruct (if Rgtb (sc_time s) start then _ else _) as [[pass maxAlt] passes].
  reflexivity.
Qed.

Lemma scanBody_world (s : Scan) :
  sc_world (scanBody start minAlt s) = atTime (sc_world s) (sc_time s).
Proof.
  unfold scanBody. cbv zeta.
  destruct (if Rgtb (sc_time s) start then _ else _) as [[pass maxAlt] passes].
  reflexivity.
Qed.

Lemma scanBody_first (s : Scan) :
  sc_time s <= start ->
  sc_pass (scanBody start minAlt s) = sc_pass s /\
  sc_maxAlt (scanBody start minAlt s) = sc_maxAlt s /\
  sc_passes (scanBody start minAlt s) = sc_passes s.
Proof.
  intros H. unfold scanBody. cbv zeta.
  rewrite (proj2 (Rgtb_false_iff _ _)) by assumption.
  repeat split.
Qed.

Lemma scanBody_later (s : Scan) :
  sc_time s > start ->
  (sc_pass (scanBody start minAlt s), sc_maxAlt (scanBody start minAlt s),
   sc_passes (scanBody start minAlt s))
  = detect minAlt (sc_time s)
      (azimuthAt (sc_world s) (sc_time s))
      (altitudeAt (sc_world s) (sc_time s))
      (sc_oldAlt s) (sc_pass s) (sc_maxAlt s) (sc_passes s).
Proof.
  intros H. unfold scanBody. cbv zeta.
  rewrite (proj2 (Rgtb_true_iff _ _)) by assumption.
  fold (altitudeAt (sc_world s) (sc_time s)).
  fold (azimuthAt (sc_world s) (sc_time s)).
  destruct (detect _ _ _ _ _ _ _ _) as [[pass maxAlt] passes].
  reflexivity.
Qed.

Lemma sweepStep_positive (hor_lat : R) : 0 < sweepStep hor_lat.
Proof.
  unfold sweepStep, kSecondsPerDay, kMinutesPerDay.
  destruct (Rgtb _ _); lra.
Qed.

Lemma sameScan_refl (s : Scan) : sameScan s s.
Proof. repeat split. Qed.

Lemma scanBody_ext (s s' : Scan) :
  sameScan s s' -> scanBody start minAlt s = scanBody start minAlt s'.
Proof.
  intros (Ht & Hst & Hp & Hm & Ho & Hps & [Hloc Hdata]).
  unfold scanBody, setTime, computeEphemeris. cbv zeta.
  rewrite <- Ht, <- Hp, <- Hm, <- Ho, <- Hps, <- Hloc, <- Hdata.
  reflexivity.
Qed.

Lemma sweep_ext (s s' : Scan) :
  sameScan s s' ->
  sameScan (sweep start stop minAlt s) (sweep start stop minAlt s').
Proof.
  intros H. rewrite (sweep_step s), (sweep_step s').
  rewrite (scanBody_ext s s' H).
  destruct H as (Ht & H). rewrite <- Ht.
  destruct (Rleb (sc_time s) stop).
  - apply sameScan_refl.
  - split; assumption.
Qed.

Lemma sweep_setting (s : Scan) :
  sameSetting (sc_world (sweep start stop minAlt s)) (sc_world s).
Proof.
  apply (sweep_rule (fun s r => sameSetting (sc_world r) (sc_world s))).
  - intros s' _. apply sameSetting_refl.
  - intros s' _ IH. apply (sameSetting_trans _ _ _ IH).
    rewrite scanBody_world. apply atTime_setting.
Qed.

End SweepProperties.

(** ** The context is restored *)

Section Restoration.

Context {E : Collaborators}.

Lemma setTime_getTime (coords : SSCoordinates) :
  setTime coords (getTime coords) = coords.
Proof. destruct coords. reflexivity. Qed.

Lemma riseTransitSetSearch_ext (time : R) (w w' : World) (sign : Z) (alt : R) :
  sameSetting w w' ->
  riseTransitSetSearch time w sign alt = riseTransitSetSearch time w' sign alt.
Proof.
  intros H. unfold riseTransitSetSearch. cbv zeta.
  now rewrite (searchLoop_ext sign alt 0 time w w').
Qed.

Lemma riseTransitSetSearch_setting (time : R) (w : World) (sign : Z) (alt : R) :
  sameSetting (snd (riseTransitSetSearch time w sign alt)) w.
Proof.
  destruct (searchLoop_spec sign alt 9 0 time w eq_refl)
    as [m [_ [_ [_ [_ [_ H]]]]]].
  exact H.
Qed.

Lemma riseTransitSetSearchDay_ext
    (today : R) (w w' : World) (sign : Z) (alt : R) :
  sameSetting w w' ->
  riseTransitSetSearchDay today w sign alt
  = riseTransitSetSearchDay today w' sign alt.
Proof.
  intros H. unfold riseTransitSetSearchDay. cbv zeta.
  now rewrite (riseTransitSetSearch_ext _ w w').
Qed.

Lemma riseTransitSetSearchDay_setting
    (today : R) (w : World) (sign : Z) (alt : R) :
  sameSetting (snd (riseTransitSetSearchDay today w sign alt)) w.
Proof.
  unfold riseTransitSetSearchDay. cbv zeta.
  pose proof (riseTransitSetSearch_setting
                (getLocalMidnight today + 0.5) w sign alt) as H1.
  destruct (riseTransitSetSearch _ w sign alt) as [time1 w1].
  cbn [snd] in H1.
  pose proof (riseTransitSetSearch_setting
                (getLocalMidnight today - 0.5) w1 sign alt) as H2.
  pose proof (riseTransitSetSearch_setting
                (getLocalMidnight today + 1.0 + 0.5) w1 sign alt) as H3.
  destruct (dgtb time1 _).
  - destruct (riseTransitSetSearch _ w1 sign alt) as [time2 w2].
    cbn [snd] in *. eapply sameSetting_trans; eassumption.
  - destruct (dltb time1 _).
    + destruct (riseTransitSetSearch _ w1 sign alt) as [time2 w2].
      cbn [snd] in *. eapply sameSetting_trans; eassumption.
    + exact H1.
Qed.

(** The pass function leaves the world it was given, at the time it was
    given, with the ephemeris recomputed for that time. *)
Lemma riseTransitSetPass_world (today : R) (w : World) (alt : R) :
  snd (riseTransitSetPass today w alt) = atTime w (getTime (w_coords w)).
Proof.
  unfold riseTransitSetPass. cbv zeta.
  pose proof (riseTransitSetSearchDay_setting today w kRise alt) as H1.
  destruct (riseTransitSetSearchDay today w kRise alt) as [t1 w1].
  pose proof (riseTransitSetSearchDay_setting today w1 kTransit 0.0) as H2.
  destruct (riseTransitSetSearchDay today w1 kTransit 0.0) as [t2 w2].
  pose proof (riseTransitSetSearchDay_setting today w2 kSet alt) as H3.
  destruct (riseTransitSetSearchDay today w2 kSet alt) as [t3 w3].
  cbn [snd] in *.
  apply (atTime_ext w3 w).
  eapply sameSetting_trans; [eassumption |].
  eapply sameSetting_trans; eassumption.
Qed.

Lemma riseTransitSetPass_ext (today : R) (w w' : World) (alt : R) :
  sameSetting w w' -> getTime (w_coords w) = getTime (w_coords w') ->
  riseTransitSetPass today w alt = riseTransitSetPass today w' alt.
Proof.
  intros H Ht. unfold riseTransitSetPass. cbv zeta.
  now rewrite (riseTransitSetSearchDay_ext today w w'), Ht.
Qed.

Lemma findSatellitePasses_world
    (w : World) (start stop minAlt : R) (passes : list SSPass) :
  snd (findSatellitePasses w start stop minAlt passes)
  = atTime w (getTime (w_coords w)).
Proof.
  unfold findSatellitePasses. cbv zeta. cbn [snd].
  apply (atTime_ext _ w).
  apply (sameSetting_trans _ _ _ (sweep_setting _ _ _ _)).
  apply sameSetting_refl.
Qed.

Lemma findSatellitePasses_ext
    (w w' : World) (start stop minAlt : R) (passes : list SSPass) :
  sameSetting w w' -> getTime (w_coords w) = getTime (w_coords w') ->
  findSatellitePasses w start stop minAlt passes
  = findSatellitePasses w' start stop minAlt passes.
Proof.
  intros H Ht. unfold findSatellitePasses. cbv zeta.
  set (s := mkScan start 0 zeroPass 0 0 passes w).
  set (s' := mkScan start 0 zeroPass 0 0 passes w').
  assert (Hs : sameScan s s') by (repeat split; apply H).
  apply (sweep_ext start stop minAlt) in Hs.
  destruct Hs as (_ & _ & _ & _ & _ & Hps & Hw).
  rewrite Hps, Ht. f_equal.
  apply (atTime_ext _ _ (getTime (w_coords w')) Hw).
Qed.

(** C5.  The pass function and [findSatellitePasses] return with the
    context at the time it had on entry and with the object's ephemeris
    computed for that context; a second call with the same arguments, in the
    world the first call left, returns the same result and leaves the same
    world. *)
Theorem C5_context_restored
    (today alt : R) (start stop minAlt : R) (passes : list SSPass)
    (w : World) :
  (let '(pass, w') := riseTransitSetPass today w alt in
   getTime (w_coords w') = getTime (w_coords w) /\
   w_coords w' = w_coords w /\
   w_obj w' = computeEphemeris (w_coords w') (w_obj w) /\
   riseTransitSetPass today w' alt = (pass, w')) /\
  (let '(result, w') := findSatellitePasses w start stop minAlt passes in
   getTime (w_coords w') = getTime (w_coords w) /\
   w_coords w' = w_coords w /\
   w_obj w' = computeEphemeris (w_coords w') (w_obj w) /\
   findSatellitePasses w' start stop minAlt passes = (result, w')).
Proof.
  split.
  - pose proof (riseTransitSetPass_world today w alt) as Hw.
    destruct (riseTransitSetPass today w alt) as [pass w'] eqn:Hcall.
    cbn [snd] in Hw. subst w'.
    cbn [atTime w_coords w_obj]. rewrite setTime_getTime.
    repeat split.
    rewrite <- Hcall. apply riseTransitSetPass_ext.
    + apply atTime_setting.
    + reflexivity.
  - pose proof (findSatellitePasses_world w start stop minAlt passes) as Hw.
    destruct (findSatellitePasses w start stop minAlt passes)
      as [result w'] eqn:Hcall.
    cbn [snd] in Hw. subst w'.
    cbn [atTime w_coords w_obj]. rewrite setTime_getTime.
    repeat split.
    rewrite <- Hcall. apply findSatellitePasses_ext.
    + apply atTime_setting.
    + reflexivity.
Qed.

End Restoration.

(** ** The passes the sweep emits *)

Section PassInvariant.

Context {E : Collaborators}.

Variable w0 : World.
Variables start stop minAlt : R.
Variable passes0 : list SSPass.

Hypothesis minAlt_nonneg : 0 <= minAlt.
Hypothesis no_sample_on_threshold :
  forall t : R,
    sampleTime w0 start t -> t <= stop -> altitudeAt w0 t <> minAlt.

Lemma altitudeAt_ext (w w' : World) (time : R) :
  sameSetting w w' -> altitudeAt w time = altitudeAt w' time.
Proof.
  intros [Hloc Hdata]. unfold altitudeAt, setTime, computeEphemeris.
  now rewrite Hloc, Hdata.
Qed.

Lemma sweepInv_scanBody (s : Scan) :
  sweepInv w0 start stop minAlt passes0 s -> sc_time s <= stop ->
  sweepInv w0 start stop minAlt passes0 (scanBody start minAlt s).
Proof.
  intros (Htime & Hsample & Hw & (emitted & Hps & Hgood) & Hstate) Hstop.
  pose proof (scanBody_time start minAlt s) as Ht'.
  pose proof (scanBody_oldAlt start minAlt s) as Ho'.
  pose proof (scanBody_world start minAlt s) as Hw'.
  pose proof (scanBody_later start minAlt s Htime) as Hd.
  pose proof (sweepStep_positive (altitudeAt (sc_world s) (sc_time s))) as Hstep.
  rewrite (altitudeAt_ext _ w0 _ Hw) in Ht', Ho', Hd, Hstep.
  pose proof (no_sample_on_threshold (sc_time s) Hsample Hstop) as Hne.
  pose proof (sample_next w0 start (sc_time s) Hsample) as Hsample'.
  rewrite <- Ht' in Hsample'.
  set (s' := scanBody start minAlt s) in *.
  set (a := altitudeAt w0 (sc_time s)) in *.
  unfold sweepInv.
  split; [lra |]. split; [exact Hsample' |].
  split; [rewrite Hw'; apply (sameSetting_trans _ _ _ (atTime_setting _ _) Hw) |].
  rewrite Ho'.
  unfold detect in Hd. cbv zeta in Hd.
  destruct Hstate as [[Hold Hmax] | [Hold Hopen]].
  - (* the satellite was below the threshold *)
    rewrite (proj2 (Rgtb_false_iff (sc_oldAlt s) minAlt)) in Hd by lra.
    rewrite (proj2 (Rltb_true_iff (sc_oldAlt s) minAlt)) in Hd by lra.
    rewrite andb_true_r in Hd. cbn [andb] in Hd.
    destruct (Rlt_dec a minAlt) as [Hlow | Hhigh].
    + (* and stays below *)
      rewrite (proj2 (Rgtb_false_iff a minAlt)) in Hd by lra.
      destruct (Rgtb a (sc_maxAlt s)) eqn:Hpeak;
        injection Hd as Hp Hm Hpass; rewrite Hpass.
      * split; [exists emitted; auto | left; lra].
      * split; [exists emitted; auto | left; lra].
    + (* and rises above it: rising and transit are this sample *)
      rewrite (proj2 (Rgtb_true_iff a minAlt)) in Hd by lra.
      rewrite (proj2 (Rgtb_true_iff a (sc_maxAlt s))) in Hd by lra.
      injection Hd as Hp Hm Hpass. rewrite Hpass.
      split; [exists emitted; auto |].
      right. split; [lra |].
      exists (sc_time s), (sc_time s). rewrite Hp, Hm. cbn.
      fold a. repeat split; try assumption; lra.
  - (* the satellite was above the threshold *)
    destruct Hopen
      as (tr & tt & Hr & Ht & [Hsr Hst] & Hord & Halt & Hlev & Htm & Hom).
    rewrite (proj2 (Rgtb_true_iff (sc_oldAlt s) minAlt)) in Hd by lra.
    rewrite (proj2 (Rltb_false_iff (sc_oldAlt s) minAlt)) in Hd by lra.
    rewrite andb_false_r in Hd. cbn [andb] in Hd.
    destruct (Rlt_dec a minAlt) as [Hlow | Hhigh].
    + (* and falls below it: the pass is emitted *)
      rewrite (proj2 (Rgtb_false_iff a (sc_maxAlt s))) in Hd by lra.
      rewrite (proj2 (Rltb_true_iff a minAlt)) in Hd by lra.
      injection Hd as Hp Hm Hpass. rewrite Hpass, Hm.
      split; [| left; lra].
      exists (emitted ++ [setSetting (sc_pass s)
                            (mkPassEvent (Finite (sc_time s))
                               (azimuthAt (sc_world s) (sc_time s)) a)]).
      split; [rewrite Hps; symmetry; apply app_assoc |].
      apply Forall_app. split; [exact Hgood |].
      constructor; [| constructor].
      exists tr, tt, (sc_time s). cbn.
      fold a. repeat split; try assumption; lra.
    + (* and stays above *)
      rewrite (proj2 (Rltb_false_iff a minAlt)) in Hd by lra.
      destruct (Rgtb a (sc_maxAlt s)) eqn:Hpeak;
        injection Hd as Hp Hm Hpass; rewrite Hpass;
        (split; [exists emitted; auto |]); right; (split; [lra |]).
      * apply Rgtb_true_iff in Hpeak.
        exists tr, (sc_time s). rewrite Hp, Hm. cbn.
        fold a. repeat split; try assumption; lra.
      * apply Rgtb_false_iff in Hpeak.
        exists tr, tt. rewrite Hp, Hm.
        repeat split; try assumption; lra.
Qed.

Hypothesis starts_below : altitudeAt w0 start < minAlt.

Lemma sweepInv_first_sample :
  start <= stop ->
  sweepInv w0 start stop minAlt passes0
    (scanBody start minAlt (mkScan start 0 zeroPass 0 0 passes0 w0)).
Proof.
  intros Hstop.
  set (s0 := mkScan start 0 zeroPass 0 0 passes0 w0).
  pose proof (scanBody_time start minAlt s0) as Ht'.
  pose proof (scanBody_oldAlt start minAlt s0) as Ho'.
  pose proof (scanBody_world start minAlt s0) as Hw'.
  destruct (scanBody_first start minAlt s0 ltac:(cbn; lra))
    as (Hp & Hm & Hps).
  pose proof (sweepStep_positive (altitudeAt (sc_world s0) (sc_time s0))).
  cbn [s0 sc_time sc_world sc_maxAlt sc_passes] in *.
  unfold sweepInv. rewrite Hw', Ho', Hm, Hps.
  split; [lra |].
  split; [rewrite Ht'; apply sample_next, sample_first |].
  split; [apply atTime_setting |].
  split; [exists []; split; [now rewrite app_nil_r | constructor] |].
  left. lra.
Qed.

Lemma sweep_emits_ordered_passes :
  exists emitted : list SSPass,
    sc_passes (sweep start stop minAlt
                 (mkScan start 0 zeroPass 0 0 passes0 w0))
    = passes0 ++ emitted /\
    Forall (orderedPass w0 start stop minAlt) emitted.
Proof.
  rewrite sweep_step. cbn [sc_time].
  destruct (Rleb start stop) eqn:Hle.
  - apply Rleb_true_iff in Hle.
    pose proof (sweep_invariant start stop minAlt
                  (sweepInv w0 start stop minAlt passes0)
                  sweepInv_scanBody _ (sweepInv_first_sample Hle)) as Hinv.
    destruct Hinv as (_ & _ & _ & Hem & _). exact Hem.
  - exists []. split; [now rewrite app_nil_r | constructor].
Qed.

End PassInvariant.

(** C8, as the code has it.  When the threshold is not negative, the
    satellite is below it at the start time, and no sample in the window lies
    exactly on it, every pass [findSatellitePasses] emits has
    rising.time <= transit.time < setting.time, all three being sample times
    of the window after the start, and recorded altitudes
    setting < minAlt < rising <= transit, each the altitude at its recorded
    time.  The passes are appended to the vector in the order of emission
    and the count returned is the size of the vector. *)
Theorem C8_emitted_passes_ordered
    {E : Collaborators} (w : World) (start stop minAlt : R)
    (passes : list SSPass) :
  0 <= minAlt ->
  altitudeAt w start < minAlt ->
  (forall t : R,
      sampleTime w start t -> t <= stop -> altitudeAt w t <> minAlt) ->
  exists emitted : list SSPass,
    fst (findSatellitePasses w start stop minAlt passes)
    = (Z.of_nat (length (passes ++ emitted)), passes ++ emitted) /\
    Forall (orderedPass w start stop minAlt) emitted.
Proof.
  intros Hmin Hstart Hthreshold.
  destruct (sweep_emits_ordered_passes w start stop minAlt passes
              Hmin Hthreshold Hstart) as [emitted [Hps Hgood]].
  exists emitted. split; [| exact Hgood].
  unfold findSatellitePasses. cbv zeta. cbn [fst].
  now rewrite Hps.
Qed.

(** *** A pass whose rising and transit coincide

    The satellite of [blipAlt], swept from time 0 for two seconds with the
    threshold at 0.2 rad. *)

Lemma scanBody_at {E : Collaborators} (start minAlt : R) (s : Scan) :
  scanBody start minAlt s =
  let time := sc_time s in
  let alt := altitudeAt (sc_world s) time in
  let azm := azimuthAt (sc_world s) time in
  let r := if Rgtb time start
           then detect minAlt time azm alt (sc_oldAlt s)
                  (sc_pass s) (sc_maxAlt s) (sc_passes s)
           else (sc_pass s, sc_maxAlt s, sc_passes s) in
  {| sc_time := time + sweepStep alt;
     sc_step := sweepStep alt;
     sc_pass := fst (fst r);
     sc_maxAlt := snd (fst r);
     sc_oldAlt := alt;
     sc_passes := snd r;
     sc_world := atTime (sc_world s) time |}.
Proof.
  unfold scanBody. cbv zeta.
  fold (altitudeAt (sc_world s) (sc_time s)).
  fold (azimuthAt (sc_world s) (sc_time s)).
  destruct (if Rgtb (sc_time s) start then _ else _) as [[pass maxAlt] passes].
  reflexivity.
Qed.

Lemma blip_altitudeAt (w : @World blipSky) (time : R) :
  altitudeAt w time = blipAlt time.
Proof. reflexivity. Qed.

Lemma blip_azimuthAt (w : @World blipSky) (time : R) :
  azimuthAt w time = 0.
Proof. reflexivity. Qed.

Lemma blipAlt_before (t : R) : t < 1 / 2 / 86400 -> blipAlt t = 0.1999.
Proof. intros H. unfold blipAlt. now decide_cmp. Qed.

Lemma blipAlt_during (t : R) :
  1 / 2 / 86400 <= t < 3 / 2 / 86400 -> blipAlt t = 0.2001.
Proof. intros H. unfold blipAlt. now decide_cmp. Qed.

Lemma blipAlt_after (t : R) : 3 / 2 / 86400 <= t -> blipAlt t = 0.1999.
Proof. intros H. unfold blipAlt. now decide_cmp. Qed.

Lemma blipAlt_off_threshold (t : R) : blipAlt t <> 0.2.
Proof.
  unfold blipAlt. destruct (Rltb t _); [lra |]. destruct (Rltb t _); lra.
Qed.

(** Evaluates one turn of the sweep of [blipWorld] at a sample where
    [blipAlt] is given by the lemma [alt_lemma]. *)
Ltac blip_turn alt_lemma :=
  rewrite sweep_step; cbn [sc_time]; decide_cmp;
  rewrite scanBody_at;
  cbn [sc_time sc_world sc_oldAlt sc_pass sc_maxAlt sc_passes];
  cbv zeta; rewrite !blip_altitudeAt, !blip_azimuthAt;
  rewrite alt_lemma by lra;
  rewrite sweepStep_one_second by (pose proof PI_RGT_0; lra);
  unfold kSecondsPerDay; decide_cmp;
  unfold detect; cbv zeta; decide_cmp; cbn [andb fst snd app].

Lemma blip_sweep_passes :
  fst (@findSatellitePasses blipSky blipWorld 0 (2 / 86400) 0.2 [])
  = (1%Z, [blipPass]).
Proof.
  unfold findSatellitePasses. cbv zeta. cbn [fst].
  blip_turn blipAlt_before.
  blip_turn blipAlt_during.
  blip_turn blipAlt_after.
  rewrite sweep_step. cbn [sc_time sc_passes]. decide_cmp.
  cbn [sc_passes length Z.of_nat Pos.of_succ_nat].
  unfold blipPass, setSetting, setTransit, setRising, zeroPass.
  cbn [rising transit setting].
  replace (0 + 1 / 86400 + 1 / 86400) with (2 / 86400) by lra.
  replace (0 + 1 / 86400) with (1 / 86400) by lra.
  reflexivity.
Qed.

(** C8, as the claim has it, fails: the one pass of this sweep has its
    rising and its transit at the same sample, so it is not in strict order,
    whatever the tolerance on the altitudes. *)
Lemma C8_counterexample :
  fst (@findSatellitePasses blipSky blipWorld 0 (2 / 86400) 0.2 [])
  = (1%Z, [blipPass]) /\
  ev_time (rising blipPass) = ev_time (transit blipPass) /\
  forall tol : R, ~ strictlyOrderedPass 0.2 tol blipPass.
Proof.
  split; [exact blip_sweep_passes |].
  split; [reflexivity |].
  intros tol (tr & tt & ts & Hr & Ht & _ & Hord & _).
  cbn in Hr, Ht. inversion Hr. inversion Ht. lra.
Qed.

Lemma C8_witness :
  exists emitted : list SSPass,
    fst (@findSatellitePasses blipSky blipWorld 0 (2 / 86400) 0.2 [])
    = (Z.of_nat (length ([] ++ emitted)), [] ++ emitted) /\
    Forall (@orderedPass blipSky blipWorld 0 (2 / 86400) 0.2) emitted.
Proof.
  apply (@C8_emitted_passes_ordered blipSky blipWorld 0 (2 / 86400) 0.2 []).
  - lra.
  - rewrite blip_altitudeAt, blipAlt_before; lra.
  - intros t _ _. rewrite blip_altitudeAt. apply blipAlt_off_threshold.
Defined.

(** * Further properties *)

(** ** Magnitudes *)

Lemma ln10_pos : 0 < ln 10.
Proof. rewrite <- ln_1. apply ln_increasing; lra. Qed.

Lemma log10_one : log10 1 = 0.
Proof. unfold log10. rewrite ln_1. lra. Qed.

Lemma log10_mult (x y : R) :
  0 < x -> 0 < y -> log10 (x * y) = log10 x + log10 y.
Proof.
  intros Hx Hy. unfold log10. rewrite ln_mult by assumption.
  pose proof ln10_pos. field. lra.
Qed.

Lemma log10_nonpos (x : R) : 0 < x <= 1 -> log10 x <= 0.
Proof.
  intros [Hx [Hlt | ->]]; [| rewrite log10_one; lra].
  unfold log10. pose proof ln10_pos as H10.
  assert (Hln : ln x < 0) by (rewrite <- ln_1; now apply ln_increasing).
  apply Rmult_le_reg_r with (ln 10); [exact H10 |].
  replace (ln x / ln 10 * ln 10) with (ln x) by (field; lra). lra.
Qed.

(** X1.  At full phase the slope parameter plays no part: the magnitude of
    an asteroid is h + 5 log10 (rad dist), and so h itself at 1 AU from the
    Sun and from the observer. *)
Theorem asteroid_magnitude_at_full_phase (rad dist h g : R) :
  0 < rad -> 0 < dist ->
  computeAsteroidMagnitude rad dist 0 h g
  = Finite (h + 5 * log10 (rad * dist)) /\
  computeAsteroidMagnitude 1 1 0 h g = Finite h.
Proof.
  intros _ _.
  assert (Hgen : forall r d : R,
             computeAsteroidMagnitude r d 0 h g
             = Finite (h + 5 * log10 (r * d))).
  { intros r d.
    rewrite computeAsteroidMagnitude_factor, phaseFactor_full_phase,
      toFloat_one.
    rewrite (proj2 (Rgtb_true_iff 1 0)) by lra.
    rewrite log10_one. f_equal. lra. }
  split; [apply Hgen |].
  rewrite Hgen. replace (1 * 1) with 1 by lra. rewrite log10_one.
  f_equal. lra.
Qed.

Lemma asteroid_magnitude_at_full_phase_witness :
  computeAsteroidMagnitude 2 3 0 7 0.15 = Finite (7 + 5 * log10 (2 * 3)) /\
  computeAsteroidMagnitude 1 1 0 7 0.15 = Finite 7.
Proof.
  apply (asteroid_magnitude_at_full_phase 2 3 7 0.15); lra.
Defined.

(** X2.  With a slope parameter between 0 and 1 and positive distances,
    the magnitude of an asteroid is defined (not [HUGE_VAL]) and never
    brighter than at full phase, h + 5 log10 (rad dist), as long as
    tan (phase / 2) is between 0 and 4 (phase angles up to 2 atan 4, about
    152 degrees).  It is [HUGE_VAL] when tan (phase / 2) is 256 or more (from
    about 0.45 degree short of PI on): the phase factor is then positive but
    below 2^-150, and [float mag] is 0.  It is [HUGE_VAL] too when
    tan (phase / 2) is negative: the powers are not numbers. *)
Theorem asteroid_magnitude_defined (rad dist phase h g : R) :
  0 <= g <= 1 -> 0 < rad -> 0 < dist ->
  (0 <= tan (phase / 2) <= 4 ->
   exists mag : R,
     computeAsteroidMagnitude rad dist phase h g = Finite mag /\
     h + 5 * log10 (rad * dist) <= mag) /\
  (256 <= tan (phase / 2) ->
   computeAsteroidMagnitude rad dist phase h g = HUGE_VAL) /\
  (tan (phase / 2) < 0 ->
   computeAsteroidMagnitude rad dist phase h g = HUGE_VAL).
Proof.
  intros Hg _ _. pose proof bpow_150_bounds as Hb. split; [| split].
  - intros Ht.
    destruct (phaseFactor_moderate phase g Hg Ht) as [f [Hf Hrange]].
    destruct (toFloat_unit f) as [m [Hm Hunit]]; [lra |].
    exists (h + 5 * log10 (rad * dist) - 2.5 * log10 m). split.
    + rewrite computeAsteroidMagnitude_factor, Hf, Hm.
      now rewrite (proj2 (Rgtb_true_iff m 0)) by lra.
    + pose proof (log10_nonpos m Hunit). lra.
  - intros Ht.
    destruct (phaseFactor_near_pi phase g Hg Ht) as [f [Hf Hsmall]].
    apply (computeAsteroidMagnitude_underflow _ _ _ _ _ f Hf). lra.
  - intros Ht.
    now rewrite computeAsteroidMagnitude_factor, phaseFactor_negative.
Qed.

Lemma asteroid_magnitude_defined_witness :
  (exists mag : R,
      computeAsteroidMagnitude 2 3 (PI / 2) 7 0.15 = Finite mag /\
      7 + 5 * log10 (2 * 3) <= mag) /\
  computeAsteroidMagnitude 2 3 (2 * atan 256) 7 0.15 = HUGE_VAL /\
  computeAsteroidMagnitude 2 3 (- (PI / 2)) 7 0.15 = HUGE_VAL.
Proof.
  assert (Hg : 0 <= 0.15 <= 1) by lra.
  assert (H2 : 0 < 2) by lra. assert (H3 : 0 < 3) by lra.
  split; [| split].
  - apply (proj1 (asteroid_magnitude_defined 2 3 (PI / 2) 7 0.15 Hg H2 H3)).
    replace (PI / 2 / 2) with (PI / 4) by lra. rewrite tan_PI4. lra.
  - apply (proj1 (proj2 (asteroid_magnitude_defined
                           2 3 (2 * atan 256) 7 0.15 Hg H2 H3))).
    rewrite tan_half_of_twice_atan. lra.
  - apply (proj2 (proj2 (asteroid_magnitude_defined
                           2 3 (- (PI / 2)) 7 0.15 Hg H2 H3))).
    rewrite tan_minus_quarter. lra.
Defined.

(** X3.  The magnitude of a comet is h at 1 AU from the Sun and from the
    observer; moving the observer b times farther adds 5 log10 b, moving the
    comet a times farther from the Sun adds 2.5 k log10 a. *)
Theorem comet_magnitude_scaling (rad dist h k a b : R) :
  0 < rad -> 0 < dist -> 0 < a -> 0 < b ->
  computeCometMagnitude 1 1 h k = h /\
  computeCometMagnitude (a * rad) (b * dist) h k
  = computeCometMagnitude rad dist h k + 5 * log10 b + 2.5 * k * log10 a.
Proof.
  intros Hr Hd Ha Hb. unfold computeCometMagnitude.
  rewrite log10_one, !log10_mult by assumption.
  split; lra.
Qed.

Lemma comet_magnitude_scaling_witness :
  computeCometMagnitude 1 1 6 4 = 6 /\
  computeCometMagnitude (10 * 2) (10 * 3) 6 4
  = computeCometMagnitude 2 3 6 4 + 5 * log10 10 + 2.5 * 4 * log10 10.
Proof.
  apply (comet_magnitude_scaling 2 3 6 4 10 10); lra.
Defined.

Lemma cos_above_minus_one (x : R) : - PI < x < PI -> -1 < cos x.
Proof.
  intros H.
  replace x with (2 * (x / 2)) by lra.
  rewrite cos_2a_cos.
  pose proof (cos_gt_0 (x / 2) ltac:(lra) ltac:(lra)).
  nra.
Qed.



Lemma log10_2_bounds : 3 / 10 < log10 2 < 28 / 93.
Proof.
  pose proof ln10_pos as H10.
  assert (Hlow : ln (10 ^ 3) < ln (2 ^ 10)).
  { apply ln_increasing; [lra |].
    change 10 with (IZR 10) at 1. change 2 with (IZR 2).
    rewrite !pow_IZR. apply IZR_lt. reflexivity. }
  assert (Hup : ln (2 ^ 93) < ln (10 ^ 28)).
  { apply ln_increasing.
    - apply pow_lt. lra.
    - change 10 with (IZR 10). change 2 with (IZR 2) at 1.
      rewrite !pow_IZR. apply IZR_lt. reflexivity. }
  rewrite !ln_pow in Hlow, Hup by lra.
  rewrite !INR_IZR_INZ in Hlow, Hup.
  cbn [Z.of_nat Pos.of_succ_nat Pos.succ] in Hlow, Hup.
  unfold log10. split.
  - apply Rmult_lt_reg_r with (ln 10); [exact H10 |].
    replace (ln 2 / ln 10 * ln 10) with (ln 2) by (field; lra). lra.
  - apply Rmult_lt_reg_r with (ln 10); [exact H10 |].
    replace (ln 2 / ln 10 * ln 10) with (ln 2) by (field; lra). lra.
Qed.

(** X5.  At the reference conditions of the model, a range of 1000 km and
    half illumination (phase PI/2), the magnitude of a satellite is its
    standard magnitude plus 2.5 log10 2 - 0.75, less than 0.003 magnitude
    away from it. *)
Theorem satellite_magnitude_at_reference (stdmag : R) :
  computeSatelliteMagnitude 1000 (PI / 2) stdmag
  = Finite (stdmag + (2.5 * log10 2 - 0.75)) /\
  0 < 2.5 * log10 2 - 0.75 < 0.003.
Proof.
  pose proof log10_2_bounds as Hb. pose proof PI_RGT_0 as Hpi.
  split; [| lra].
  unfold computeSatelliteMagnitude. decide_cmp.
  rewrite cos_PI2. f_equal.
  replace (1000 * 1000 / ((1.0 + 0) / 2.0)) with (2 * 10 ^ 6) by lra.
  rewrite log10_mult by (try apply pow_lt; lra).
  assert (H6 : log10 (10 ^ 6) = 6).
  { unfold log10. rewrite ln_pow by lra.
    rewrite INR_IZR_INZ. cbn [Z.of_nat Pos.of_succ_nat Pos.succ].
    pose proof ln10_pos. field. lra. }
  rewrite H6. lra.
Qed.

(** ** The phase angle *)

Lemma magnitude_multiplyBy (v : SSVector) (c : R) :
  0 <= c -> magnitude (multiplyBy v c) = c * magnitude v.
Proof.
  intros Hc. unfold magnitude, multiplyBy. cbn [vx vy vz].
  replace (vx v * c * (vx v * c) + vy v * c * (vy v * c)
           + vz v * c * (vz v * c))
    with (c * c * (vx v * vx v + vy v * vy v + vz v * vz v)) by ring.
  rewrite sqrt_mult_alt by nra.
  now rewrite sqrt_square.
Qed.

Lemma dotProduct_multiplyBy (v d : SSVector) (c : R) :
  dotProduct (multiplyBy v c) d = c * dotProduct v d.
Proof. unfold dotProduct, multiplyBy. cbn [vx vy vz]. ring. Qed.

(** The dot product of two vectors is at most the product of their
    lengths. *)
Lemma dotProduct_bound (v d : SSVector) :
  magnitude d = 1 ->
  - magnitude v <= dotProduct v d <= magnitude v.
Proof.
  intros Hd. unfold magnitude, dotProduct in *.
  destruct v as [x1 x2 x3], d as [y1 y2 y3]. cbn [vx vy vz] in *.
  set (sv := x1 * x1 + x2 * x2 + x3 * x3) in *.
  set (sd := y1 * y1 + y2 * y2 + y3 * y3) in *.
  assert (Hsv : 0 <= sv) by (unfold sv; nra).
  assert (Hsd : 0 <= sd) by (unfold sd; nra).
  assert (Hsd1 : sd = 1) by (rewrite <- (sqrt_sqrt sd Hsd), Hd; lra).
  pose proof (sqrt_sqrt sv Hsv) as Hm. pose proof (sqrt_pos sv) as Hm0.
  set (m := sqrt sv) in *. set (a := x1 * y1 + x2 * y2 + x3 * y3).
  assert (Hcs : a * a <= sv * sd).
  { assert (Hid : sv * sd - a * a
                  = (x1 * y2 - x2 * y1) * (x1 * y2 - x2 * y1)
                    + (x1 * y3 - x3 * y1) * (x1 * y3 - x3 * y1)
                    + (x2 * y3 - x3 * y2) * (x2 * y3 - x3 * y2))
      by (unfold sv, sd, a; ring).
    pose proof (Rle_0_sqr (x1 * y2 - x2 * y1)) as H1.
    pose proof (Rle_0_sqr (x1 * y3 - x3 * y1)) as H2.
    pose proof (Rle_0_sqr (x2 * y3 - x3 * y2)) as H3.
    unfold Rsqr in H1, H2, H3.
    cut (0 <= sv * sd - a * a); [lra |]. rewrite Hid. lra. }
  rewrite Hsd1, Rmult_1_r, <- Hm in Hcs.
  split; nra.
Qed.

Lemma libm_acos_in_range (x : R) :
  -1 <= x <= 1 -> libm_acos x = Some (acos x).
Proof.
  intros [Hlow Hup]. unfold libm_acos.
  now rewrite (proj2 (Rleb_true_iff _ _)), (proj2 (Rleb_true_iff _ _)).
Qed.



(** ** The primary of a moon *)

Lemma toInt_small (z : Z) :
  (- 2147483648 <= z < 2147483648)%Z -> toInt z = z.
Proof. intros Hz. unfold toInt. rewrite Z.mod_small; lia. Qed.

Lemma toInt_period (z k : Z) : toInt (z + 4294967296 * k) = toInt z.
Proof.
  unfold toInt.
  replace (z + 4294967296 * k + 2147483648)%Z
    with (z + 2147483648 + k * 4294967296)%Z by lia.
  now rewrite Z_mod_plus_full.
Qed.

Lemma primaryIndex_range (id : Z) :
  (0 <= primaryIndex id <= 9)%Z /\ (Z.to_nat (primaryIndex id) < 10)%nat.
Proof.
  assert (Hb : (0 <= primaryIndex id <= 9)%Z).
  { unfold primaryIndex. cbv zeta.
    destruct (Z.ltb_spec (toInt id ÷ 100) 0); cbn [orb]; [lia |].
    destruct (Z.gtb_spec (toInt id ÷ 100) 9); lia. }
  split; [exact Hb | lia].
Qed.

(** X7.  The index of the primary of a moon is always an index of the
    10-entry arrays.  It depends on the low 32 bits of the identifier only.
    It is the hundreds digit of the identifier for the identifiers 0 to 999
    (so 3 for the Moon, 301, and 9 for Charon, 901), and 0 for every other
    identifier that fits a 32-bit [int]. *)
Theorem primaryIndex_in_bounds (id : Z) :
  (0 <= primaryIndex id <= 9)%Z /\
  (Z.to_nat (primaryIndex id) < 10)%nat /\
  (forall k : Z, primaryIndex (id + 4294967296 * k) = primaryIndex id) /\
  (forall q r : Z,
      (0 <= q <= 9)%Z -> (0 <= r < 100)%Z -> id = (100 * q + r)%Z ->
      primaryIndex id = q) /\
  ((- 2147483648 <= id < 2147483648)%Z ->
   (id < 0)%Z \/ (1000 <= id)%Z -> primaryIndex id = 0%Z).
Proof.
  destruct (primaryIndex_range id) as [Hb Hn].
  split; [exact Hb |]. split; [exact Hn |]. split; [| split].
  - intros k. unfold primaryIndex. now rewrite toInt_period.
  - intros q r Hq Hr ->. unfold primaryIndex. cbv zeta.
    rewrite toInt_small by lia.
    rewrite Z.quot_div_nonneg by lia.
    replace (100 * q + r)%Z with (r + q * 100)%Z by lia.
    rewrite Z.div_add, Z.div_small by lia. cbn [Z.add].
    destruct (Z.ltb_spec q 0); cbn [orb]; [lia |].
    destruct (Z.gtb_spec q 9); lia.
  - intros Hint [Hneg | Hbig]; unfold primaryIndex; cbv zeta;
      rewrite toInt_small by exact Hint.
    + destruct (Z.ltb_spec (id ÷ 100) 0); cbn [orb]; [reflexivity |].
      assert (Hq : (0 <= (- id) ÷ 100)%Z) by (apply Z.quot_pos; lia).
      rewrite Z.quot_opp_l in Hq by lia.
      destruct (Z.gtb_spec (id ÷ 100) 9); lia.
    + assert (10 <= id ÷ 100)%Z by (apply Z.quot_le_lower_bound; lia).
      destruct (Z.ltb_spec (id ÷ 100) 0); cbn [orb]; [reflexivity |].
      destruct (Z.gtb_spec (id ÷ 100) 9); lia.
Qed.

Lemma primaryIndex_in_bounds_witness :
  primaryIndex kLuna = 3%Z /\ primaryIndex (-5) = 0%Z /\
  primaryIndex (301 + 4294967296 * 1) = primaryIndex 301.
Proof.
  split; [| split].
  - apply (proj1 (proj2 (proj2 (proj2 (primaryIndex_in_bounds kLuna))))
             3%Z 1%Z);
      [lia | lia | reflexivity].
  - apply (proj2 (proj2 (proj2 (proj2 (primaryIndex_in_bounds (-5)))))).
    + lia.
    + left. lia.
  - apply (proj1 (proj2 (proj2 (primaryIndex_in_bounds 301)))).
Defined.

(** ** The memoised primary of a moon *)

Lemma setNth_length {A : Type} (n : nat) (x : A) (l : list A) :
  length (setNth n x l) = length l.
Proof.
  revert n. induction l as [|h t IH]; intros [|n]; cbn; auto.
Qed.

Lemma nth_setNth_same {A : Type} (n : nat) (x d : A) (l : list A) :
  (n < length l)%nat -> nth n (setNth n x l) d = x.
Proof.
  revert n. induction l as [|h t IH]; intros [|n] H; cbn in *; try lia; auto.
  apply IH. lia.
Qed.

Lemma nth_setNth_other {A : Type} (n m : nat) (x d : A) (l : list A) :
  n <> m -> nth m (setNth n x l) d = nth m l d.
Proof.
  revert n m. induction l as [|h t IH]; intros [|n] [|m] H; cbn; auto.
  - contradiction.
Qed.

Section PositionProperties.

Context {P : Ephemerides}.

(** The moon's position when the tabulated ephemeris is not used: what
    [computeMoonPositionVelocity] returns in terms of the entry of the primary
    after the call. *)
Lemma computeMoon_unfold (id : Z) (orbit : SSOrbit) (jed lt : R)
    (cache : list PrimaryEntry) :
  id <> kLuna \/ jplCompute 10 (jed - lt) = None ->
  computeMoonPositionVelocity id orbit jed lt cache =
  let p := Z.to_nat (primaryIndex id) in
  let cache' :=
    if Reqb jed (pe_jed (nth p cache initialEntry)) then cache
    else setNth p
           {| pe_jed := jed;
              pe_pos := fst (computeMajorPlanetPositionVelocity
                               (primaryIndex id) jed 0);
              pe_vel := snd (computeMajorPlanetPositionVelocity
                               (primaryIndex id) jed 0) |} cache in
  let primary := nth p cache' initialEntry in
  let rel := computeMinorPlanetPositionVelocity orbit jed lt in
  (add (fst rel) (subtract (pe_pos primary) (multiplyBy (pe_vel primary) lt)),
   add (snd rel) (pe_vel primary), cache').
Proof.
  intros Hjpl. unfold computeMoonPositionVelocity.
  assert (Hnone : (if (id =? kLuna)%Z then jplCompute 10 (jed - lt) else None)
                  = None).
  { destruct Hjpl as [Hid | Hn].
    - apply Z.eqb_neq in Hid. now rewrite Hid.
    - rewrite Hn. now destruct (id =? kLuna)%Z. }
  rewrite Hnone. cbv zeta.
  destruct (computeMinorPlanetPositionVelocity orbit jed lt) as [pos vel].
  replace 0.0 with 0 by lra.
  destruct (computeMajorPlanetPositionVelocity (primaryIndex id) jed 0)
    as [ppos pvel].
  cbn [fst snd]. destruct (Reqb jed _); reflexivity.
Qed.

(** X8.  Memoisation is transparent.  When the tabulated ephemeris is not
    used and the entry of the moon's primary, if it bears the date asked for,
    holds the primary's position and velocity at its date, the moon's
    position is its position about the primary, antedated by the light time,
    plus the primary's position at the date less the light time times its
    velocity, and the moon's velocity is its own plus the primary's.  After
    the call the primary's entry bears the date with the primary's vectors,
    the other entries are untouched and the arrays keep their 10 entries. *)
Theorem moon_position_memoised (id : Z) (orbit : SSOrbit) (jed lt : R)
    (cache : list PrimaryEntry) :
  length cache = 10%nat ->
  id <> kLuna \/ jplCompute 10 (jed - lt) = None ->
  (pe_jed (nth (Z.to_nat (primaryIndex id)) cache initialEntry) = jed ->
   entryValid (Z.to_nat (primaryIndex id))
     (nth (Z.to_nat (primaryIndex id)) cache initialEntry)) ->
  let p := Z.to_nat (primaryIndex id) in
  let result := computeMoonPositionVelocity id orbit jed lt cache in
  let rel := computeMinorPlanetPositionVelocity orbit jed lt in
  let primary := computeMajorPlanetPositionVelocity (primaryIndex id) jed 0 in
  fst (fst result)
  = add (fst rel) (subtract (fst primary) (multiplyBy (snd primary) lt)) /\
  snd (fst result) = add (snd rel) (snd primary) /\
  length (snd result) = 10%nat /\
  nth p (snd result) initialEntry
  = {| pe_jed := jed; pe_pos := fst primary; pe_vel := snd primary |} /\
  (forall q : nat, q <> p ->
     nth q (snd result) initialEntry = nth q cache initialEntry).
Proof.
  intros Hlen Hjpl Hvalid. cbv zeta.
  rewrite (computeMoon_unfold id orbit jed lt cache Hjpl). cbv zeta.
  pose proof (primaryIndex_range id) as [Hb Hlt].
  set (p := Z.to_nat (primaryIndex id)) in *.
  destruct (Reqb jed (pe_jed (nth p cache initialEntry))) eqn:Hhit;
    cbn [fst snd].
  - apply Reqb_true_iff in Hhit. symmetry in Hhit.
    specialize (Hvalid Hhit). unfold entryValid in Hvalid.
    unfold p in Hvalid. rewrite Z2Nat.id in Hvalid by lia. fold p in Hvalid.
    rewrite Hhit in Hvalid. replace 0.0 with 0 in Hvalid by lra.
    rewrite <- Hvalid. cbn [fst snd].
    repeat split; try assumption.
    destruct (nth p cache initialEntry) as [j pp pv]. cbn in Hhit.
    now subst j.
  - rewrite nth_setNth_same by lia. cbn [pe_pos pe_vel].
    rewrite setNth_length.
    repeat split; try assumption.
    intros q Hq. apply nth_setNth_other. auto.
Qed.

(** X9.  A hit needs no valid entry: when the entry of the primary bears the
    date asked for, the arrays are returned as they are and the moon's
    position is built from the vectors stored there, whatever they are.  So
    the first call, if it asks for the date 0.0 the arrays are initialised
    with, adds the default-constructed vectors and never computes the
    primary. *)
Theorem moon_position_cache_hit (id : Z) (orbit : SSOrbit) (jed lt : R)
    (cache : list PrimaryEntry) :
  (id <> kLuna \/ jplCompute 10 (jed - lt) = None ->
   pe_jed (nth (Z.to_nat (primaryIndex id)) cache initialEntry) = jed ->
   let primary := nth (Z.to_nat (primaryIndex id)) cache initialEntry in
   let rel := computeMinorPlanetPositionVelocity orbit jed lt in
   computeMoonPositionVelocity id orbit jed lt cache
   = (add (fst rel)
        (subtract (pe_pos primary) (multiplyBy (pe_vel primary) lt)),
      add (snd rel) (pe_vel primary), cache)) /\
  (id <> kLuna \/ jplCompute 10 (0 - lt) = None ->
   let rel := computeMinorPlanetPositionVelocity orbit 0 lt in
   computeMoonPositionVelocity id orbit 0 lt initialCache
   = (add (fst rel)
        (subtract defaultVector (multiplyBy defaultVector lt)),
      add (snd rel) defaultVector, initialCache)).
Proof.
  assert (Hhit : forall (j : R) (c : list PrimaryEntry),
             id <> kLuna \/ jplCompute 10 (j - lt) = None ->
             pe_jed (nth (Z.to_nat (primaryIndex id)) c initialEntry) = j ->
             computeMoonPositionVelocity id orbit j lt c
             = (add (fst (computeMinorPlanetPositionVelocity orbit j lt))
                  (subtract
                     (pe_pos (nth (Z.to_nat (primaryIndex id)) c initialEntry))
                     (multiplyBy
                        (pe_vel (nth (Z.to_nat (primaryIndex id)) c
                                   initialEntry)) lt)),
                add (snd (computeMinorPlanetPositionVelocity orbit j lt))
                  (pe_vel (nth (Z.to_nat (primaryIndex id)) c initialEntry)),
                c)).
  { intros j c Hjpl Hj.
    rewrite (computeMoon_unfold id orbit j lt c Hjpl). cbv zeta.
    now rewrite (proj2 (Reqb_true_iff _ _)) by (symmetry; exact Hj). }
  split.
  - intros Hjpl Hj. cbv zeta. now apply Hhit.
  - intros Hjpl. cbv zeta.
    pose proof (primaryIndex_range id) as [_ Hlt].
    assert (Hentry : nth (Z.to_nat (primaryIndex id)) initialCache initialEntry
                     = initialEntry).
    { unfold initialCache. apply nth_repeat. }
    rewrite (Hhit 0 initialCache Hjpl).
    + now rewrite Hentry.
    + rewrite Hentry. cbn. lra.
Qed.

End PositionProperties.

Lemma moon_position_memoised_witness :
  let result :=
    @computeMoonPositionVelocity lineEphemerides 501 tt 2451545 0
      (@initialCache lineEphemerides) in
  let rel := @computeMinorPlanetPositionVelocity lineEphemerides tt 2451545 0 in
  let primary :=
    @computeMajorPlanetPositionVelocity lineEphemerides (primaryIndex 501)
      2451545 0 in
  fst (fst result)
  = add (fst rel) (subtract (fst primary) (multiplyBy (snd primary) 0)) /\
  snd (fst result) = add (snd rel) (snd primary) /\
  length (snd result) = 10%nat /\
  nth (Z.to_nat (primaryIndex 501)) (snd result) (@initialEntry lineEphemerides)
  = {| pe_jed := 2451545; pe_pos := fst primary; pe_vel := snd primary |} /\
  (forall q : nat, q <> Z.to_nat (primaryIndex 501) ->
     nth q (snd result) (@initialEntry lineEphemerides)
     = nth q (@initialCache lineEphemerides) (@initialEntry lineEphemerides)).
Proof.
  apply (@moon_position_memoised lineEphemerides 501 tt 2451545 0
           (@initialCache lineEphemerides)).
  - reflexivity.
  - left. discriminate.
  - unfold initialCache. rewrite nth_repeat. unfold initialEntry at 1.
    cbn [pe_jed]. intros H. lra.
Defined.

Lemma moon_position_cache_hit_witness :
  let rel := @computeMinorPlanetPositionVelocity lineEphemerides tt 0 1 in
  @computeMoonPositionVelocity lineEphemerides 501 tt 0 1
    (@initialCache lineEphemerides)
  = (add (fst rel)
       (subtract (@defaultVector lineEphemerides)
          (multiplyBy (@defaultVector lineEphemerides) 1)),
     add (snd rel) (@defaultVector lineEphemerides),
     @initialCache lineEphemerides).
Proof.
  apply (proj2 (@moon_position_cache_hit lineEphemerides 501 tt 0 1
                  (@initialCache lineEphemerides))).
  left. discriminate.
Defined.

(** ** The closed-form solver *)

Lemma cos_turns (x : R) (n : Z) : cos (x + kTwoPi * IZR n) = cos x.
Proof.
  unfold kTwoPi. destruct (Z_le_gt_dec 0 n) as [Hn | Hn].
  - rewrite <- (cos_period x (Z.to_nat n)).
    rewrite INR_IZR_INZ, Z2Nat.id by lia. f_equal. lra.
  - rewrite <- (cos_period (x + 2 * PI * IZR n) (Z.to_nat (- n))).
    rewrite INR_IZR_INZ, Z2Nat.id, opp_IZR by lia. f_equal. lra.
Qed.

Lemma whole_turn_in_range (m : Z) :
  - PI < kTwoPi * IZR m <= PI -> m = 0%Z.
Proof.
  unfold kTwoPi. intros [Hlo Hhi]. pose proof PI_RGT_0 as Hpi.
  assert (H1 : IZR (-1) < IZR m) by nra.
  assert (H2 : IZR m < IZR 1) by nra.
  apply lt_IZR in H1, H2. lia.
Qed.

Section SolverProperties.

Context {E : Collaborators}.

(** A finite result comes from the last branch only. *)
Lemma riseTransitSet_finite_inv
    (time ra dec : R) (sign : Z) (lon lat alt t : R) :
  riseTransitSet time ra dec sign lon lat alt = Finite t ->
  semiDiurnalArc lat dec alt <> 0 /\
  (semiDiurnalArc lat dec alt <> kPi \/ sign = 0%Z) /\
  t = time +
      modPi (ra - getSiderealTime time lon
             + IZR sign * semiDiurnalArc lat dec alt)
      / kTwoPi / kSiderealPerSolarDays.
Proof.
  unfold riseTransitSet. cbv zeta.
  destruct (Reqb (semiDiurnalArc lat dec alt) kPi) eqn:Hpi;
    destruct (Z.eqb_spec sign 0) as [Hs | Hs]; cbn [negb andb];
    try discriminate;
    (destruct (Reqb (semiDiurnalArc lat dec alt) 0.0) eqn:H0;
     [discriminate |]);
    intros Heq; injection Heq as <-;
    apply Reqb_false_iff in H0.
  - repeat split; [lra | now right].
  - apply Reqb_false_iff in Hpi. repeat split; [lra | now right].
  - apply Reqb_false_iff in Hpi. repeat split; [lra | now left].
Qed.

(** An angle between -PI and PI, turned into days at the sidereal rate, is
    at most half a sidereal day, which is less than half a day. *)
Lemma reduced_angle_in_days (theta : R) :
  - PI < theta <= PI ->
  Rabs (theta / kTwoPi / kSiderealPerSolarDays)
    <= 0.5 / kSiderealPerSolarDays /\
  Rabs (theta / kTwoPi / kSiderealPerSolarDays) < 0.5.
Proof.
  intros Hrange.
  pose proof kSidereal_bounds as Hk. pose proof PI_RGT_0 as Hpi.
  set (k := kSiderealPerSolarDays) in *. unfold kTwoPi.
  assert (Hik : 0 < / k < 1).
  { split; [apply Rinv_0_lt_compat; lra |].
    rewrite <- Rinv_1. apply Rinv_lt_contravar; lra. }
  assert (Hq : theta / (2 * PI) / k = theta * / PI * (/ 2 * / k))
    by (field; lra).
  rewrite Hq.
  replace (0.5 / k) with (/ 2 * / k) by (unfold Rdiv; lra).
  assert (Hunit : -1 < theta * / PI <= 1).
  { split.
    - apply Rmult_lt_reg_r with PI; [lra |].
      replace (theta * / PI * PI) with theta by (field; lra). lra.
    - apply Rmult_le_reg_r with PI; [lra |].
      replace (theta * / PI * PI) with theta by (field; lra). lra. }
  set (u := theta * / PI) in *. set (c := / 2 * / k).
  assert (Hc : 0 < c < 0.5) by (unfold c; lra).
  split.
  - apply Rabs_le. split; nra.
  - apply Rabs_def1; nra.
Qed.

(** X10.  A finite result of [riseTransitSet] is less than half a day from
    the input time, at most half a sidereal day, as soon as [modPi] reduces
    into the interval from -PI to PI. *)
Theorem riseTransitSet_within_half_day
    (time ra dec : R) (sign : Z) (lon lat alt t : R) :
  modPiReduces ->
  riseTransitSet time ra dec sign lon lat alt = Finite t ->
  Rabs (t - time) <= 0.5 / kSiderealPerSolarDays /\ Rabs (t - time) < 0.5.
Proof.
  intros Hmod Hres.
  apply riseTransitSet_finite_inv in Hres as (_ & _ & ->).
  set (theta := modPi _).
  destruct (Hmod (ra - getSiderealTime time lon
                  + IZR sign * semiDiurnalArc lat dec alt)) as [Hrange _].
  fold theta in Hrange.
  replace (time + theta / kTwoPi / kSiderealPerSolarDays - time)
    with (theta / kTwoPi / kSiderealPerSolarDays) by lra.
  now apply reduced_angle_in_days.
Qed.

(** X11.  On a rise or set query for an object that crosses the horizon
    altitude, [riseTransitSet] returns a time at which the object is on that
    altitude: there the hour angle is minus (rise) or plus (set) the
    semi-diurnal arc, up to whole turns, and the altitude given by the
    spherical triangle, whose sine is
    sin dec sin lat + cos dec cos lat cos (hour angle), is the horizon
    altitude. *)
Theorem riseTransitSet_reaches_altitude
    (time ra dec : R) (sign : Z) (lon lat alt : R) :
  modPiReduces -> siderealRate ->
  sign = 1%Z \/ sign = (-1)%Z ->
  -1 < cosHourAngle lat dec alt < 1 ->
  cos dec * cos lat <> 0 ->
  exists t : R,
    riseTransitSet time ra dec sign lon lat alt = Finite t /\
    (exists n : Z,
        getSiderealTime t lon - ra
        = IZR sign * semiDiurnalArc lat dec alt + kTwoPi * IZR n) /\
    sin dec * sin lat + cos dec * cos lat * cos (getSiderealTime t lon - ra)
    = sin alt.
Proof.
  intros Hmod Hrate Hsign Hc Hden.
  pose proof (semiDiurnalArc_crosses lat dec alt Hc) as Harc.
  pose proof (acos_bound_lt _ Hc) as Hb. rewrite <- Harc in Hb.
  set (ha := semiDiurnalArc lat dec alt) in *.
  set (x := ra - getSiderealTime time lon + IZR sign * ha).
  exists (time + modPi x / kTwoPi / kSiderealPerSolarDays).
  split.
  - apply riseTransitSet_finite; fold ha; [lra | left; unfold kPi; lra].
  - destruct (Hmod x) as [_ [n1 Hn1]].
    destruct (Hrate time (modPi x / kTwoPi / kSiderealPerSolarDays) lon)
      as [n2 Hn2].
    assert (Hha : getSiderealTime
                    (time + modPi x / kTwoPi / kSiderealPerSolarDays) lon - ra
                  = IZR sign * ha + kTwoPi * IZR (n1 + n2)).
    { rewrite Hn2, plus_IZR.
      replace (kTwoPi * kSiderealPerSolarDays
               * (modPi x / kTwoPi / kSiderealPerSolarDays))
        with (modPi x)
        by (unfold kTwoPi, kSiderealPerSolarDays; pose proof PI_RGT_0;
            field; lra).
      rewrite Hn1. unfold x. lra. }
    split; [exists (n1 + n2)%Z; exact Hha |].
    rewrite Hha, cos_turns.
    assert (Hcos : cos (IZR sign * ha) = cosHourAngle lat dec alt).
    { destruct Hsign as [-> | ->].
      - replace (1 * ha) with ha by lra.
        rewrite Harc. apply cos_acos. lra.
      - replace (-1 * ha) with (- ha) by lra. rewrite cos_neg.
        rewrite Harc. apply cos_acos. lra. }
    rewrite Hcos. unfold cosHourAngle. field.
    split; intros H0; apply Hden; rewrite H0; ring.
Qed.

End SolverProperties.

Lemma modPiModel_reduces : @modPiReduces starSky.
Proof.
  intros x. split; [| apply modPiModel_turns].
  change (@modPi starSky) with modPiModel.
  unfold modPiModel, kTwoPi, kPi. cbv zeta.
  pose proof PI_RGT_0 as Hpi.
  destruct (base_Int_part (x / (2 * PI))) as [Hlo Hhi].
  assert (Hq : x / (2 * PI) * (2 * PI) = x) by (field; lra).
  set (k := IZR (Int_part (x / (2 * PI)))) in *.
  assert (Hy : 0 <= x - 2 * PI * k < 2 * PI) by nra.
  destruct (Rgtb (x - 2 * PI * k) PI) eqn:Hgt.
  - apply Rgtb_true_iff in Hgt. lra.
  - apply Rgtb_false_iff in Hgt. lra.
Qed.

Lemma siderealModel_siderealRate : @siderealRate starSky.
Proof. intros t d l. apply siderealModel_rate. Qed.

Lemma riseTransitSet_within_half_day_witness :
  exists t : R,
    @riseTransitSet starSky 0 0 0 1 0 0 0 = Finite t /\
    Rabs (t - 0) <= 0.5 / kSiderealPerSolarDays /\ Rabs (t - 0) < 0.5.
Proof.
  eexists. split.
  - apply riseTransitSet_finite.
    + rewrite semiDiurnalArc_horizon. pose proof PI_RGT_0. lra.
    + left. rewrite semiDiurnalArc_horizon. unfold kPi.
      pose proof PI_RGT_0. lra.
  - apply (@riseTransitSet_within_half_day starSky 0 0 0 1 0 0 0).
    + exact modPiModel_reduces.
    + apply riseTransitSet_finite.
      * rewrite semiDiurnalArc_horizon. pose proof PI_RGT_0. lra.
      * left. rewrite semiDiurnalArc_horizon. unfold kPi.
        pose proof PI_RGT_0. lra.
Defined.

Lemma riseTransitSet_reaches_altitude_witness :
  exists t : R,
    @riseTransitSet starSky 0 0 0 (-1) 0 0 0 = Finite t /\
    (exists n : Z,
        @getSiderealTime starSky t 0 - 0
        = IZR (-1) * semiDiurnalArc 0 0 0 + kTwoPi * IZR n) /\
    sin 0 * sin 0 + cos 0 * cos 0 * cos (@getSiderealTime starSky t 0 - 0)
    = sin 0.
Proof.
  apply (@riseTransitSet_reaches_altitude starSky 0 0 0 (-1) 0 0 0).
  - exact modPiModel_reduces.
  - exact siderealModel_siderealRate.
  - now right.
  - rewrite cosHourAngle_horizon. lra.
  - rewrite cos_0. lra.
Defined.

(** ** The iterative search, continued *)

Section SearchExtras.

Context {E : Collaborators}.

Lemma refinedGuess_fixedObject
    (w : World) (equ : SSSpherical) (sign : Z) (alt time : R) :
  fixedObject w equ ->
  refinedGuess w sign alt time
  = riseTransitSet time (lon equ) (lat equ) sign
      (lon (cloc (w_coords w))) (lat (cloc (w_coords w))) alt.
Proof.
  intros Hfix. unfold refinedGuess, riseTransitSetObj. cbv zeta.
  now rewrite (Hfix time).
Qed.

(** For coordinates that do not change, the closed-form estimate made at
    its own result is that result again. *)
Lemma riseTransitSet_fixed_point
    (time ra dec : R) (sign : Z) (lon lat alt t : R) :
  modPiReduces -> siderealRate ->
  riseTransitSet time ra dec sign lon lat alt = Finite t ->
  riseTransitSet t ra dec sign lon lat alt = Finite t.
Proof.
  intros Hmod Hrate Hres.
  apply riseTransitSet_finite_inv in Hres as (H0 & Hpi & Ht).
  rewrite riseTransitSet_finite by assumption.
  set (ha := semiDiurnalArc lat dec alt) in *.
  set (x0 := ra - getSiderealTime time lon + IZR sign * ha) in *.
  destruct (Hmod x0) as [_ [n1 Hn1]].
  destruct (Hrate time (modPi x0 / kTwoPi / kSiderealPerSolarDays) lon)
    as [n2 Hn2].
  rewrite <- Ht in Hn2.
  replace (kTwoPi * kSiderealPerSolarDays
           * (modPi x0 / kTwoPi / kSiderealPerSolarDays))
    with (modPi x0) in Hn2
    by (unfold kTwoPi, kSiderealPerSolarDays; pose proof PI_RGT_0;
        field; lra).
  set (x1 := ra - getSiderealTime t lon + IZR sign * ha).
  destruct (Hmod x1) as [Hrange [n3 Hn3]].
  assert (Hx1 : modPi x1 = kTwoPi * IZR (n3 - n1 - n2)).
  { rewrite Hn3. unfold x1. rewrite Hn2, Hn1, !minus_IZR. unfold x0. lra. }
  rewrite Hx1 in Hrange. apply whole_turn_in_range in Hrange.
  rewrite Hx1, Hrange. f_equal.
  unfold kTwoPi, kSiderealPerSolarDays. pose proof PI_RGT_0.
  unfold Rdiv. lra.
Qed.

(** The loop on a fixed object: the second estimate repeats the first, so
    the loop ends there with the first estimate. *)
Lemma searchLoop_fixedObject
    (w : World) (equ : SSSpherical) (time : R) (sign : Z) (alt : R) :
  modPiReduces -> siderealRate -> fixedObject w equ ->
  sr_time (searchLoop sign alt 0 time w) = refinedGuess w sign alt time /\
  (sr_iterations (searchLoop sign alt 0 time w) <= 2)%nat.
Proof.
  intros Hmod Hrate Hfix.
  rewrite searchLoop_step.
  destruct (searchContinues _ _ _) eqn:Hc.
  - apply searchContinues_true in Hc as [_ [b [Hb _]]].
    rewrite Hb. cbn [dval].
    rewrite searchLoop_step.
    assert (Hagain : refinedGuess (atTime w time) sign alt b = Finite b).
    { rewrite (refinedGuess_ext _ w) by apply atTime_setting.
      rewrite (refinedGuess_fixedObject w equ) in Hb |- * by assumption.
      eapply riseTransitSet_fixed_point; eassumption. }
    rewrite Hagain.
    unfold searchContinues. cbn [fabs_diff_gtb].
    rewrite (proj2 (Rgtb_false_iff _ _)).
    + cbn [andb sr_time sr_iterations]. split; [reflexivity | lia].
    + replace (b - b) with 0 by lra. rewrite Rabs_R0.
      unfold precision, kSecondsPerDay. lra.
  - cbn [sr_time sr_iterations]. split; [reflexivity | lia].
Qed.

(** X12.  Provided [modPi] reduces an angle by whole turns into the
    interval from -PI (excluded) to PI ([modPiReduces]) and the sidereal time
    advances by [kTwoPi * kSiderealPerSolarDays] per day, up to whole turns
    ([siderealRate]): for an object whose equatorial coordinates do not change
    with the context time (a fixed star), [riseTransitSetSearch] returns the
    closed-form estimate made at the start time and stops after at most two
    iterations: the second estimate repeats the first. *)
Theorem search_of_fixed_object
    (w : World) (equ : SSSpherical) (time : R) (sign : Z) (alt : R) :
  modPiReduces -> siderealRate -> fixedObject w equ ->
  fst (riseTransitSetSearch time w sign alt)
  = riseTransitSet time (lon equ) (lat equ) sign
      (lon (cloc (w_coords w))) (lat (cloc (w_coords w))) alt /\
  (sr_iterations (searchLoop sign alt 0 time w) <= 2)%nat.
Proof.
  intros Hmod Hrate Hfix.
  destruct (searchLoop_fixedObject w equ time sign alt Hmod Hrate Hfix)
    as [Htime Hcount].
  split; [| exact Hcount].
  rewrite riseTransitSetSearch_time. cbn [fst].
  rewrite Htime. now apply refinedGuess_fixedObject.
Qed.

(** An infinite first guess ends the search at once. *)
Lemma search_of_infinite_guess (time : R) (w : World) (sign : Z) (alt : R) :
  isinf (refinedGuess w sign alt time) = true ->
  riseTransitSetSearch time w sign alt
  = (refinedGuess w sign alt time, atTime w time).
Proof.
  intros Hinf. rewrite riseTransitSetSearch_time, searchLoop_step.
  unfold searchContinues. rewrite Hinf.
  now rewrite andb_false_r.
Qed.

(** The day search when the estimates at the three times it can start from
    (local noon, the noon before and the noon after) are all infinite: the
    result is the sentinel of the query. *)
Lemma searchDay_infinite_estimates
    (today : R) (w : World) (sign : Z) (alt : R) :
  isinf (refinedGuess w sign alt (getLocalMidnight today + 0.5)) = true ->
  isinf (refinedGuess w sign alt (getLocalMidnight today - 0.5)) = true ->
  isinf (refinedGuess w sign alt (getLocalMidnight today + 1.0 + 0.5)) = true ->
  fst (riseTransitSetSearchDay today w sign alt)
  = if (sign =? -1)%Z then NegInfinity else PosInfinity.
Proof.
  intros Hnoon Hbefore Hafter. unfold riseTransitSetSearchDay. cbv zeta.
  rewrite search_of_infinite_guess by exact Hnoon.
  assert (Hnext : forall t : R,
             isinf (refinedGuess w sign alt t) = true ->
             isinf (fst (riseTransitSetSearch t
                           (atTime w (getLocalMidnight today + 0.5))
                           sign alt)) = true).
  { intros t Ht. rewrite search_of_infinite_guess.
    - cbn [fst]. rewrite (refinedGuess_ext _ w) by apply atTime_setting.
      exact Ht.
    - rewrite (refinedGuess_ext _ w) by apply atTime_setting. exact Ht. }
  destruct (refinedGuess w sign alt (getLocalMidnight today + 0.5))
    as [r| |] eqn:Hg; [discriminate | |]; cbn [dgtb dltb].
  - pose proof (Hnext _ Hbefore) as H2.
    destruct (riseTransitSetSearch (getLocalMidnight today - 0.5) _ sign alt)
      as [[r| |] w2]; cbn [fst] in *; try discriminate; reflexivity.
  - pose proof (Hnext _ Hafter) as H2.
    destruct (riseTransitSetSearch (getLocalMidnight today + 1.0 + 0.5)
                _ sign alt)
      as [[r| |] w2]; cbn [fst] in *; try discriminate; reflexivity.
Qed.

(** X13.  When the object has no crossing to offer at any time (every
    closed-form estimate is infinite), the day search returns -infinity for a
    rise query and +infinity for any other, whichever infinity the estimate
    is: an object that never sets, asked for its rising, gives -infinity. *)
Theorem searchDay_without_event
    (today : R) (w : World) (sign : Z) (alt : R) :
  (forall t : R, isinf (refinedGuess w sign alt t) = true) ->
  fst (riseTransitSetSearchDay today w sign alt)
  = if (sign =? -1)%Z then NegInfinity else PosInfinity.
Proof.
  intros Hinf.
  apply searchDay_infinite_estimates.
  - exact (Hinf (getLocalMidnight today + 0.5)).
  - exact (Hinf (getLocalMidnight today - 0.5)).
  - exact (Hinf (getLocalMidnight today + 1.0 + 0.5)).
Qed.

(** The world the loop leaves is the world of its last refinement. *)
Lemma searchLoop_world (sign : Z) (alt : R) (k : nat) :
  forall (i : nat) (time : R) (w : World),
    (i + S k = imax)%nat ->
    exists m : nat,
      (1 <= m)%nat /\
      sr_iterations (searchLoop sign alt i time w) = (i + m)%nat /\
      sr_world (searchLoop sign alt i time w)
      = atTime w (dval (guess w sign alt time (m - 1))).
Proof.
  induction k as [|k IH]; intros i time w Hi; rewrite searchLoop_step.
  - destruct (searchContinues _ _ _) eqn:Hc.
    + apply searchContinues_true in Hc as [Hlt _]. lia.
    + exists 1%nat. cbn [sr_iterations sr_world].
      split; [lia |]. split; [lia | reflexivity].
  - destruct (searchContinues _ _ _) eqn:Hc.
    + apply searchContinues_true in Hc as [Hlt [b [Hb Hfar]]].
      rewrite Hb. cbn [dval].
      destruct (IH (S i) b (atTime w time) ltac:(lia)) as [m [Hm [Hit Hw]]].
      exists (S m). split; [lia |]. split; [rewrite Hit; lia |].
      rewrite Hw.
      rewrite (guess_ext (atTime w time) w) by apply atTime_setting.
      replace (S m - 1)%nat with (S (m - 1)) by lia.
      rewrite (guess_shift w sign alt time b (m - 1) Hb).
      apply atTime_ext, atTime_setting.
    + exists 1%nat. cbn [sr_iterations sr_world].
      split; [lia |]. split; [lia | reflexivity].
Qed.

(** X14.  On return from [riseTransitSetSearch] the context time is not the
    time returned but the guess before it, the time at which the last
    estimate was made, and the object's ephemeris is computed for that
    context.  When the search stopped before its cap on a finite time, the
    two are at most one second apart. *)
Theorem search_leaves_previous_guess
    (time : R) (w : World) (sign : Z) (alt : R) :
  exists (n : nat) (previous : R),
    sr_iterations (searchLoop sign alt 0 time w) = n /\
    guess w sign alt time (n - 1) = Finite previous /\
    fst (riseTransitSetSearch time w sign alt) = guess w sign alt time n /\
    getTime (w_coords (snd (riseTransitSetSearch time w sign alt)))
    = previous /\
    snd (riseTransitSetSearch time w sign alt) = atTime w previous /\
    (forall t : R,
        fst (riseTransitSetSearch time w sign alt) = Finite t ->
        (n < 10)%nat -> Rabs (t - previous) <= precision).
Proof.
  destruct (searchLoop_spec sign alt 9 0 time w eq_refl)
    as [m [Hm [Hit [Htime [Hnot [Hconv _]]]]]].
  destruct (searchLoop_world sign alt 9 0 time w eq_refl)
    as [m' [Hm' [Hit' Hw]]].
  assert (m' = m) by lia. subst m'.
  assert (Hprev : exists previous : R,
             guess w sign alt time (m - 1) = Finite previous).
  { destruct (Nat.eq_dec m 1) as [-> | Hne].
    - exists time. reflexivity.
    - destruct (Hnot (m - 1)%nat ltac:(lia)) as [a [b [_ [Hb _]]]].
      exists b. exact Hb. }
  destruct Hprev as [previous Hprev].
  exists m, previous.
  rewrite riseTransitSetSearch_time. cbn [fst snd].
  rewrite Hw, Hprev. cbn [dval].
  split; [exact Hit |]. split; [reflexivity |].
  split; [exact Htime |]. split; [reflexivity |]. split; [reflexivity |].
  intros t Ht Hcap.
  destruct (Hconv ltac:(lia)) as [Hinf | [a [b [Ha [Hb Hnear]]]]].
  - rewrite <- Htime, Ht in Hinf. discriminate.
  - rewrite Htime, Hb in Ht. injection Ht as <-.
    rewrite Hprev in Ha. injection Ha as <-. exact Hnear.
Qed.

(** What a day search returns, with the form of the sentinel. *)
Lemma searchDay_outcome (today : R) (w : World) (sign : Z) (alt : R) :
  fst (riseTransitSetSearchDay today w sign alt)
  = (if (sign =? -1)%Z then NegInfinity else PosInfinity) \/
  exists t : R,
    fst (riseTransitSetSearchDay today w sign alt) = Finite t /\
    getLocalMidnight today <= t <= getLocalMidnight today + 1.
Proof.
  unfold riseTransitSetSearchDay. cbv zeta.
  destruct (riseTransitSetSearch _ w sign alt) as [time1 w1].
  destruct (if dgtb time1 _ then _ else _) as [time2 w2].
  cbn [fst].
  destruct (dgtb time2 _ || dltb time2 _) eqn:Hout; [now left |].
  apply orb_false_elim in Hout as [Hgt Hlt].
  destruct time2 as [t| |]; cbn in Hgt, Hlt; try discriminate.
  right. exists t. split; [reflexivity |].
  apply Rgtb_false_iff in Hgt. apply Rltb_false_iff in Hlt. lra.
Qed.

Lemma recordEvent_outcome (midnight : R) (sentinel time : double) (w : World) :
  time = sentinel /\ isinf sentinel = true \/
  (exists t : R, time = Finite t /\ midnight <= t <= midnight + 1) ->
  passEventOutcome midnight sentinel (recordEvent time w).
Proof.
  intros [[-> Hinf] | [t [-> Ht]]]; unfold passEventOutcome, recordEvent.
  - left. now rewrite Hinf.
  - right. exists t. cbn. split; [reflexivity | exact Ht].
Qed.

(** X15.  Each event of the pass the pass function returns either lies in
    the local day (both ends included) or did not occur; an event that did not
    occur has azimuth 0 and altitude 0, and its time is -infinity for the
    rising and +infinity for the transit and the setting. *)
Theorem pass_events_outcome (today : R) (w : World) (alt : R) :
  passEventOutcome (getLocalMidnight today) NegInfinity
    (rising (fst (riseTransitSetPass today w alt))) /\
  passEventOutcome (getLocalMidnight today) PosInfinity
    (transit (fst (riseTransitSetPass today w alt))) /\
  passEventOutcome (getLocalMidnight today) PosInfinity
    (setting (fst (riseTransitSetPass today w alt))).
Proof.
  unfold riseTransitSetPass. cbv zeta.
  pose proof (searchDay_outcome today w kRise alt) as H1.
  destruct (riseTransitSetSearchDay today w kRise alt) as [t1 w1].
  pose proof (searchDay_outcome today w1 kTransit 0.0) as H2.
  destruct (riseTransitSetSearchDay today w1 kTransit 0.0) as [t2 w2].
  pose proof (searchDay_outcome today w2 kSet alt) as H3.
  destruct (riseTransitSetSearchDay today w2 kSet alt) as [t3 w3].
  cbn [fst rising transit setting] in *.
  repeat split; apply recordEvent_outcome.
  - destruct H1 as [H1 | H1]; [left; split; [exact H1 | reflexivity] | now right].
  - destruct H2 as [H2 | H2]; [left; split; [exact H2 | reflexivity] | now right].
  - destruct H3 as [H3 | H3]; [left; split; [exact H3 | reflexivity] | now right].
Qed.

End SearchExtras.

Lemma starWorld_fixed :
  @fixedObject starSky starWorld {| lon := 0; lat := 0; rad := 1 |}.
Proof. intros t. reflexivity. Qed.

Lemma search_of_fixed_object_witness :
  fst (@riseTransitSetSearch starSky 0.5 starWorld 1 0)
  = @riseTransitSet starSky 0.5 0 0 1 0 0 0 /\
  (sr_iterations (@searchLoop starSky 1 0 0 0.5 starWorld) <= 2)%nat.
Proof.
  apply (@search_of_fixed_object starSky starWorld
           {| lon := 0; lat := 0; rad := 1 |} 0.5 1 0).
  - exact modPiModel_reduces.
  - exact siderealModel_siderealRate.
  - exact starWorld_fixed.
Defined.

Lemma searchDay_without_event_witness :
  fst (@riseTransitSetSearchDay starSky 0 starWorld kRise (- (PI / 2)))
  = NegInfinity.
Proof.
  apply (@searchDay_without_event starSky 0 starWorld kRise (- (PI / 2))).
  intros t.
  rewrite (@refinedGuess_fixedObject starSky starWorld _ kRise (- (PI / 2)) t
             starWorld_fixed).
  cbn [lon lat]. rewrite riseTransitSet_arc_pi; [reflexivity | | discriminate].
  apply semiDiurnalArc_never_sets. cbn. rewrite cosHourAngle_nadir. lra.
Defined.

(** ** The sweep, continued *)

Lemma StronglySorted_snoc {A : Type} (R : A -> A -> Prop) (l : list A) (x : A) :
  StronglySorted R l -> Forall (fun y => R y x) l ->
  StronglySorted R (l ++ [x]).
Proof.
  induction 1 as [|a l Hs IH Ha]; intros Hall; cbn.
  - constructor; constructor.
  - inversion Hall as [|? ? Hax Hl]; subst.
    constructor; [now apply IH |].
    apply Forall_app. split; [exact Ha | now constructor].
Qed.

Section SweepExtras.

Context {E : Collaborators}.

Variable w0 : World.
Variables start stop minAlt : R.
Variable passes0 : list SSPass.

Lemma azimuthAt_ext (w w' : World) (time : R) :
  sameSetting w w' -> azimuthAt w time = azimuthAt w' time.
Proof.
  intros [Hloc Hdata]. unfold azimuthAt, setTime, computeEphemeris.
  now rewrite Hloc, Hdata.
Qed.

(** What the detection block does to the vector: it appends one pass, whose
    setting is the current sample, exactly when the altitude fell through
    the threshold since the sample before. *)
Lemma detect_passes (time azm alt oldAlt : R)
    (pass : SSPass) (maxAlt : R) (passes : list SSPass) :
  exists emitted : SSPass,
    setting emitted
    = {| ev_time := Finite time; ev_azm := azm; ev_alt := alt |} /\
    snd (detect minAlt time azm alt oldAlt pass maxAlt passes)
    = if Rgtb oldAlt minAlt && Rltb alt minAlt
      then passes ++ [emitted] else passes.
Proof.
  exists (setSetting
            (if Rgtb alt maxAlt
             then setTransit
                    (if Rgtb alt minAlt && Rltb oldAlt minAlt
                     then setRising pass (mkPassEvent (Finite time) azm alt)
                     else pass)
                    (mkPassEvent (Finite time) azm alt)
             else if Rgtb alt minAlt && Rltb oldAlt minAlt
                  then setRising pass (mkPassEvent (Finite time) azm alt)
                  else pass)
            (mkPassEvent (Finite time) azm alt)).
  split; [reflexivity |].
  unfold detect. cbv zeta.
  destruct (Rgtb alt minAlt && Rltb oldAlt minAlt);
    destruct (Rgtb alt maxAlt);
    destruct (Rgtb oldAlt minAlt && Rltb alt minAlt);
    reflexivity.
Qed.

Lemma scanBody_passes (s : Scan) :
  sameSetting (sc_world s) w0 ->
  exists emitted : SSPass,
    setting emitted
    = {| ev_time := Finite (sc_time s);
         ev_azm := azimuthAt w0 (sc_time s);
         ev_alt := altitudeAt w0 (sc_time s) |} /\
    sc_passes (scanBody start minAlt s)
    = if Rgtb (sc_time s) start && Rgtb (sc_oldAlt s) minAlt
         && Rltb (altitudeAt w0 (sc_time s)) minAlt
      then sc_passes s ++ [emitted] else sc_passes s.
Proof.
  intros Hw.
  destruct (Rgtb (sc_time s) start) eqn:Hgt; cbn [andb].
  - apply Rgtb_true_iff in Hgt.
    pose proof (scanBody_later start minAlt s Hgt) as Hd.
    rewrite (altitudeAt_ext _ w0 _ Hw), (azimuthAt_ext _ w0 _ Hw) in Hd.
    destruct (detect_passes (sc_time s) (azimuthAt w0 (sc_time s))
                (altitudeAt w0 (sc_time s)) (sc_oldAlt s)
                (sc_pass s) (sc_maxAlt s) (sc_passes s))
      as [emitted [Hset Hps]].
    exists emitted. split; [exact Hset |].
    rewrite <- Hps, <- Hd. reflexivity.
  - apply Rgtb_false_iff in Hgt.
    destruct (scanBody_first start minAlt s Hgt) as (_ & _ & Hps).
    exists (setSetting zeroPass
              {| ev_time := Finite (sc_time s);
                 ev_azm := azimuthAt w0 (sc_time s);
                 ev_alt := altitudeAt w0 (sc_time s) |}).
    split; [reflexivity | exact Hps].
Qed.

Lemma sweepAppends_scanBody (s : Scan) :
  sweepAppends w0 start stop minAlt passes0 s -> sc_time s <= stop ->
  sweepAppends w0 start stop minAlt passes0 (scanBody start minAlt s).
Proof.
  intros (Hsample & Hw & emitted & Hps & Hclosed & Hsorted & Hbefore) Hstop.
  pose proof (scanBody_time start minAlt s) as Ht'.
  pose proof (scanBody_world start minAlt s) as Hw'.
  pose proof (sweepStep_positive (altitudeAt (sc_world s) (sc_time s))) as Hstep.
  rewrite (altitudeAt_ext _ w0 _ Hw) in Ht', Hstep.
  destruct (scanBody_passes s Hw) as [pass [Hset Hps']].
  split; [rewrite Ht'; now apply sample_next |].
  split; [rewrite Hw'; apply (sameSetting_trans _ _ _ (atTime_setting _ _) Hw) |].
  assert (Hbefore' :
            Forall (fun p => exists ts : R,
                        ev_time (setting p) = Finite ts /\
                        ts < sc_time (scanBody start minAlt s)) emitted).
  { eapply Forall_impl; [| exact Hbefore].
    intros p [ts [Hp Hlt]]. exists ts. split; [exact Hp | lra]. }
  destruct (Rgtb (sc_time s) start && Rgtb (sc_oldAlt s) minAlt
            && Rltb (altitudeAt w0 (sc_time s)) minAlt) eqn:Hemit.
  - apply andb_prop in Hemit as [Hemit Hlow].
    apply andb_prop in Hemit as [Hlate _].
    apply Rgtb_true_iff in Hlate. apply Rltb_true_iff in Hlow.
    exists (emitted ++ [pass]).
    split; [rewrite Hps', Hps; symmetry; apply app_assoc |].
    split; [| split].
    + apply Forall_app. split; [exact Hclosed |].
      constructor; [| constructor].
      exists (sc_time s). rewrite Hset. cbn.
      repeat split; try assumption; lra.
    + apply StronglySorted_snoc; [exact Hsorted |].
      eapply Forall_impl; [| exact Hbefore].
      intros p [ts [Hp Hlt]]. exists ts, (sc_time s).
      rewrite Hset. cbn. repeat split; assumption.
    + apply Forall_app. split; [exact Hbefore' |].
      constructor; [| constructor].
      exists (sc_time s). rewrite Hset. cbn. split; [reflexivity | lra].
  - exists emitted. rewrite Hps'. repeat split; assumption.
Qed.

(** X16.  Whatever the satellite does, [findSatellitePasses] only appends to
    the vector it is given and returns its new size.  Each pass it appends has
    a finite setting time, a sample time of the sweep after the start and not
    after the stop, with the azimuth and the altitude of the satellite at that
    time, the altitude being below the threshold; and the passes are appended
    in the order of their setting times. *)
Theorem sweep_appends_in_order :
  exists emitted : list SSPass,
    fst (findSatellitePasses w0 start stop minAlt passes0)
    = (Z.of_nat (length (passes0 ++ emitted)), passes0 ++ emitted) /\
    Forall (closedPass w0 start stop minAlt) emitted /\
    StronglySorted setsBefore emitted.
Proof.
  pose proof (sweep_invariant start stop minAlt
                (sweepAppends w0 start stop minAlt passes0)
                sweepAppends_scanBody
                (mkScan start 0 zeroPass 0 0 passes0 w0)) as Hinv.
  destruct Hinv as (_ & _ & emitted & Hps & Hclosed & Hsorted & _).
  { split; [apply sample_first |]. split; [apply sameSetting_refl |].
    exists []. rewrite app_nil_r.
    repeat split; constructor. }
  exists emitted. split; [| split; assumption].
  unfold findSatellitePasses. cbv zeta. cbn [fst].
  now rewrite Hps.
Qed.

(** X17.  No pass is emitted, and the vector is returned as it was given,
    when the satellite is never below the threshold at a sample of the window
    (a pass still open at the stop time is dropped), and when it is never
    above it. *)
Theorem sweep_emits_nothing :
  (forall t : R,
      sampleTime w0 start t -> t <= stop -> minAlt <= altitudeAt w0 t) \/
  (forall t : R,
      sampleTime w0 start t -> t <= stop -> altitudeAt w0 t <= minAlt) ->
  fst (findSatellitePasses w0 start stop minAlt passes0)
  = (Z.of_nat (length passes0), passes0).
Proof.
  intros Hcase.
  assert (Hbody : forall s : Scan,
             sweepSilent w0 start stop minAlt passes0 s ->
             sc_time s <= stop ->
             sweepSilent w0 start stop minAlt passes0
               (scanBody start minAlt s)).
  { intros s (Hsample & Hw & Hps & Hstate) Hstop.
    pose proof (scanBody_time start minAlt s) as Ht'.
    pose proof (scanBody_world start minAlt s) as Hw'.
    pose proof (scanBody_oldAlt start minAlt s) as Ho'.
    rewrite (altitudeAt_ext _ w0 _ Hw) in Ht', Ho'.
    destruct (scanBody_passes s Hw) as [pass [_ Hps']].
    split; [rewrite Ht'; now apply sample_next |].
    split; [rewrite Hw';
            apply (sameSetting_trans _ _ _ (atTime_setting _ _) Hw) |].
    split.
    - rewrite Hps', Hps.
      destruct (Rgtb (sc_time s) start && Rgtb (sc_oldAlt s) minAlt
                && Rltb (altitudeAt w0 (sc_time s)) minAlt) eqn:Hemit;
        [exfalso | reflexivity].
      apply andb_prop in Hemit as [Hemit Hlow].
      apply andb_prop in Hemit as [Hlate Hold].
      apply Rgtb_true_iff in Hlate, Hold. apply Rltb_true_iff in Hlow.
      destruct Hstate as [Hnever | Hbelow].
      + specialize (Hnever (sc_time s) Hsample Hstop). lra.
      + specialize (Hbelow Hlate). lra.
    - destruct Hcase as [Hnever | Hnever]; [now left |].
      right. intros _. rewrite Ho'. now apply Hnever. }
  pose proof (sweep_invariant start stop minAlt
                (sweepSilent w0 start stop minAlt passes0) Hbody
                (mkScan start 0 zeroPass 0 0 passes0 w0)) as Hinv.
  destruct Hinv as (_ & _ & Hps & _).
  { split; [apply sample_first |]. split; [apply sameSetting_refl |].
    split; [reflexivity |].
    right. cbn. intros H. lra. }
  unfold findSatellitePasses. cbv zeta. cbn [fst].
  now rewrite Hps.
Qed.

End SweepExtras.

Lemma sweep_emits_nothing_witness :
  fst (@findSatellitePasses blipSky blipWorld 0 (2 / 86400) 0.1 [])
  = (Z.of_nat (length (@nil SSPass)), [])
  /\
  fst (@findSatellitePasses blipSky blipWorld 0 (2 / 86400) 0.5 [])
  = (Z.of_nat (length (@nil SSPass)), []).
Proof.
  split.
  - apply (@sweep_emits_nothing blipSky blipWorld 0 (2 / 86400) 0.1 []).
    left. intros t _ _. rewrite blip_altitudeAt. unfold blipAlt.
    destruct (Rltb t _); [lra |]. destruct (Rltb t _); lra.
  - apply (@sweep_emits_nothing blipSky blipWorld 0 (2 / 86400) 0.5 []).
    right. intros t _ _. rewrite blip_altitudeAt. unfold blipAlt.
    destruct (Rltb t _); [lra |]. destruct (Rltb t _); lra.
Defined.

(** ** The day search for a fixed star *)

Section FixedStarDay.

Context {E : Collaborators}.

Lemma riseTransitSet_isinf_any_time
    (time time' ra dec : R) (sign : Z) (lon lat alt : R) :
  isinf (riseTransitSet time ra dec sign lon lat alt) = true ->
  isinf (riseTransitSet time' ra dec sign lon lat alt) = true.
Proof.
  unfold riseTransitSet. cbv zeta.
  destruct (Reqb (semiDiurnalArc lat dec alt) kPi && negb (sign =? 0)%Z);
    [reflexivity |].
  destruct (Reqb (semiDiurnalArc lat dec alt) 0.0); [reflexivity |].
  discriminate.
Qed.

(** X18.  Provided [modPi] reduces an angle by whole turns into the
    interval from -PI (excluded) to PI ([modPiReduces]) and the sidereal time
    advances by [kTwoPi * kSiderealPerSolarDays] per day, up to whole turns
    ([siderealRate]): for a fixed star the day search needs no retry.  It
    returns the closed-form estimate made at local noon, which lies strictly
    inside the local day, whenever that estimate is finite; and the sentinel
    of the query (-infinity for a rise query, +infinity otherwise) when it is
    not. *)
Theorem searchDay_of_fixed_object
    (w : World) (equ : SSSpherical) (today : R) (sign : Z) (alt : R) :
  modPiReduces -> siderealRate -> fixedObject w equ ->
  let noon := getLocalMidnight today + 0.5 in
  let estimate :=
    riseTransitSet noon (lon equ) (lat equ) sign
      (lon (cloc (w_coords w))) (lat (cloc (w_coords w))) alt in
  (forall t : R,
      estimate = Finite t ->
      fst (riseTransitSetSearchDay today w sign alt) = Finite t /\
      getLocalMidnight today < t < getLocalMidnight today + 1) /\
  (isinf estimate = true ->
   fst (riseTransitSetSearchDay today w sign alt)
   = if (sign =? -1)%Z then NegInfinity else PosInfinity).
Proof.
  intros Hmod Hrate Hfix. cbv zeta. split.
  - intros t Hest.
    assert (Hhalf : Rabs (t - (getLocalMidnight today + 0.5)) < 0.5).
    { pose proof Hest as Hinv.
      apply riseTransitSet_finite_inv in Hinv as (_ & _ & ->).
      set (theta := modPi _).
      replace (getLocalMidnight today + 0.5
               + theta / kTwoPi / kSiderealPerSolarDays
               - (getLocalMidnight today + 0.5))
        with (theta / kTwoPi / kSiderealPerSolarDays) by lra.
      apply reduced_angle_in_days. apply Hmod. }
    apply Rabs_def2 in Hhalf.
    split; [| lra].
    destruct (searchLoop_fixedObject w equ (getLocalMidnight today + 0.5)
                sign alt Hmod Hrate Hfix) as [Hsearch _].
    rewrite (refinedGuess_fixedObject w equ) in Hsearch by assumption.
    rewrite Hest in Hsearch.
    unfold riseTransitSetSearchDay. cbv zeta.
    rewrite riseTransitSetSearch_time, Hsearch.
    cbn [dgtb dltb]. decide_cmp.
    cbn [dgtb dltb]. decide_cmp. reflexivity.
  - intros Hinf.
    apply searchDay_infinite_estimates;
      rewrite (refinedGuess_fixedObject w equ) by assumption;
      eapply riseTransitSet_isinf_any_time; exact Hinf.
Qed.

End FixedStarDay.

Lemma searchDay_of_fixed_object_witness :
  (exists t : R,
      @riseTransitSet starSky (@getLocalMidnight starSky 0 + 0.5)
        0 0 1 0 0 0 = Finite t /\
      fst (@riseTransitSetSearchDay starSky 0 starWorld 1 0) = Finite t /\
      @getLocalMidnight starSky 0 < t < @getLocalMidnight starSky 0 + 1) /\
  (fst (@riseTransitSetSearchDay starSky 0 starWorld 1 (PI / 2))
   = PosInfinity).
Proof.
  assert (Hest : exists t : R,
             @riseTransitSet starSky (@getLocalMidnight starSky 0 + 0.5)
               0 0 1 0 0 0 = Finite t).
  { eexists. apply riseTransitSet_finite.
    - rewrite semiDiurnalArc_horizon. pose proof PI_RGT_0. lra.
    - left. rewrite semiDiurnalArc_horizon. unfold kPi.
      pose proof PI_RGT_0. lra. }
  split.
  - destruct Hest as [t Ht]. exists t. split; [exact Ht |].
    apply (proj1 (@searchDay_of_fixed_object starSky starWorld
                    {| lon := 0; lat := 0; rad := 1 |} 0 1 0
                    modPiModel_reduces siderealModel_siderealRate
                    starWorld_fixed)).
    exact Ht.
  - apply (proj2 (@searchDay_of_fixed_object starSky starWorld
                    {| lon := 0; lat := 0; rad := 1 |} 0 1 (PI / 2)
                    modPiModel_reduces siderealModel_siderealRate
                    starWorld_fixed)).
    cbn [lon lat cloc w_coords starWorld equatorWorld].
    rewrite riseTransitSet_arc_zero; [reflexivity |].
    apply semiDiurnalArc_never_rises. rewrite cosHourAngle_zenith. lra.
Defined.
